(** * MazeGame: move validation, session handling and maze generation

    A shallow embedding of [Backend/mazes.py], the move endpoint of
    [Backend/main.py] and [Backend/maze_generator.py], with the properties
    of the move validator, of the shipped maze catalogue and of the
    randomised carving established against it. *)

From Stdlib Require Import ZArith Lia Ascii.
From stdpp Require Import base tactics option list gmap strings pretty.

Local Open Scope Z_scope.
Local Open Scope string_scope.
Local Open Scope list_scope.

(** ** Python values and exceptions *)

(** Positions are Python tuples [(row, col)] of unbounded integers. *)
Abbreviation pos := (Z * Z)%type.

(** The exceptions the modelled code can raise. *)
Inductive exn : Type :=
| IndexError
| KeyError
| HTTPException (status_code : Z) (detail : string).

(** A computation either returns or raises. *)
Inductive py (A : Type) : Type :=
| Return (a : A)
| Raise (e : exn).
Arguments Return {A} a.
Arguments Raise {A} e.

#[global] Instance py_ret : MRet py := fun A a => Return a.
#[global] Instance py_bind : MBind py := fun A B f m =>
  match m with
  | Return a => f a
  | Raise e => Raise e
  end.

(** [len(l)] as a Python integer. *)
Definition len {A} (l : list A) : Z := Z.of_nat (length l).

(** [l[i]]: indices [0 .. len-1] read from the front, [-len .. -1] from the
    back, anything else raises [IndexError]. *)
Definition py_index {A} (l : list A) (i : Z) : py nat :=
  if bool_decide (0 <= i < len l) then Return (Z.to_nat i)
  else if bool_decide (- len l <= i < 0) then Return (Z.to_nat (len l + i))
  else Raise IndexError.

Definition getitem {A} (l : list A) (i : Z) : py A :=
  n ← py_index l i;
  match l !! n with
  | Some x => Return x
  | None => Raise IndexError
  end.

(** [l[i] = x] *)
Definition setitem {A} (l : list A) (i : Z) (x : A) : py (list A) :=
  n ← py_index l i; Return (<[n := x]> l).

(** A [dict] whose iteration order matters is kept as its items in
    insertion order; the keys are pairwise distinct. *)
Abbreviation dict K V := (list (K * V)).

Fixpoint dict_get `{EqDecision K} {V} (d : dict K V) (k : K) : option V :=
  match d with
  | [] => None
  | (k', v) :: d' => if decide (k' = k) then Some v else dict_get d' k
  end.

(** [d[k] = v]: overwrite in place when [k] is present, append otherwise. *)
Fixpoint dict_set `{EqDecision K} {V} (d : dict K V) (k : K) (v : V) : dict K V :=
  match d with
  | [] => [(k, v)]
  | (k', v') :: d' =>
      if decide (k' = k) then (k, v) :: d' else (k', v') :: dict_set d' k v
  end.

(** ** mazes.py *)

(** A grid cell is a one-character string, ["#"] for a wall and [" "] for a
    path. *)
Abbreviation grid_t := (list (list string)).

Record MazeConfig : Type := {
  maze_id : Z;
  name : string;
  grid : grid_t;
  start_pos : pos;
  keys : dict string pos;
  doors : dict string pos;
  books : dict string pos;
  portals : gmap pos pos
}.

Definition MAZE_1 : MazeConfig := {|
  maze_id := 1;
  name := "Beginner Maze";
  grid := [
    ["#"; "#"; "#"; "#"; "#"; "#"; "#"; "#"; "#"; "#"; "#"];
    ["#"; " "; " "; " "; " "; " "; " "; " "; " "; " "; "#"];
    ["#"; " "; "#"; "#"; "#"; "#"; "#"; "#"; "#"; "#"; "#"];
    ["#"; " "; " "; " "; " "; " "; " "; " "; "#"; " "; "#"];
    ["#"; " "; "#"; " "; "#"; "#"; "#"; " "; "#"; " "; "#"];
    ["#"; " "; "#"; " "; " "; " "; "#"; " "; "#"; " "; "#"];
    ["#"; " "; "#"; " "; "#"; " "; "#"; "#"; "#"; " "; "#"];
    ["#"; " "; "#"; " "; "#"; " "; "#"; " "; " "; " "; "#"];
    ["#"; " "; "#"; " "; "#"; " "; "#"; " "; "#"; "#"; "#"];
    ["#"; " "; "#"; " "; "#"; " "; " "; " "; " "; " "; "#"];
    ["#"; "#"; "#"; "#"; "#"; "#"; "#"; "#"; "#"; "#"; "#"]
  ];
  start_pos := (1, 1);
  keys := [("blue", (1, 8)); ("orange", (5, 5)); ("green", (5, 3)); ("purple", (8, 3)); ("red", (1, 4))];
  doors := [("blue", (1, 7)); ("orange", (9, 9)); ("green", (9, 5)); ("purple", (3, 9)); ("red", (6, 5))];
  books := [("blue", (1, 7)); ("orange", (9, 9)); ("green", (9, 5)); ("purple", (3, 9)); ("red", (6, 5))];
  portals := list_to_map [((9, 6), (1, 2)); ((1, 2), (9, 6)); ((3, 7), (4, 7)); ((4, 7), (3, 7))]
|}.

Definition MAZE_2 : MazeConfig := {|
  maze_id := 2;
  name := "Intermediate Maze";
  grid := [
    ["#"; "#"; "#"; "#"; "#"; "#"; "#"; "#"; "#"; "#"; "#"; "#"; "#"; "#"; "#"];
    ["#"; " "; " "; " "; "#"; " "; " "; " "; "#"; " "; " "; " "; " "; " "; "#"];
    ["#"; " "; "#"; "#"; "#"; " "; "#"; " "; "#"; "#"; "#"; " "; "#"; "#"; "#"];
    ["#"; " "; " "; " "; " "; " "; "#"; " "; " "; " "; "#"; " "; " "; " "; "#"];
    ["#"; " "; "#"; "#"; "#"; "#"; "#"; "#"; "#"; "#"; "#"; " "; "#"; "#"; "#"];
    ["#"; " "; " "; " "; " "; " "; " "; " "; " "; " "; "#"; " "; " "; " "; "#"];
    ["#"; "#"; "#"; " "; "#"; " "; "#"; " "; "#"; "#"; "#"; " "; "#"; " "; "#"];
    ["#"; " "; "#"; " "; "#"; " "; "#"; " "; " "; " "; "#"; " "; "#"; " "; "#"];
    ["#"; " "; "#"; " "; "#"; "#"; "#"; "#"; "#"; "#"; "#"; " "; "#"; "#"; "#"];
    ["#"; " "; " "; " "; "#"; " "; " "; " "; " "; " "; "#"; " "; "#"; " "; "#"];
    ["#"; "#"; "#"; " "; "#"; " "; "#"; "#"; "#"; "#"; "#"; " "; "#"; " "; "#"];
    ["#"; " "; " "; " "; " "; " "; "#"; " "; "#"; " "; " "; " "; " "; " "; "#"];
    ["#"; "#"; "#"; " "; "#"; " "; "#"; " "; "#"; " "; "#"; " "; "#"; "#"; "#"];
    ["#"; " "; " "; " "; "#"; " "; " "; " "; " "; " "; "#"; " "; " "; " "; "#"];
    ["#"; "#"; "#"; "#"; "#"; "#"; "#"; "#"; "#"; "#"; "#"; "#"; "#"; "#"; "#"]
  ];
  start_pos := (1, 1);
  keys := [("blue", (7, 5)); ("orange", (5, 4)); ("green", (13, 11)); ("purple", (2, 1)); ("red", (9, 9))];
  doors := [("blue", (6, 3)); ("orange", (1, 11)); ("green", (11, 4)); ("purple", (13, 6)); ("red", (1, 12))];
  books := [("blue", (6, 3)); ("orange", (1, 11)); ("green", (11, 4)); ("purple", (13, 6)); ("red", (1, 12))];
  portals := list_to_map [((8, 3), (1, 9)); ((1, 9), (8, 3)); ((13, 13), (9, 1)); ((9, 1), (13, 13))]
|}.

Definition MAZE_3 : MazeConfig := {|
  maze_id := 3;
  name := "Advanced Maze";
  grid := [
    ["#"; "#"; "#"; "#"; "#"; "#"; "#"; "#"; "#"; "#"; "#"; "#"; "#"; "#"; "#"; "#"; "#"; "#"; "#"];
    ["#"; " "; " "; " "; " "; " "; " "; " "; " "; " "; "#"; " "; "#"; " "; " "; " "; "#"; " "; "#"];
    ["#"; "#"; "#"; " "; "#"; "#"; "#"; "#"; "#"; "#"; "#"; " "; "#"; " "; "#"; " "; "#"; " "; "#"];
    ["#"; " "; " "; " "; " "; " "; "#"; " "; " "; " "; " "; " "; " "; " "; "#"; " "; "#"; " "; "#"];
    ["#"; " "; "#"; " "; "#"; "#"; "#"; " "; "#"; "#"; "#"; "#"; "#"; "#"; "#"; "#"; "#"; " "; "#"];
    ["#"; " "; "#"; " "; " "; " "; " "; " "; " "; " "; " "; " "; " "; " "; " "; " "; " "; " "; "#"];
    ["#"; "#"; "#"; " "; "#"; " "; "#"; " "; "#"; "#"; "#"; "#"; "#"; " "; "#"; "#"; "#"; "#"; "#"];
    ["#"; " "; " "; " "; "#"; " "; "#"; " "; " "; " "; " "; " "; "#"; " "; " "; " "; " "; " "; "#"];
    ["#"; " "; "#"; " "; "#"; "#"; "#"; " "; "#"; " "; "#"; " "; "#"; "#"; "#"; "#"; "#"; "#"; "#"];
    ["#"; " "; "#"; " "; "#"; " "; " "; " "; "#"; " "; "#"; " "; " "; " "; " "; " "; " "; " "; "#"];
    ["#"; " "; "#"; " "; "#"; " "; "#"; " "; "#"; "#"; "#"; " "; "#"; "#"; "#"; " "; "#"; " "; "#"];
    ["#"; " "; "#"; " "; "#"; " "; "#"; " "; "#"; " "; "#"; " "; "#"; " "; "#"; " "; "#"; " "; "#"];
    ["#"; "#"; "#"; "#"; "#"; " "; "#"; " "; "#"; " "; "#"; "#"; "#"; " "; "#"; "#"; "#"; "#"; "#"];
    ["#"; " "; " "; " "; "#"; " "; "#"; " "; " "; " "; "#"; " "; " "; " "; " "; " "; " "; " "; "#"];
    ["#"; " "; "#"; " "; "#"; "#"; "#"; " "; "#"; " "; "#"; " "; "#"; " "; "#"; "#"; "#"; "#"; "#"];
    ["#"; " "; "#"; " "; " "; " "; " "; " "; "#"; " "; " "; " "; "#"; " "; " "; " "; " "; " "; "#"];
    ["#"; " "; "#"; " "; "#"; "#"; "#"; " "; "#"; " "; "#"; " "; "#"; "#"; "#"; " "; "#"; " "; "#"];
    ["#"; " "; "#"; " "; "#"; " "; " "; " "; "#"; " "; "#"; " "; " "; " "; "#"; " "; "#"; " "; "#"];
    ["#"; "#"; "#"; "#"; "#"; "#"; "#"; "#"; "#"; "#"; "#"; "#"; "#"; "#"; "#"; "#"; "#"; "#"; "#"]
  ];
  start_pos := (1, 1);
  keys := [("blue", (10, 17)); ("orange", (15, 17)); ("green", (13, 3)); ("purple", (1, 14)); ("red", (10, 15))];
  doors := [("blue", (17, 1)); ("orange", (5, 3)); ("green", (4, 1)); ("purple", (9, 6)); ("red", (17, 7))];
  books := [("blue", (17, 1)); ("orange", (5, 3)); ("green", (4, 1)); ("purple", (9, 6)); ("red", (17, 7))];
  portals := list_to_map [((1, 3), (8, 3)); ((8, 3), (1, 3)); ((5, 16), (15, 13)); ((15, 13), (5, 16))]
|}.

(** The module-level catalogue [MAZES]. *)
Definition MAZES : gmap Z MazeConfig :=
  <[3 := MAZE_3]> (<[2 := MAZE_2]> (<[1 := MAZE_1]> ∅)).

(** [get_maze]; the catalogue, a module global in the source, is passed
    explicitly so that the validator can be studied on every maze. *)
Definition get_maze (catalog : gmap Z MazeConfig) (maze_id : Z) : option MazeConfig :=
  catalog !! maze_id.

(** The dictionary returned by [validate_move]: either
    [{"valid": False, "error": ...}] or the five-field success record. *)
Inductive MoveResult : Type :=
| Invalid (error : string)
| Valid (new_position : pos) (collected_keys collected_books : list string) (won : bool).

Definition direction_map (direction : string) : option pos :=
  if decide (direction = "up") then Some (-1, 0)
  else if decide (direction = "down") then Some (1, 0)
  else if decide (direction = "left") then Some (0, -1)
  else if decide (direction = "right") then Some (0, 1)
  else None.

(** The wall-or-boundary test of the step loop, with Python's left-to-right
    short-circuit [or]. *)
Definition hits_wall (g : grid_t) (new_row new_col : Z) : py bool :=
  if bool_decide (new_row < 0) then Return true
  else if bool_decide (new_row >= len g) then Return true
  else if bool_decide (new_col < 0) then Return true
  else
    row0 ← getitem g 0;
    if bool_decide (new_col >= len row0) then Return true
    else
      row ← getitem g new_row;
      cell ← getitem row new_col;
      Return (bool_decide (cell = "#")).

(** The first door, in dictionary order, that stands on the cell and whose
    colour is not among the collected keys. *)
Fixpoint locked_door (doors : dict string pos) (collected_keys : list string)
    (cell : pos) : option string :=
  match doors with
  | [] => None
  | (color, door_pos) :: doors' =>
      if decide (cell = door_pos ∧ color ∉ collected_keys) then Some color
      else locked_door doors' collected_keys cell
  end.

Definition need_key (color : string) : string :=
  "Need " +:+ color +:+ " key to pass".

(** One iteration of the step loop on the cell just entered: [Some error]
    when the iteration returns early. *)
Definition check_cell (maze : MazeConfig) (collected_keys : list string)
    (new_row new_col : Z) : py (option string) :=
  b ← hits_wall (grid maze) new_row new_col;
  if b : bool then Return (Some "Hit wall or boundary")
  else match locked_door (doors maze) collected_keys (new_row, new_col) with
       | Some color => Return (Some (need_key color))
       | None => Return None
       end.

(** [for step in range(steps)]: [n] iterations from [(new_row, new_col)];
    the left injection is an early return with its error message. *)
Fixpoint step_loop (maze : MazeConfig) (collected_keys : list string)
    (dr dc : Z) (n : nat) (new_row new_col : Z) : py (string + pos) :=
  match n with
  | O => Return (inr (new_row, new_col))
  | S n' =>
      let new_row := new_row + dr in
      let new_col := new_col + dc in
      r ← check_cell maze collected_keys new_row new_col;
      match r with
      | Some error => Return (inl error)
      | None => step_loop maze collected_keys dr dc n' new_row new_col
      end
  end.

Definition teleport (portals : gmap pos pos) (final_pos : pos) : pos :=
  match portals !! final_pos with
  | Some dest => dest
  | None => final_pos
  end.

Definition collect_keys (keys : dict string pos) (final_pos : pos)
    (collected_keys : list string) : list string :=
  foldl (λ new_keys kv,
           if decide (final_pos = kv.2 ∧ kv.1 ∉ new_keys)
           then new_keys ++ [kv.1] else new_keys)
        collected_keys keys.

Definition collect_books (books : dict string pos) (final_pos : pos)
    (new_keys collected_books : list string) : list string :=
  foldl (λ new_books kv,
           if decide (final_pos = kv.2 ∧ kv.1 ∈ new_keys ∧ kv.1 ∉ new_books)
           then new_books ++ [kv.1] else new_books)
        collected_books books.

Definition validate_move (catalog : gmap Z MazeConfig) (maze_id : Z)
    (current_pos : pos) (direction : string) (steps : Z)
    (collected_keys : list string) (collected_books : option (list string))
    : py MoveResult :=
  match get_maze catalog maze_id with
  | None => Return (Invalid "Invalid maze ID")
  | Some maze =>
      let collected_books := default [] collected_books in
      let '(row, col) := current_pos in
      match direction_map direction with
      | None => Return (Invalid "Invalid direction")
      | Some (dr, dc) =>
          r ← step_loop maze collected_keys dr dc (Z.to_nat steps) row col;
          match r with
          | inl error => Return (Invalid error)
          | inr final_pos =>
              let final_pos := teleport (portals maze) final_pos in
              let new_keys := collect_keys (keys maze) final_pos collected_keys in
              let new_books :=
                collect_books (books maze) final_pos new_keys collected_books in
              let won := bool_decide (len new_books = 5) in
              Return (Valid final_pos new_keys new_books won)
          end
      end
  end.

(** ** main.py: the move endpoint *)

Record MoveSubmission : Type := {
  direction : string;
  steps : Z;
  move_maze_id : Z
}.

(** An entry of the in-memory [game_states] dictionary. *)
Record GameState : Type := {
  position : pos;
  gs_collected_keys : list string;
  gs_collected_books : list string
}.

(** A row handed to [save_attempt]. *)
Record Attempt : Type := {
  att_user_id : Z;
  att_maze_id : Z;
  att_moves : string * Z;
  att_success : bool;
  att_collected_books : list string
}.

(** What the endpoint reads and writes: the [game_states] global and the
    attempts table behind [save_attempt]. *)
Record Server : Type := {
  game_states : gmap string GameState;
  attempts : list Attempt
}.

(** [f"{user_id}_{move.maze_id}"] *)
Definition game_key (user_id maze_id : Z) : string :=
  pretty user_id +:+ "_" +:+ pretty maze_id.

(** The block of [submit_move] that creates the session entry when the key
    is not yet in [game_states]. *)
Definition init_game_state (catalog : gmap Z MazeConfig) (srv : Server)
    (key : string) (maze_id : Z) : py Server :=
  match game_states srv !! key with
  | Some _ => Return srv
  | None =>
      match catalog !! maze_id with
      | None => Raise (HTTPException 404 "Maze not found")
      | Some maze =>
          Return {| game_states :=
                      <[key := {| position := start_pos maze;
                                  gs_collected_keys := [];
                                  gs_collected_books := [] |}]>
                        (game_states srv);
                    attempts := attempts srv |}
      end
  end.

(** [submit_move] from the user row on: [user] is the id of the row that
    token check and user lookup produce, if any, and the insert into the
    attempts table goes through. The handler from its first line, with a
    token that may be refused and database calls that may raise, is
    [post_moves] below. The server state is returned next to the response
    because it is kept when the handler raises. *)
Definition submit_move (catalog : gmap Z MazeConfig) (srv : Server)
    (user : option Z) (move : MoveSubmission) : Server * py MoveResult :=
  match user with
  | None => (srv, Raise (HTTPException 401 "User not found"))
  | Some user_id =>
      let key := game_key user_id (move_maze_id move) in
      match init_game_state catalog srv key (move_maze_id move) with
      | Raise e => (srv, Raise e)
      | Return srv =>
          match game_states srv !! key with
          | None => (srv, Raise KeyError)
          | Some current_state =>
              match validate_move catalog (move_maze_id move)
                      (position current_state) (direction move) (steps move)
                      (gs_collected_keys current_state)
                      (Some (gs_collected_books current_state)) with
              | Raise e => (srv, Raise e)
              | Return (Invalid error) => (srv, Return (Invalid error))
              | Return (Valid new_position new_keys new_books won) =>
                  let states :=
                    <[key := {| position := new_position;
                                gs_collected_keys := new_keys;
                                gs_collected_books := new_books |}]>
                      (game_states srv) in
                  let log :=
                    attempts srv ++
                      [{| att_user_id := user_id;
                          att_maze_id := move_maze_id move;
                          att_moves := (direction move, steps move);
                          att_success := won;
                          att_collected_books := new_books |}] in
                  ({| game_states := if won then delete key states else states;
                      attempts := log |},
                   Return (Valid new_position new_keys new_books won))
              end
          end
      end
  end.

(** A client sending its requests one after the other. *)
Fixpoint play (catalog : gmap Z MazeConfig) (srv : Server) (user : option Z)
    (moves : list MoveSubmission) : Server * list (py MoveResult) :=
  match moves with
  | [] => (srv, [])
  | move :: moves' =>
      let '(srv1, response) := submit_move catalog srv user move in
      let '(srv2, responses) := play catalog srv1 user moves' in
      (srv2, response :: responses)
  end.

(** ** maze_generator.py *)

(** The two sources of randomness are passed to the generator: [randint k a b]
    is the answer of the [k]-th call of [random.randint(a, b)], and [shuffle]
    is the rearrangement made by [random.shuffle]. *)
Definition randint_t : Type := nat → Z → Z → Z.
Definition shuffle_t : Type := list pos → list pos.

(** A frontier entry [(wall_row, wall_col, neighbor_row, neighbor_col)]. *)
Abbreviation wall_t := (Z * Z * Z * Z)%type.

(** The local state of [generate_maze]. *)
Record carving : Type := {
  c_grid : grid_t;
  c_visited : gset pos;
  c_walls : list wall_t
}.

(** Directions: up, right, down, left. *)
Definition directions : list pos := [(-2, 0); (0, 2); (2, 0); (0, -2)].

(** [l.pop(i)] *)
Definition pop {A} (l : list A) (i : Z) : py (A * list A) :=
  n ← py_index l i;
  match l !! n with
  | Some x => Return (x, delete n l)
  | None => Raise IndexError
  end.

(** [grid[row][col] = x]; the rows are distinct list objects. *)
Definition grid_set (g : grid_t) (row col : Z) (x : string) : py grid_t :=
  r ← getitem g row;
  r' ← setitem r col x;
  setitem g row r'.

Definition is_valid_cell (width height row col : Z) : bool :=
  bool_decide (0 <= row < height ∧ 0 <= col < width).

(** The closure [add_walls_to_list]: it reads [visited] and appends to
    [walls]. Python's [//] rounds down, as [Z.div] does. *)
Definition add_walls_to_list (width height : Z) (visited : gset pos)
    (walls : list wall_t) (row col : Z) : list wall_t :=
  foldl (λ walls d,
           let wall_row := row + d.1 `div` 2 in
           let wall_col := col + d.2 `div` 2 in
           let neighbor_row := row + d.1 in
           let neighbor_col := col + d.2 in
           if bool_decide ((0 <= neighbor_row < height ∧ 0 <= neighbor_col < width) ∧
                           (0 <= wall_row < height ∧ 0 <= wall_col < width))
           then if bool_decide ((neighbor_row, neighbor_col) ∉ visited)
                then walls ++ [(wall_row, wall_col, neighbor_row, neighbor_col)]
                else walls
           else walls)
        walls directions.

(** One iteration of the main loop, entered with a non-empty frontier;
    [k] random draws were made before it. *)
Definition carve_step (randint : randint_t) (width height : Z) (k : nat)
    (st : carving) : py carving :=
  let wall_index := randint k 0 (len (c_walls st) - 1) in
  popped ← pop (c_walls st) wall_index;
  let '((wall_row, wall_col, cell_row, cell_col), walls) := popped in
  if bool_decide ((cell_row, cell_col) ∉ c_visited st)
     && is_valid_cell width height cell_row cell_col
  then
    g ← grid_set (c_grid st) wall_row wall_col " ";
    g ← grid_set g cell_row cell_col " ";
    let visited := {[ (cell_row, cell_col) ]} ∪ c_visited st in
    Return {| c_grid := g;
              c_visited := visited;
              c_walls := add_walls_to_list width height visited walls cell_row cell_col |}
  else
    Return {| c_grid := c_grid st; c_visited := c_visited st; c_walls := walls |}.

(** [while walls: ...], cut after [fuel] iterations: [None] when the
    frontier is still not empty by then. *)
Fixpoint carve (randint : randint_t) (width height : Z) (fuel k : nat)
    (st : carving) : py (option carving) :=
  match c_walls st with
  | [] => Return (Some st)
  | _ :: _ =>
      match fuel with
      | O => Return None
      | S fuel' =>
          st' ← carve_step randint width height k st;
          carve randint width height fuel' (S k) st'
      end
  end.

(** The state in which the main loop is entered. *)
Definition carve_init (width height : Z) (start_pos : pos) : py carving :=
  let g := replicate (Z.to_nat height) (replicate (Z.to_nat width) "#") in
  let '(start_row, start_col) := start_pos in
  g ← grid_set g start_row start_col " ";
  let visited : gset pos := {[ (start_row, start_col) ]} in
  Return {| c_grid := g;
            c_visited := visited;
            c_walls := add_walls_to_list width height visited [] start_row start_col |}.

(** The state in which the main loop is left. *)
Definition carve_run (randint : randint_t) (fuel : nat) (width height : Z)
    (start_pos : pos) : py (option carving) :=
  st ← carve_init width height start_pos;
  carve randint width height fuel 0 st.

Definition generate_maze (randint : randint_t) (fuel : nat) (width height : Z)
    (start_pos : pos) : py (option grid_t) :=
  match carve_run randint fuel width height start_pos with
  | Return (Some st) => Return (Some (c_grid st))
  | Return None => Return None
  | Raise e => Raise e
  end.

(** [empty_cells.pop()] *)
Definition pop_last {A} (l : list A) : option (A * list A) :=
  match reverse l with
  | [] => None
  | x :: rest => Some (x, reverse rest)
  end.

(** The scan of one row, then of all rows, for the cells that hold [" "]
    and are not the start. *)
Fixpoint scan_row (g : grid_t) (start_pos : pos) (row : Z) (cols : list Z)
    (empty_cells : list pos) : py (list pos) :=
  match cols with
  | [] => Return empty_cells
  | col :: cols' =>
      r ← getitem g row;
      cell ← getitem r col;
      scan_row g start_pos row cols'
        (if bool_decide (cell = " " ∧ (row, col) ≠ start_pos)
         then empty_cells ++ [(row, col)] else empty_cells)
  end.

Fixpoint scan_rows (g : grid_t) (start_pos : pos) (rows cols : list Z)
    (empty_cells : list pos) : py (list pos) :=
  match rows with
  | [] => Return empty_cells
  | row :: rows' =>
      empty_cells ← scan_row g start_pos row cols empty_cells;
      scan_rows g start_pos rows' cols empty_cells
  end.

Definition colors : list string := ["blue"; "orange"; "green"; "purple"; "red"].

(** The locals [empty_cells], [keys], [doors], [books] of the placement. *)
Record placing : Type := {
  p_empty_cells : list pos;
  p_keys : dict string pos;
  p_doors : dict string pos;
  p_books : dict string pos
}.

(** The body of the key-and-door loop for one colour. *)
Definition place_color (pl : placing) (color : string) : placing :=
  let pl :=
    match pop_last (p_empty_cells pl) with
    | Some (key_pos, rest) =>
        {| p_empty_cells := rest;
           p_keys := dict_set (p_keys pl) color key_pos;
           p_doors := p_doors pl;
           p_books := p_books pl |}
    | None => pl
    end in
  match pop_last (p_empty_cells pl) with
  | Some (door_pos, rest) =>
      {| p_empty_cells := rest;
         p_keys := p_keys pl;
         p_doors := dict_set (p_doors pl) color door_pos;
         p_books := dict_set (p_books pl) color door_pos |}
  | None => pl
  end.

(** [range(0, stop, 2)] *)
Definition range_by_2 (stop : Z) : list Z :=
  (λ j, 2 * j) <$> seqZ 0 ((stop + 1) `div` 2).

(** The body of the portal loop for one index. *)
Definition place_portal (empty_cells : list pos) (portals : py (gmap pos pos))
    (i : Z) : py (gmap pos pos) :=
  portals ← portals;
  if bool_decide (i + 1 < len empty_cells) then
    pos1 ← getitem empty_cells i;
    pos2 ← getitem empty_cells (i + 1);
    Return (<[pos2 := pos1]> (<[pos1 := pos2]> portals))
  else Return portals.

Definition place_special_items (shuffle : shuffle_t) (g : grid_t)
    (start_pos : pos) (num_keys num_doors num_portals : Z)
    : py (dict string pos * dict string pos * dict string pos * gmap pos pos) :=
  let height := len g in
  row0 ← getitem g 0;
  let width := len row0 in
  empty_cells ← scan_rows g start_pos (seqZ 0 height) (seqZ 0 width) [];
  let empty_cells := shuffle empty_cells in
  let count := Z.min (Z.min num_keys (len colors)) (len empty_cells `div` 2) in
  let pl :=
    foldl place_color
      {| p_empty_cells := empty_cells; p_keys := []; p_doors := []; p_books := [] |}
      (take (Z.to_nat count) colors) in
  let empty_cells := p_empty_cells pl in
  portals ← foldl (place_portal empty_cells) (Return ∅)
              (range_by_2 (Z.min (num_portals * 2) (len empty_cells)));
  Return (p_keys pl, p_doors pl, p_books pl, portals).

(** "Ensure odd dimensions": [if n % 2 == 0: n += 1]. *)
Definition ensure_odd (n : Z) : Z :=
  if bool_decide (n `mod` 2 = 0) then n + 1 else n.

(** [generate_complete_maze]; the returned dictionary has the fields of a
    [MazeConfig]. *)
Definition generate_complete_maze (randint : randint_t) (shuffle : shuffle_t)
    (fuel : nat) (width height : Z) (start_pos : pos) (maze_id : Z)
    (name : string) : py (option MazeConfig) :=
  let width := ensure_odd width in
  let height := ensure_odd height in
  match generate_maze randint fuel width height start_pos with
  | Raise e => Raise e
  | Return None => Return None
  | Return (Some g) =>
      items ← place_special_items shuffle g start_pos 5 5 2;
      let '(keys, doors, books, portals) := items in
      Return (Some {| maze_id := maze_id; name := name; grid := g;
                      start_pos := start_pos; keys := keys; doors := doors;
                      books := books; portals := portals |})
  end.

(** ** Vocabulary for the statements about moves *)

(** The cell [k] steps away from [current_pos] along the vector [v]. *)
Definition cell_after (current_pos v : pos) (k : Z) : pos :=
  (current_pos.1 + k * v.1, current_pos.2 + k * v.2).

(** [len(grid[0])], and 0 for the empty grid, where the row test already
    rejects every cell. *)
Definition grid_width (g : grid_t) : Z :=
  match g with
  | [] => 0
  | row0 :: _ => len row0
  end.

Definition in_bounds (g : grid_t) (p : pos) : Prop :=
  (0 <= p.1 < len g) ∧ (0 <= p.2 < grid_width g).

Definition cell_at (g : grid_t) (p : pos) : option string :=
  if bool_decide (0 <= p.1 ∧ 0 <= p.2)
  then g !! Z.to_nat p.1 ≫= (.!! Z.to_nat p.2)
  else None.

Definition rectangular (g : grid_t) : Prop :=
  Forall (λ row, len row = grid_width g) g.

(** Outside the grid, or on a wall. *)
Definition blocked (g : grid_t) (p : pos) : Prop :=
  ¬ in_bounds g p ∨ cell_at g p = Some "#".

#[global] Instance in_bounds_dec g p : Decision (in_bounds g p).
Proof. unfold in_bounds. apply _. Defined.

#[global] Instance blocked_dec g p : Decision (blocked g p).
Proof. unfold blocked. apply _. Defined.

(** Some door on the cell has a colour missing from the keys. *)
Definition door_locked (maze : MazeConfig) (collected_keys : list string)
    (p : pos) : Prop :=
  Exists (λ kv, p = kv.2 ∧ kv.1 ∉ collected_keys) (doors maze).

#[global] Instance door_locked_dec maze ks p : Decision (door_locked maze ks p).
Proof. unfold door_locked. apply _. Defined.

(** The step loop lets the cell through. *)
Definition passes (maze : MazeConfig) (collected_keys : list string)
    (p : pos) : Prop :=
  ¬ blocked (grid maze) p ∧ ¬ door_locked maze collected_keys p.

#[global] Instance passes_dec maze ks p : Decision (passes maze ks p).
Proof. unfold passes. apply _. Defined.

#[global] Instance rectangular_dec g : Decision (rectangular g).
Proof. unfold rectangular. apply _. Defined.


(** The record returned when the step loop stops on [landing]. *)
Definition arrival (maze : MazeConfig) (landing : pos)
    (collected_keys collected_books : list string) : MoveResult :=
  let final_pos := teleport (portals maze) landing in
  let new_keys := collect_keys (keys maze) final_pos collected_keys in
  let new_books := collect_books (books maze) final_pos new_keys collected_books in
  Valid final_pos new_keys new_books (bool_decide (len new_books = 5)).


(** ** Fixtures *)

(** [game_states = {}] at start-up, and an empty attempts table. *)
Definition initial_server : Server :=
  {| game_states := ∅; attempts := [] |}.

(** A corridor whose red key and red book share the cell (1,2). *)
Definition KEY_ON_BOOK : MazeConfig := {|
  maze_id := 7;
  name := "Key on book";
  grid := [
    ["#"; "#"; "#"; "#"; "#"; "#"];
    ["#"; " "; " "; " "; " "; "#"];
    ["#"; "#"; "#"; "#"; "#"; "#"]
  ];
  start_pos := (1, 1);
  keys := [("red", (1, 2))];
  doors := [("red", (1, 4))];
  books := [("red", (1, 2))];
  portals := ∅
|}.

(** A corridor whose portal at (1,2) leads onto the blue door at (1,4). *)
Definition PORTAL_TO_DOOR : MazeConfig := {|
  maze_id := 8;
  name := "Portal to door";
  grid := [
    ["#"; "#"; "#"; "#"; "#"; "#"];
    ["#"; " "; " "; " "; " "; "#"];
    ["#"; "#"; "#"; "#"; "#"; "#"]
  ];
  start_pos := (1, 1);
  keys := [("blue", (1, 3))];
  doors := [("blue", (1, 4))];
  books := [("blue", (1, 4))];
  portals := list_to_map [((1, 2), (1, 4)); ((1, 4), (1, 2))]
|}.

(** A corridor whose portal entrance (1,2) also holds the red key. *)
Definition KEY_ON_PORTAL : MazeConfig := {|
  maze_id := 10;
  name := "Key on portal";
  grid := [
    ["#"; "#"; "#"; "#"; "#"; "#"];
    ["#"; " "; " "; " "; " "; "#"];
    ["#"; "#"; "#"; "#"; "#"; "#"]
  ];
  start_pos := (1, 1);
  keys := [("red", (1, 2))];
  doors := [];
  books := [];
  portals := list_to_map [((1, 2), (1, 4)); ((1, 4), (1, 2))]
|}.

(** A grid whose second row is shorter than the first. *)
Definition RAGGED : MazeConfig := {|
  maze_id := 9;
  name := "Ragged";
  grid := [["#"; " "; " "]; ["#"]];
  start_pos := (0, 1);
  keys := [];
  doors := [];
  books := [];
  portals := ∅
|}.

Definition FIXTURES : gmap Z MazeConfig :=
  <[9 := RAGGED]> (<[8 := PORTAL_TO_DOOR]> (<[7 := KEY_ON_BOOK]> ∅)).

(** Two extreme random sources: always the first, always the last entry of
    the frontier. *)
Definition pick_first : randint_t := λ _ a _, a.
Definition pick_last : randint_t := λ _ _ b, b.

(** The three requests of the beginner-maze walkthrough. *)
Definition walkthrough : list MoveSubmission :=
  [ {| direction := "right"; steps := 3; move_maze_id := 1 |};
    {| direction := "down"; steps := 4; move_maze_id := 1 |};
    {| direction := "left"; steps := 1; move_maze_id := 1 |} ].

(** The response is a success record. *)
Definition accepted (response : py MoveResult) : Prop :=
  match response with
  | Return (Valid _ _ _ _) => True
  | _ => False
  end.

(** ** Vocabulary for the statements about generated mazes *)

(** A carved cell. *)
Definition open_cell (g : grid_t) (p : pos) : Prop :=
  cell_at g p = Some " ".

(** Two cells one unit move apart, as the validator steps. *)
Definition adjacent (p q : pos) : Prop :=
  Z.abs (p.1 - q.1) + Z.abs (p.2 - q.2) = 1.

(** Consecutive elements are related. *)
Fixpoint chain {A} (R : A → A → Prop) (l : list A) : Prop :=
  match l with
  | x :: l' => match l' with
               | y :: _ => R x y ∧ chain R l'
               | [] => True
               end
  | [] => True
  end.

(** [l] leads from [a] to [b] through vertices of [V], along [R], visiting
    no vertex twice. *)
Definition simple_path {A} (V : A → Prop) (R : A → A → Prop) (a b : A)
    (l : list A) : Prop :=
  head l = Some a ∧ last l = Some b ∧ NoDup l ∧ Forall V l ∧ chain R l.

(** Any two vertices are joined by exactly one simple path: the graph is
    connected and has no cycle. *)
Definition tree {A} (V : A → Prop) (R : A → A → Prop) : Prop :=
  ∀ a b, V a → V b →
    ∃ l, simple_path V R a b l ∧ ∀ l', simple_path V R a b l' → l' = l.

(** The vertices [V] and one more. *)
Definition add_vertex {A} (V : A → Prop) (v : A) : A → Prop :=
  λ x, x = v ∨ V x.

Definition maze_path (g : grid_t) (a b : pos) (l : list pos) : Prop :=
  simple_path (open_cell g) adjacent a b l.

(** The cells an even number of rows and of columns away from the start. *)
Definition lattice_cell (start_pos p : pos) : Prop :=
  ∃ i j, p = (start_pos.1 + 2 * i, start_pos.2 + 2 * j).

(** A grid of [height] rows of [width] cells. *)
Definition grid_shape (g : grid_t) (width height : Z) : Prop :=
  len g = height ∧ Forall (λ row, len row = width) g.

#[global] Instance grid_shape_dec g w h : Decision (grid_shape g w h).
Proof. unfold grid_shape. apply _. Defined.

Definition inside (width height : Z) (p : pos) : Prop :=
  (0 <= p.1 < height) ∧ (0 <= p.2 < width).

(** What [random.randint] promises. *)
Definition randint_ok (randint : randint_t) : Prop :=
  ∀ k a b, a <= b → a <= randint k a b <= b.

(** What [random.shuffle] promises. *)
Definition shuffle_ok (shuffle : shuffle_t) : Prop :=
  ∀ l, shuffle l ≡ₚ l.

(** An item sits on a path cell that is not the start. *)
Definition item_cell (g : grid_t) (start_pos p : pos) : Prop :=
  in_bounds g p ∧ cell_at g p = Some " " ∧ p ≠ start_pos.

#[global] Instance item_cell_dec g s p : Decision (item_cell g s p).
Proof. unfold item_cell. apply _. Defined.

(** The invariant of a maze definition. *)
Definition items_ok (g : grid_t) (start_pos : pos)
    (keys doors books : dict string pos) (portals : gmap pos pos) : Prop :=
  Forall (λ kv, item_cell g start_pos kv.2) keys ∧
  Forall (λ kv, item_cell g start_pos kv.2) doors ∧
  Forall (λ kv, item_cell g start_pos kv.2) books ∧
  map_Forall (λ a b, item_cell g start_pos a ∧ item_cell g start_pos b ∧
                     portals !! b = Some a) portals ∧
  Forall (λ kv, dict_get books kv.1 = Some kv.2) doors.

#[global] Instance items_ok_dec g s ks ds bs ps : Decision (items_ok g s ks ds bs ps).
Proof. unfold items_ok. apply _. Defined.

Definition maze_ok (maze : MazeConfig) : Prop :=
  items_ok (grid maze) (start_pos maze) (keys maze) (doors maze) (books maze)
    (portals maze).

(** All the cells of a [height] by [width] grid. *)
Definition all_cells (width height : Z) : list pos :=
  list_prod (seqZ 0 height) (seqZ 0 width).

(** What the main loop still has to do: the frontier entries, and four
    more for each cell not yet visited. *)
Definition potential (width height : Z) (st : carving) : nat :=
  (length (c_walls st)
   + 4 * length (filter (λ p, p ∉ c_visited st) (all_cells width height)))%nat.

(** The invariant of the main loop of [generate_maze]. *)
Record carve_inv (width height : Z) (start_pos : pos) (st : carving) : Prop := {
  inv_shape : grid_shape (c_grid st) width height;
  inv_cells : ∀ p x, cell_at (c_grid st) p = Some x → x = "#" ∨ x = " ";
  inv_start : start_pos ∈ c_visited st;
  inv_visited : ∀ p, p ∈ c_visited st →
    inside width height p ∧ open_cell (c_grid st) p ∧
    (p.1 - start_pos.1) `mod` 2 = 0 ∧ (p.2 - start_pos.2) `mod` 2 = 0;
  inv_open : ∀ p, open_cell (c_grid st) p →
    p ∈ c_visited st
    ∨ ((p.1 - 1, p.2) ∈ c_visited st ∧ (p.1 + 1, p.2) ∈ c_visited st)
    ∨ ((p.1, p.2 - 1) ∈ c_visited st ∧ (p.1, p.2 + 1) ∈ c_visited st);
  inv_walls : ∀ wr wc nr nc, (wr, wc, nr, nc) ∈ c_walls st →
    inside width height (nr, nc) ∧
    ∃ p, p ∈ c_visited st ∧ adjacent p (wr, wc) ∧
         nr = 2 * wr - p.1 ∧ nc = 2 * wc - p.2;
  inv_frontier : ∀ p q, p ∈ c_visited st → adjacent p q →
    inside width height (2 * q.1 - p.1, 2 * q.2 - p.2) →
    (2 * q.1 - p.1, 2 * q.2 - p.2) ∈ c_visited st
    ∨ (q.1, q.2, 2 * q.1 - p.1, 2 * q.2 - p.2) ∈ c_walls st;
  inv_tree : tree (open_cell (c_grid st)) adjacent
}.

(** ** main.py: the maze listing *)

(** [f"{k[0]},{k[1]}"], the transport key of a portal entrance. *)
Definition portal_key (k : pos) : string :=
  pretty k.1 +:+ "," +:+ pretty k.2.

(** The dictionary comprehension over [maze.portals.items()]: entries are
    written one after the other, a later one replacing an earlier one with the
    same key. *)
Definition portals_by_string (portals : gmap pos pos) : gmap string pos :=
  foldl (λ acc kv, <[portal_key kv.1 := kv.2]> acc) ∅ (map_to_list portals).

(** One element of the list returned by the [/mazes] endpoint. *)
Record MazeListing : Type := {
  l_maze_id : Z;
  l_name : string;
  l_grid : grid_t;
  l_start_pos : pos;
  l_keys : dict string pos;
  l_doors : dict string pos;
  l_books : dict string pos;
  l_portals : gmap string pos
}.

Definition maze_listing (maze : MazeConfig) : MazeListing :=
  {| l_maze_id := maze_id maze;
     l_name := name maze;
     l_grid := grid maze;
     l_start_pos := start_pos maze;
     l_keys := keys maze;
     l_doors := doors maze;
     l_books := books maze;
     l_portals := portals_by_string (portals maze) |}.

(** [MAZES.values()]: a Python dictionary is gone through in insertion
    order, that is in the order in which [mazes.py] writes the entries. *)
Definition MAZES_values : list MazeConfig := [MAZE_1; MAZE_2; MAZE_3].

(** [get_mazes] of main.py: one listing per maze, in the order of
    [MAZES.values()]. *)
Definition get_mazes (mazes : list MazeConfig) : list MazeListing :=
  maze_listing <$> mazes.

(** ** main.py: the move endpoint from its first line *)

(** What the endpoint calls and this repository does not define:
    [jwt.decode] of python-jose and the two Supabase queries behind
    [get_user_by_email] and [save_attempt]. Each is given by its outcome.
    [jwt_decode token] is [None] when [jwt.decode] raises [JWTError], and
    otherwise the ["sub"] entry of the payload, if it has one.
    [users_by_email email] is the id of the first row found, if any, and
    [insert_attempt row] is [None] when the insert goes through; a query
    that raises is [inl what], resp. [Some what]. *)
Record Services : Type := {
  jwt_decode : string → option (option string);
  users_by_email : string → string + option Z;
  insert_attempt : Attempt → option string
}.

(** An exception that leaves the endpoint: one raised by the code modelled
    here, or one that a database call lets through. *)
Inductive failure : Type :=
| Raised (e : exn)
| DatabaseError (what : string).

(** [credentials_exception] of auth.py. *)
Definition credentials_exception : exn :=
  HTTPException 401 "Could not validate credentials".

(** [verify_token] of auth.py: the e-mail address in the token, or
    [credentials_exception] when the token does not decode or carries no
    subject. *)
Definition verify_token (sv : Services) (token : string) : py string :=
  match jwt_decode sv token with
  | None => Raise credentials_exception
  | Some None => Raise credentials_exception
  | Some (Some email) => Return email
  end.

(** [submit_move] of main.py from its first line, [credentials] being the
    bearer token that the framework hands over: token check, user lookup,
    session, validation, and the write to the attempts table, which comes
    after the session is updated and before it is cleared on a win. From the
    user row on, and when the insert goes through, this is [submit_move]
    above. *)
Definition post_moves (sv : Services) (catalog : gmap Z MazeConfig) (srv : Server)
    (credentials : string) (move : MoveSubmission)
    : Server * (failure + MoveResult) :=
  match verify_token sv credentials with
  | Raise e => (srv, inl (Raised e))
  | Return email =>
      match users_by_email sv email with
      | inl what => (srv, inl (DatabaseError what))
      | inr None => (srv, inl (Raised (HTTPException 401 "User not found")))
      | inr (Some user_id) =>
          let key := game_key user_id (move_maze_id move) in
          match init_game_state catalog srv key (move_maze_id move) with
          | Raise e => (srv, inl (Raised e))
          | Return srv =>
              match game_states srv !! key with
              | None => (srv, inl (Raised KeyError))
              | Some current_state =>
                  match validate_move catalog (move_maze_id move)
                          (position current_state) (direction move) (steps move)
                          (gs_collected_keys current_state)
                          (Some (gs_collected_books current_state)) with
                  | Raise e => (srv, inl (Raised e))
                  | Return (Invalid error) => (srv, inr (Invalid error))
                  | Return (Valid new_position new_keys new_books won) =>
                      let states :=
                        <[key := {| position := new_position;
                                    gs_collected_keys := new_keys;
                                    gs_collected_books := new_books |}]>
                          (game_states srv) in
                      let row :=
                        {| att_user_id := user_id;
                           att_maze_id := move_maze_id move;
                           att_moves := (direction move, steps move);
                           att_success := won;
                           att_collected_books := new_books |} in
                      match insert_attempt sv row with
                      | Some what =>
                          ({| game_states := states; attempts := attempts srv |},
                           inl (DatabaseError what))
                      | None =>
                          ({| game_states := if won then delete key states else states;
                              attempts := attempts srv ++ [row] |},
                           inr (Valid new_position new_keys new_books won))
                      end
                  end
              end
          end
      end
  end.

(** The response of [submit_move] as an outcome of the endpoint. *)
Definition outcome (response : py MoveResult) : failure + MoveResult :=
  match response with
  | Return result => inr result
  | Raise e => inl (Raised e)
  end.

(** Services that accept every token for the user [user_id], and whose
    insert into the attempts table raises. *)
Definition services_insert_down (user_id : Z) : Services :=
  {| jwt_decode := λ token, Some (Some token);
     users_by_email := λ _, inr (Some user_id);
     insert_attempt := λ _, Some "attempts" |}.

(** ** Vocabulary for the further statements *)

(** The character occurs in the string. *)
Fixpoint has_char (c : ascii) (s : string) : bool :=
  match s with
  | EmptyString => false
  | String c' s' => if decide (c' = c) then true else has_char c s'
  end.

(** The response reports a win. *)
Definition is_win (response : py MoveResult) : Prop :=
  match response with
  | Return (Valid _ _ _ true) => True
  | _ => False
  end.

(** The four cells next to a cell. *)
Definition neighbours (p : pos) : list pos :=
  [(p.1 - 1, p.2); (p.1, p.2 + 1); (p.1 + 1, p.2); (p.1, p.2 - 1)].

(** The cells [Z] can only be entered by stepping on a door of a colour of
    [C]; no portal leads into them from outside, and every key of a colour of
    [C] lies among them. *)
Definition sealed (maze : MazeConfig) (C : list string) (Z : list pos) : Prop :=
  Forall (λ z, Forall (λ q, q ∈ Z ∨ blocked (grid maze) q ∨
                            Exists (λ kv, kv.1 ∈ C ∧ kv.2 = z) (doors maze))
                      (neighbours z)) Z ∧
  map_Forall (λ a b, a ∉ Z → (b ∉ Z) ∧ ¬ blocked (grid maze) b) (portals maze) ∧
  Forall (λ kv, kv.1 ∈ C → kv.2 ∈ Z) (keys maze).

#[global] Instance sealed_dec maze C Z : Decision (sealed maze C Z).
Proof. unfold sealed. apply _. Defined.

(** A player state outside [Z], on a cell that is not a wall, holding no key
    of a colour of [C], and whose books are distinct colours of the maze
    outside [C]. *)
Definition safe (maze : MazeConfig) (C : list string) (Z : list pos)
    (p : pos) (ks bs : list string) : Prop :=
  (p ∉ Z) ∧ ¬ blocked (grid maze) p ∧
  (∀ c, c ∈ C → c ∉ ks) ∧
  NoDup bs ∧
  (∀ c, c ∈ bs → c ∈ (books maze).*1 ∧ c ∉ C).

(** The book colours of the maze that are not in [C], each once. *)
Definition free_books (maze : MazeConfig) (C : list string) : list string :=
  filter (λ c, c ∉ C) (remove_dups (books maze).*1).

(** The open cells of a grid that are not listed in [R]. *)
Definition cells_outside (g : grid_t) (R : list pos) : list pos :=
  filter (λ p, ¬ blocked g p ∧ p ∉ R)
         (list_prod (seqZ 0 (len g)) (seqZ 0 (grid_width g))).

(** Every session holds each key and each book once, and no book without
    its key. *)
Definition tidy (st : GameState) : Prop :=
  NoDup (gs_collected_keys st) ∧ NoDup (gs_collected_books st) ∧
  ∀ c, c ∈ gs_collected_books st → c ∈ gs_collected_keys st.

Definition sessions_tidy (srv : Server) : Prop :=
  map_Forall (λ _ st, tidy st) (game_states srv).

(** Requests of several users served one after the other. *)
Fixpoint serve (catalog : gmap Z MazeConfig) (srv : Server)
    (requests : list (option Z * MoveSubmission)) : Server * list (py MoveResult) :=
  match requests with
  | [] => (srv, [])
  | (user, move) :: requests' =>
      let '(srv1, response) := submit_move catalog srv user move in
      let '(srv2, responses) := serve catalog srv1 requests' in
      (srv2, response :: responses)
  end.

(** Every session of maze [id] is in a safe state. *)
Definition sessions_safe (id : Z) (maze : MazeConfig) (C : list string)
    (Z : list pos) (srv : Server) : Prop :=
  ∀ user_id st, game_states srv !! game_key user_id id = Some st →
    safe maze C Z (position st) (gs_collected_keys st) (gs_collected_books st).

(** No answer to a request for maze [id] reports a win. *)
Definition never_won (id : Z) (requests : list (option Z * MoveSubmission))
    (responses : list (py MoveResult)) : Prop :=
  ∀ (i : nat) user move response,
    requests !! i = Some (user, move) → responses !! i = Some response →
    move_maze_id move = id → ¬ is_win response.

(** The cells of the advanced maze that can be stepped on without a key. *)
Definition MAZE_3_OPEN : list pos :=
  [(1, 1); (1, 2); (1, 3); (1, 4); (1, 5); (1, 6); (1, 7); (1, 8); (1, 9);
   (2, 3); (3, 1); (3, 2); (3, 3); (3, 4); (3, 5); (4, 3); (6, 3); (7, 1);
   (7, 2); (7, 3); (8, 1); (8, 3); (9, 1); (9, 3); (10, 1); (10, 3); (11, 1);
   (11, 3)].

(** A play that wins the intermediate maze. *)
Definition MAZE_2_SOLUTION : list MoveSubmission :=
  (λ ds, {| direction := ds.1; steps := ds.2; move_maze_id := 2 |}) <$>
  [("down", 1); ("down", 3); ("right", 3); ("right", 1); ("down", 2); ("up", 2);
   ("left", 2); ("down", 1); ("down", 2); ("right", 2); ("down", 12); ("up", 2);
   ("left", 2); ("down", 2); ("left", 3); ("left", 1); ("up", 4); ("right", 4);
   ("left", 4); ("down", 2); ("left", 1); ("left", 1); ("up", 3); ("right", 3)].

(** * Properties of the move validator *)

(** ** The validator on concrete requests *)

Example validate_unknown_maze :
  validate_move MAZES 4 (1, 1) "right" 1 [] None = Return (Invalid "Invalid maze ID").
Proof. reflexivity. Qed.

Example validate_unknown_direction :
  validate_move MAZES 1 (1, 1) "north" 1 [] None
    = Return (Invalid "Invalid direction").
Proof. reflexivity. Qed.

Example validate_into_wall :
  validate_move MAZES 1 (1, 1) "up" 1 [] None
    = Return (Invalid "Hit wall or boundary").
Proof. vm_compute. reflexivity. Qed.

Example validate_through_portal :
  validate_move MAZES 1 (1, 1) "right" 1 [] None
    = Return (Valid (9, 6) [] [] false).
Proof. vm_compute. reflexivity. Qed.

Example validate_key_then_book :
  validate_move FIXTURES 7 (1, 1) "right" 1 [] None
    = Return (Valid (1, 2) ["red"] ["red"] false).
Proof. vm_compute. reflexivity. Qed.

Example validate_ragged_grid :
  validate_move FIXTURES 9 (0, 1) "down" 1 [] None = Raise IndexError.
Proof. vm_compute. reflexivity. Qed.

(** ** The step loop *)

Lemma getitem_in_range {A} (l : list A) (i : Z) :
  0 <= i < len l →
  ∃ x, l !! Z.to_nat i = Some x ∧ getitem l i = Return x.
Proof.
  intros Hi. unfold getitem, py_index.
  rewrite bool_decide_eq_true_2 by done.
  destruct (lookup_lt_is_Some_2 l (Z.to_nat i)) as [x Hx].
  { unfold len in Hi. lia. }
  exists x. split; [done|]. simpl. by rewrite Hx.
Qed.

Lemma hits_wall_spec (g : grid_t) (r c : Z) :
  rectangular g →
  hits_wall g r c = Return (bool_decide (blocked g (r, c))).
Proof.
  intros Hrect. unfold hits_wall.
  case_bool_decide as Hr0.
  { rewrite bool_decide_eq_true_2; [done|]. left. unfold in_bounds. simpl. lia. }
  case_bool_decide as Hr1.
  { rewrite bool_decide_eq_true_2; [done|]. left. unfold in_bounds. simpl. lia. }
  case_bool_decide as Hc0.
  { rewrite bool_decide_eq_true_2; [done|]. left. unfold in_bounds. simpl. lia. }
  destruct (getitem_in_range g 0) as (row0 & Hrow0 & ->); [lia|]. simpl.
  assert (grid_width g = len row0) as Hw.
  { destruct g; simpl in *; congruence. }
  case_bool_decide as Hc1.
  { rewrite bool_decide_eq_true_2; [done|]. left. unfold in_bounds. simpl. lia. }
  destruct (getitem_in_range g r) as (row & Hrow & ->); [lia|]. simpl.
  assert (len row = grid_width g) as Hlen.
  { eapply (Forall_lookup_1 _ _ _ _ Hrect Hrow). }
  destruct (getitem_in_range row c) as (cell & Hcell & ->); [lia|]. simpl.
  f_equal. apply bool_decide_ext. unfold blocked, in_bounds, cell_at. simpl.
  rewrite bool_decide_eq_true_2 by lia. rewrite Hrow. simpl. rewrite Hcell.
  split.
  - intros ->. by right.
  - intros [Hout | Heq]; [lia | congruence].
Qed.

Lemma locked_door_Some ds ks p color :
  locked_door ds ks p = Some color → (color, p) ∈ ds ∧ color ∉ ks.
Proof.
  induction ds as [|[c q] ds IH]; simpl; [done|].
  case_decide as Hd.
  - intros [= ->]. destruct Hd as [-> ?]. split; [left | done].
  - intros H. destruct (IH H). split; [by right | done].
Qed.

Lemma locked_door_None ds ks p :
  locked_door ds ks p = None ↔ ∀ color, (color, p) ∈ ds → color ∈ ks.
Proof.
  induction ds as [|[c q] ds IH]; simpl.
  - split; [|done]. intros _ color H. by apply elem_of_nil in H.
  - case_decide as Hd.
    + split; [done|]. intros H. destruct Hd as [-> Hc].
      exfalso. apply Hc, H. left.
    + rewrite IH. split.
      * intros H color [Heq | Hin]%elem_of_cons; [|by apply H].
        injection Heq as -> ->.
        destruct (decide (c ∈ ks)); [done|]. exfalso. by apply Hd.
      * intros H color Hin. apply H. by right.
Qed.

Lemma door_locked_alt maze ks p :
  door_locked maze ks p ↔ ∃ color, (color, p) ∈ doors maze ∧ color ∉ ks.
Proof.
  unfold door_locked. rewrite Exists_exists. split.
  - intros ([color q] & Hin & Heq & Hnot). simpl in *. subst q. by exists color.
  - intros (color & Hin & Hnot). by exists (color, p).
Qed.

Lemma locked_door_iff maze ks p :
  door_locked maze ks p ↔ ∃ color, locked_door (doors maze) ks p = Some color.
Proof.
  rewrite door_locked_alt. split.
  - intros (color & Hin & Hnot).
    destruct (locked_door (doors maze) ks p) as [c|] eqn:E; [by exists c|].
    exfalso. apply Hnot. by eapply locked_door_None.
  - intros [color H]. exists color. by apply locked_door_Some.
Qed.

(** What one iteration answers on a rectangular grid. *)
Lemma check_cell_spec maze ks r c :
  rectangular (grid maze) →
  check_cell maze ks r c =
    Return (if decide (blocked (grid maze) (r, c)) then Some "Hit wall or boundary"
            else need_key <$> locked_door (doors maze) ks (r, c)).
Proof.
  intros Hrect. unfold check_cell. rewrite hits_wall_spec by done. simpl.
  case_bool_decide; case_decide; try done.
  by destruct (locked_door _ _ _).
Qed.

Lemma check_cell_passes maze ks r c :
  rectangular (grid maze) →
  check_cell maze ks r c = Return None ↔ passes maze ks (r, c).
Proof.
  intros Hrect. rewrite check_cell_spec by done. unfold passes.
  rewrite locked_door_iff. case_decide as Hb.
  - split; [done|]. by intros [? _].
  - destruct (locked_door _ _ _) as [color|] eqn:E; simpl.
    + split; [done|]. intros [_ H]. exfalso. apply H. by exists color.
    + split; [|done]. intros _. split; [done|]. by intros [? ?].
Qed.

(** The loop either walks all [n] cells, each of which passes, or returns
    the error of the first cell that does not. *)
Lemma step_loop_spec maze ks dr dc (n : nat) (r c : Z) :
  rectangular (grid maze) →
  (step_loop maze ks dr dc n r c
     = Return (inr (cell_after (r, c) (dr, dc) (Z.of_nat n))) ∧
   ∀ j, 1 <= j <= Z.of_nat n → passes maze ks (cell_after (r, c) (dr, dc) j))
  ∨ (∃ k error,
       1 <= k <= Z.of_nat n ∧
       (∀ j, 1 <= j < k → passes maze ks (cell_after (r, c) (dr, dc) j)) ∧
       ¬ passes maze ks (cell_after (r, c) (dr, dc) k) ∧
       check_cell maze ks (r + k * dr) (c + k * dc) = Return (Some error) ∧
       step_loop maze ks dr dc n r c = Return (inl error)).
Proof.
  intros Hrect. revert r c. induction n as [|n IH]; intros r c.
  - left. split; [|lia]. unfold cell_after. simpl. do 3 f_equal; lia.
  - cbn [step_loop].
    destruct (check_cell maze ks (r + dr) (c + dc)) as [[error|]|e] eqn:E.
    + right. exists 1, error. split; [lia|]. split; [lia|].
      replace (r + 1 * dr) with (r + dr) by lia.
      replace (c + 1 * dc) with (c + dc) by lia.
      split; [|done]. unfold cell_after. simpl.
      replace (r + 1 * dr) with (r + dr) by lia.
      replace (c + 1 * dc) with (c + dc) by lia.
      rewrite <- check_cell_passes by done. congruence.
    + simpl. apply check_cell_passes in E; [|done].
      assert (∀ j, cell_after (r + dr, c + dc) (dr, dc) j
                   = cell_after (r, c) (dr, dc) (j + 1)) as Hshift.
      { intros j. unfold cell_after. simpl. f_equal; lia. }
      destruct (IH (r + dr) (c + dc))
        as [[Hrun Hall] | (k & error & Hk & Hbefore & Hfail & Hchk & Hrun)].
      * left. rewrite Hrun, Hshift. split.
        { do 3 f_equal. lia. }
        intros j Hj. destruct (decide (j = 1)) as [->|].
        { unfold cell_after. simpl.
          replace (r + 1 * dr) with (r + dr) by lia.
          by replace (c + 1 * dc) with (c + dc) by lia. }
        replace j with ((j - 1) + 1) by lia. rewrite <- Hshift. apply Hall. lia.
      * right. exists (k + 1), error. split; [lia|]. split; [|split; [|split]].
        { intros j Hj. destruct (decide (j = 1)) as [->|].
          { unfold cell_after. simpl.
            replace (r + 1 * dr) with (r + dr) by lia.
            by replace (c + 1 * dc) with (c + dc) by lia. }
          replace j with ((j - 1) + 1) by lia. rewrite <- Hshift.
          apply Hbefore. lia. }
        { by rewrite <- Hshift. }
        { rewrite <- Hchk. f_equal; lia. }
        { done. }
    + rewrite check_cell_spec in E by done. done.
Qed.

(** A loop that runs to its end stops [n] cells further, whatever the grid. *)
Lemma step_loop_landing maze ks dr dc (n : nat) (r c : Z) final_pos :
  step_loop maze ks dr dc n r c = Return (inr final_pos) →
  final_pos = cell_after (r, c) (dr, dc) (Z.of_nat n).
Proof.
  revert r c. induction n as [|n IH]; intros r c; cbn [step_loop].
  - intros [= <-]. unfold cell_after. simpl. f_equal; lia.
  - destruct (check_cell maze ks (r + dr) (c + dc)) as [[error|]|e]; simpl; try done.
    intros ->%IH. unfold cell_after. simpl. f_equal; lia.
Qed.

(** ** Pickup *)

Lemma collect_keys_spec (kd : dict string pos) (p : pos) (ks : list string) :
  ∃ added, collect_keys kd p ks = ks ++ added ∧
           ∀ color, color ∈ added ↔ (color, p) ∈ kd ∧ color ∉ ks.
Proof.
  unfold collect_keys. revert ks.
  induction kd as [|[c q] kd IH]; intros ks; simpl.
  - exists []. rewrite app_nil_r. split; [done|].
    intros color. split; [by intros ?%elem_of_nil | by intros [?%elem_of_nil _]].
  - case_decide as Hd.
    + destruct Hd as [-> Hc]. destruct (IH (ks ++ [c])) as (added & -> & Hadd).
      exists (c :: added). rewrite <- app_assoc. split; [done|].
      intros color. rewrite elem_of_cons, Hadd, elem_of_cons, elem_of_app, list_elem_of_singleton.
      destruct (decide (color = c)) as [->|Hne]; [tauto|].
      split; [tauto|]. intros [[Heq|?] ?]; [congruence|tauto].
    + destruct (IH ks) as (added & -> & Hadd). exists added. split; [done|].
      intros color. rewrite Hadd, elem_of_cons. split; [tauto|].
      intros [[Heq | Hin] Hnot]; [|done].
      injection Heq as -> ->. exfalso. by apply Hd.
Qed.

Lemma collect_books_spec (bd : dict string pos) (p : pos) (nk bs : list string) :
  ∃ added, collect_books bd p nk bs = bs ++ added ∧
           ∀ color, color ∈ added ↔ (color, p) ∈ bd ∧ color ∈ nk ∧ color ∉ bs.
Proof.
  unfold collect_books. revert bs.
  induction bd as [|[c q] bd IH]; intros bs; simpl.
  - exists []. rewrite app_nil_r. split; [done|].
    intros color. split; [by intros ?%elem_of_nil | by intros [?%elem_of_nil _]].
  - case_decide as Hd.
    + destruct Hd as (-> & Hk & Hc). destruct (IH (bs ++ [c])) as (added & -> & Hadd).
      exists (c :: added). rewrite <- app_assoc. split; [done|].
      intros color. rewrite elem_of_cons, Hadd, elem_of_cons, elem_of_app, list_elem_of_singleton.
      destruct (decide (color = c)) as [->|Hne]; [tauto|].
      split; [tauto|]. intros ([Heq|?] & ? & ?); [congruence|tauto].
    + destruct (IH bs) as (added & -> & Hadd). exists added. split; [done|].
      intros color. rewrite Hadd, elem_of_cons. split; [tauto|].
      intros ([Heq | Hin] & Hk & Hnot); [|done].
      injection Heq as -> ->. exfalso. by apply Hd.
Qed.

(** ** The validator as a whole *)

Lemma validate_move_Valid catalog id cur d steps ks bs result :
  validate_move catalog id cur d steps ks bs = Return result →
  (∃ error, result = Invalid error) ∨
  (∃ maze v, catalog !! id = Some maze ∧ direction_map d = Some v ∧
             result = arrival maze (cell_after cur v (Z.max 0 steps)) ks (default [] bs)).
Proof.
  unfold validate_move, get_maze.
  destruct (catalog !! id) as [maze|]; [|intros [= <-]; eauto].
  destruct cur as [row col].
  destruct (direction_map d) as [[dr dc]|]; [|intros [= <-]; eauto].
  destruct (step_loop maze ks dr dc (Z.to_nat steps) row col)
    as [[error|final_pos]|e] eqn:E; simpl; [intros [= <-]; eauto| |done].
  intros [= <-]. right. exists maze, (dr, dc). do 2 (split; [done|]).
  apply step_loop_landing in E as ->.
  by replace (Z.max 0 steps) with (Z.of_nat (Z.to_nat steps)) by lia.
Qed.

Lemma validate_move_accepts catalog id maze cur d v steps ks bs :
  catalog !! id = Some maze →
  rectangular (grid maze) →
  direction_map d = Some v →
  (∀ j, 1 <= j <= steps → passes maze ks (cell_after cur v j)) →
  validate_move catalog id cur d steps ks bs
    = Return (arrival maze (cell_after cur v (Z.max 0 steps)) ks (default [] bs)).
Proof.
  intros Hmaze Hrect Hdir Hpass. unfold validate_move, get_maze. rewrite Hmaze.
  destruct cur as [row col]. rewrite Hdir. destruct v as [dr dc].
  destruct (step_loop_spec maze ks dr dc (Z.to_nat steps) row col Hrect)
    as [[-> _] | (k & error & Hk & _ & Hfail & _)].
  - simpl. by replace (Z.max 0 steps) with (Z.of_nat (Z.to_nat steps)) by lia.
  - exfalso. apply Hfail, Hpass. lia.
Qed.

Lemma validate_move_rejects catalog id maze cur d v steps k ks bs :
  catalog !! id = Some maze →
  rectangular (grid maze) →
  direction_map d = Some v →
  1 <= k <= steps →
  (∀ j, 1 <= j < k → passes maze ks (cell_after cur v j)) →
  ¬ passes maze ks (cell_after cur v k) →
  ∃ error,
    check_cell maze ks (cell_after cur v k).1 (cell_after cur v k).2
      = Return (Some error) ∧
    validate_move catalog id cur d steps ks bs = Return (Invalid error).
Proof.
  intros Hmaze Hrect Hdir Hk Hbefore Hfail. unfold validate_move, get_maze.
  rewrite Hmaze. destruct cur as [row col]. rewrite Hdir. destruct v as [dr dc].
  destruct (step_loop_spec maze ks dr dc (Z.to_nat steps) row col Hrect)
    as [[_ Hall] | (k' & error & Hk' & Hbefore' & Hfail' & Hchk & ->)].
  - exfalso. apply Hfail, Hall. lia.
  - assert (k' = k) as ->.
    { destruct (Z.lt_trichotomy k' k) as [Hlt | [-> | Hgt]]; [|done|].
      - exfalso. apply Hfail', Hbefore. lia.
      - exfalso. apply Hfail, Hbefore'. lia. }
    exists error. split; [|done]. exact Hchk.
Qed.

(** A step that does not pass has a first such step before it. *)
Lemma first_failing_step maze ks cur v (k : Z) :
  1 <= k →
  ¬ passes maze ks (cell_after cur v k) →
  ∃ k0, 1 <= k0 <= k ∧
        (∀ j, 1 <= j < k0 → passes maze ks (cell_after cur v j)) ∧
        ¬ passes maze ks (cell_after cur v k0).
Proof.
  intros Hk Hfail.
  assert (∀ n : nat,
            (∀ j, 1 <= j <= Z.of_nat n → passes maze ks (cell_after cur v j)) ∨
            ∃ k0, 1 <= k0 <= Z.of_nat n ∧
                  (∀ j, 1 <= j < k0 → passes maze ks (cell_after cur v j)) ∧
                  ¬ passes maze ks (cell_after cur v k0)) as Hscan.
  { induction n as [|n [Hall | (k0 & Hk0 & Hbefore & Hbad)]].
    - left. lia.
    - destruct (decide (passes maze ks (cell_after cur v (Z.of_nat (S n)))))
        as [Hp | Hp].
      + left. intros j Hj. destruct (decide (j = Z.of_nat (S n))) as [->|]; [done|].
        apply Hall. lia.
      + right. exists (Z.of_nat (S n)). split; [lia|]. split; [|done].
        intros j Hj. apply Hall. lia.
    - right. exists k0. split; [lia|]. done. }
  destruct (Hscan (Z.to_nat k)) as [Hall | (k0 & Hk0 & Hbefore & Hbad)].
  - exfalso. apply Hfail, Hall. lia.
  - exists k0. split; [lia|]. done.
Qed.

Lemma init_game_state_existing catalog srv key id :
  is_Some (game_states srv !! key) → init_game_state catalog srv key id = Return srv.
Proof. intros [st Hst]. unfold init_game_state. by rewrite Hst. Qed.


Lemma not_passes maze ks p :
  ¬ passes maze ks p ↔ blocked (grid maze) p ∨ door_locked maze ks p.
Proof.
  unfold passes. destruct (decide (blocked (grid maze) p));
    destruct (decide (door_locked maze ks p)); tauto.
Qed.

(** The error of a failing cell, exactly: the wall message on a blocked
    cell, and otherwise the key of the first locked door of the cell, in the
    order of the maze's doors. *)
Lemma check_cell_error_exact maze ks r c error :
  rectangular (grid maze) →
  check_cell maze ks r c = Return (Some error) →
  (blocked (grid maze) (r, c) ∧ error = "Hit wall or boundary") ∨
  (¬ blocked (grid maze) (r, c) ∧
   ∃ color, locked_door (doors maze) ks (r, c) = Some color ∧
            (color, (r, c)) ∈ doors maze ∧ (color ∉ ks) ∧ error = need_key color).
Proof.
  intros Hrect. rewrite check_cell_spec by done. case_decide as Hb.
  - intros [= <-]. by left.
  - destruct (locked_door (doors maze) ks (r, c)) as [color|] eqn:E; [|done].
    simpl. intros [= <-]. right. split; [done|]. exists color.
    apply locked_door_Some in E as [? ?]. done.
Qed.

(** ** Rejected moves *)

(** C1, as the code has it. On a rectangular grid, when some step [k] of
    the requested [steps] lands on a wall, outside the grid or on a locked
    door, [validate_move] answers [{valid: false, error}] and [submit_move]
    hands that answer back with the server exactly as it stood once the
    session entry existed (and untouched altogether when the session was
    already open): position, keys and books are those the move was checked
    against. The error is the one of the first failing step [k0]: it is
    "Hit wall or boundary" when that cell is a wall or outside the grid, and
    "Need {color} key to pass" when it is an open cell with a locked door,
    [color] being the first colour, in the order of the maze's doors, of a
    door of that cell whose key is missing. Hence the error is
    "Hit wall or boundary" when step [k] is blocked and no earlier cell is a
    locked door, and it names a missing key when no cell up to step [k] is
    blocked, that is when a locked door is met first. *)
Theorem rejected_move_leaves_state
    (catalog : gmap Z MazeConfig) (id : Z) (maze : MazeConfig)
    (current_pos v : pos) (d : string) (n k : Z) (ks bs : list string)
    (srv0 srv : Server) (user_id : Z) :
  catalog !! id = Some maze →
  rectangular (grid maze) →
  direction_map d = Some v →
  init_game_state catalog srv0 (game_key user_id id) id = Return srv →
  game_states srv !! game_key user_id id
    = Some {| position := current_pos;
              gs_collected_keys := ks;
              gs_collected_books := bs |} →
  1 <= k <= n →
  blocked (grid maze) (cell_after current_pos v k)
    ∨ door_locked maze ks (cell_after current_pos v k) →
  ∃ error,
    validate_move catalog id current_pos d n ks (Some bs) = Return (Invalid error) ∧
    submit_move catalog srv0 (Some user_id)
      {| direction := d; steps := n; move_maze_id := id |}
      = (srv, Return (Invalid error)) ∧
    (is_Some (game_states srv0 !! game_key user_id id) → srv = srv0) ∧
    (error = "Hit wall or boundary"
     ∨ ∃ color, (color ∉ ks) ∧ error = need_key color) ∧
    (blocked (grid maze) (cell_after current_pos v k) →
     (∀ j, 1 <= j < k → ¬ door_locked maze ks (cell_after current_pos v j)) →
     error = "Hit wall or boundary") ∧
    (∃ k0, 1 <= k0 <= k ∧
       (∀ j, 1 <= j < k0 → passes maze ks (cell_after current_pos v j)) ∧
       ((blocked (grid maze) (cell_after current_pos v k0) ∧
         error = "Hit wall or boundary") ∨
        (¬ blocked (grid maze) (cell_after current_pos v k0) ∧
         ∃ color,
           locked_door (doors maze) ks (cell_after current_pos v k0) = Some color ∧
           (color, cell_after current_pos v k0) ∈ doors maze ∧ (color ∉ ks) ∧
           error = "Need " +:+ color +:+ " key to pass"))) ∧
    ((∀ j, 1 <= j <= k → ¬ blocked (grid maze) (cell_after current_pos v j)) →
     ∃ k0 color,
       1 <= k0 <= k ∧
       (∀ j, 1 <= j < k0 → ¬ door_locked maze ks (cell_after current_pos v j)) ∧
       (color, cell_after current_pos v k0) ∈ doors maze ∧ (color ∉ ks) ∧
       error = "Need " +:+ color +:+ " key to pass").
Proof.
  intros Hmaze Hrect Hdir Hinit Hstate Hk Hfail.
  apply not_passes in Hfail.
  destruct (first_failing_step maze ks current_pos v k) as (k0 & Hk0 & Hbefore & Hbad);
    [lia | done |].
  destruct (validate_move_rejects catalog id maze current_pos d v n k0 ks (Some bs))
    as (error & Hchk & Hval); [done | done | done | lia | done | done |].
  assert ((blocked (grid maze) (cell_after current_pos v k0) ∧
           error = "Hit wall or boundary") ∨
          (¬ blocked (grid maze) (cell_after current_pos v k0) ∧
           ∃ color,
             locked_door (doors maze) ks (cell_after current_pos v k0) = Some color ∧
             (color, cell_after current_pos v k0) ∈ doors maze ∧ (color ∉ ks) ∧
             error = "Need " +:+ color +:+ " key to pass")) as Hexact.
  { apply check_cell_error_exact in Hchk; [|done].
    by destruct (cell_after current_pos v k0). }
  exists error. split; [done|]. split; [|split; [|split; [|split; [|split]]]].
  - unfold submit_move. cbn [move_maze_id direction steps].
    rewrite Hinit, Hstate. cbn [position gs_collected_keys gs_collected_books].
    by rewrite Hval.
  - intros Hopen. rewrite init_game_state_existing in Hinit by done. congruence.
  - destruct Hexact as [[_ ->] | (_ & color & _ & _ & Hnot & ->)];
      [by left | right; by exists color].
  - intros Hblocked Hnodoor.
    destruct Hexact as [[_ ->] | (Hopen & color & _ & Hin & Hnot & ->)]; [done|].
    exfalso. destruct (decide (k0 = k)) as [-> | Hne]; [done|].
    apply (Hnodoor k0); [lia|]. apply door_locked_alt. by exists color.
  - exists k0. split; [lia|]. split; [done|]. done.
  - intros Hclear.
    destruct Hexact as [[Hb _] | (_ & color & _ & Hin & Hnot & ->)].
    { exfalso. by apply (Hclear k0). }
    exists k0, color. split; [lia|]. split; [|done].
    intros j Hj. by destruct (Hbefore j Hj).
Qed.

Lemma rejected_move_leaves_state_witness :
  ∃ error,
    validate_move MAZES 1 (1, 1) "right" 10 [] (Some []) = Return (Invalid error) ∧
    submit_move MAZES initial_server (Some 1)
      {| direction := "right"; steps := 10; move_maze_id := 1 |}
      = ({| game_states :=
              <[game_key 1 1 := {| position := (1, 1);
                                   gs_collected_keys := [];
                                   gs_collected_books := [] |}]> ∅;
            attempts := [] |},
         Return (Invalid error)) ∧
    (is_Some (game_states initial_server !! game_key 1 1) →
     {| game_states :=
          <[game_key 1 1 := {| position := (1, 1);
                               gs_collected_keys := [];
                               gs_collected_books := [] |}]> ∅;
        attempts := [] |} = initial_server) ∧
    (error = "Hit wall or boundary"
     ∨ ∃ color, (color ∉ ([] : list string)) ∧ error = need_key color) ∧
    (blocked (grid MAZE_1) (cell_after (1, 1) (0, 1) 10) →
     (∀ j, 1 <= j < 10 → ¬ door_locked MAZE_1 [] (cell_after (1, 1) (0, 1) j)) →
     error = "Hit wall or boundary") ∧
    (∃ k0, 1 <= k0 <= 10 ∧
       (∀ j, 1 <= j < k0 → passes MAZE_1 [] (cell_after (1, 1) (0, 1) j)) ∧
       ((blocked (grid MAZE_1) (cell_after (1, 1) (0, 1) k0) ∧
         error = "Hit wall or boundary") ∨
        (¬ blocked (grid MAZE_1) (cell_after (1, 1) (0, 1) k0) ∧
         ∃ color,
           locked_door (doors MAZE_1) [] (cell_after (1, 1) (0, 1) k0) = Some color ∧
           (color, cell_after (1, 1) (0, 1) k0) ∈ doors MAZE_1 ∧
           (color ∉ ([] : list string)) ∧
           error = "Need " +:+ color +:+ " key to pass"))) ∧
    ((∀ j, 1 <= j <= 10 → ¬ blocked (grid MAZE_1) (cell_after (1, 1) (0, 1) j)) →
     ∃ k0 color,
       1 <= k0 <= 10 ∧
       (∀ j, 1 <= j < k0 → ¬ door_locked MAZE_1 [] (cell_after (1, 1) (0, 1) j)) ∧
       (color, cell_after (1, 1) (0, 1) k0) ∈ doors MAZE_1 ∧
       (color ∉ ([] : list string)) ∧
       error = "Need " +:+ color +:+ " key to pass").
Proof.
  apply (rejected_move_leaves_state MAZES 1 MAZE_1 (1, 1) (0, 1) "right" 10 10
           [] [] initial_server).
  - reflexivity.
  - apply (bool_decide_unpack _). vm_compute. exact I.
  - reflexivity.
  - vm_compute. reflexivity.
  - vm_compute. reflexivity.
  - lia.
  - left. apply (bool_decide_unpack _). vm_compute. exact I.
Defined.

(** C1 as written fails: from the start of the beginner maze, ten steps
    to the right would leave the 11-column grid, yet the error names the blue
    door met at the sixth step. *)
Lemma exit_move_may_report_door :
  ¬ (∀ (catalog : gmap Z MazeConfig) id maze current_pos d v n ks bs,
       catalog !! id = Some maze →
       rectangular (grid maze) →
       direction_map d = Some v →
       1 <= n →
       ¬ in_bounds (grid maze) (cell_after current_pos v n) →
       validate_move catalog id current_pos d n ks bs
         = Return (Invalid "Hit wall or boundary")).
Proof.
  intros H.
  specialize (H MAZES 1 MAZE_1 (1, 1) "right" (0, 1) 10 [] (Some [])).
  assert (validate_move MAZES 1 (1, 1) "right" 10 [] (Some [])
          = Return (Invalid "Need blue key to pass")) as E by (vm_compute; reflexivity).
  rewrite E in H. discriminate H.
  - reflexivity.
  - apply (bool_decide_unpack _). vm_compute. exact I.
  - reflexivity.
  - lia.
  - apply (bool_decide_unpack _). vm_compute. exact I.
Qed.

(** ** Locked doors *)




(** ** Accepted moves *)

Lemma arrival_position maze landing ks bs p nk nb w :
  arrival maze landing ks bs = Valid p nk nb w →
  p = teleport (portals maze) landing ∧
  nk = collect_keys (keys maze) p ks ∧
  nb = collect_books (books maze) p nk bs ∧
  w = bool_decide (len nb = 5).
Proof. unfold arrival. by intros [= <- <- <- <-]. Qed.

(** C3. When the landing cell of a move is a portal source, every accepted
    outcome stands on the mapped destination, looked up once: nothing is
    asked of the destination, be it a wall, a door, outside the grid or a
    portal source itself, and the move is accepted as soon as the stepped
    cells pass. *)
Theorem portal_single_hop
    (catalog : gmap Z MazeConfig) (id : Z) (maze : MazeConfig)
    (current_pos v : pos) (d : string) (n : Z) (ks : list string)
    (bs : option (list string)) (dest : pos) :
  catalog !! id = Some maze →
  direction_map d = Some v →
  portals maze !! cell_after current_pos v (Z.max 0 n) = Some dest →
  (∀ p nk nb w,
     validate_move catalog id current_pos d n ks bs = Return (Valid p nk nb w) →
     p = dest) ∧
  (rectangular (grid maze) →
   (∀ j, 1 <= j <= n → passes maze ks (cell_after current_pos v j)) →
   ∃ nk nb w,
     validate_move catalog id current_pos d n ks bs = Return (Valid dest nk nb w)).
Proof.
  intros Hmaze Hdir Hportal. split.
  - intros p nk nb w Hval.
    apply validate_move_Valid in Hval as [[error [=]] | (maze' & v' & Hm & Hd & Harr)].
    assert (maze' = maze) as -> by congruence.
    assert (v' = v) as -> by congruence.
    symmetry in Harr. apply arrival_position in Harr as [-> _].
    unfold teleport. by rewrite Hportal.
  - intros Hrect Hpass.
    rewrite (validate_move_accepts catalog id maze current_pos d v n ks bs) by done.
    unfold arrival, teleport. rewrite Hportal. eauto.
Qed.

Lemma portal_single_hop_witness :
  (∀ p nk nb w,
     validate_move MAZES 1 (1, 1) "right" 1 [] None = Return (Valid p nk nb w) →
     p = (9, 6)) ∧
  (rectangular (grid MAZE_1) →
   (∀ j, 1 <= j <= 1 → passes MAZE_1 [] (cell_after (1, 1) (0, 1) j)) →
   ∃ nk nb w,
     validate_move MAZES 1 (1, 1) "right" 1 [] None = Return (Valid (9, 6) nk nb w)).
Proof.
  apply (portal_single_hop MAZES 1 MAZE_1 (1, 1) (0, 1) "right" 1 [] None (9, 6)).
  - reflexivity.
  - reflexivity.
  - vm_compute. reflexivity.
Defined.

(** C4. In an accepted move the outgoing keys are the incoming ones
    followed by the keys lying on the final cell, and the outgoing books are
    the incoming ones followed by exactly the colours whose book lies on the
    final cell, whose key is among the outgoing keys (so a key picked up on
    that very cell counts) and which were not among the incoming books. *)
Theorem book_pickup_after_key_pickup
    (catalog : gmap Z MazeConfig) (id : Z) (current_pos : pos) (d : string)
    (n : Z) (ks : list string) (bs : option (list string))
    (p : pos) (nk nb : list string) (w : bool) :
  validate_move catalog id current_pos d n ks bs = Return (Valid p nk nb w) →
  ∃ maze new_keys new_books,
    catalog !! id = Some maze ∧
    nk = ks ++ new_keys ∧
    (∀ color, color ∈ new_keys ↔ (color, p) ∈ keys maze ∧ color ∉ ks) ∧
    nb = default [] bs ++ new_books ∧
    (∀ color, color ∈ new_books ↔
              (color, p) ∈ books maze ∧ color ∈ nk ∧ color ∉ default [] bs).
Proof.
  intros Hval.
  apply validate_move_Valid in Hval as [[error [=]] | (maze & v & Hm & Hd & Harr)].
  symmetry in Harr. apply arrival_position in Harr as (_ & Hnk & Hnb & _).
  destruct (collect_keys_spec (keys maze) p ks) as (new_keys & Ek & Hk).
  destruct (collect_books_spec (books maze) p nk (default [] bs)) as (new_books & Eb & Hb).
  exists maze, new_keys, new_books. split; [done|].
  split; [congruence|]. split; [done|]. split; [congruence|]. done.
Qed.

Lemma book_pickup_after_key_pickup_witness :
  ∃ maze new_keys new_books,
    FIXTURES !! 7 = Some maze ∧
    ["red"] = [] ++ new_keys ∧
    (∀ color, color ∈ new_keys ↔ (color, (1, 2)) ∈ keys maze ∧ color ∉ []) ∧
    ["red"] = default [] (Some []) ++ new_books ∧
    (∀ color, color ∈ new_books ↔
              (color, (1, 2)) ∈ books maze ∧ color ∈ ["red"]
              ∧ color ∉ default [] (Some [])).
Proof.
  apply (book_pickup_after_key_pickup FIXTURES 7 (1, 1) "right" 1 [] (Some [])
           (1, 2) ["red"] ["red"] false).
  vm_compute. reflexivity.
Defined.

(** C5. An accepted move reports [won] exactly when the outgoing list of
    books has five entries, whatever their colours. *)
Theorem won_iff_five_books
    (catalog : gmap Z MazeConfig) (id : Z) (current_pos : pos) (d : string)
    (n : Z) (ks : list string) (bs : option (list string))
    (p : pos) (nk nb : list string) (w : bool) :
  validate_move catalog id current_pos d n ks bs = Return (Valid p nk nb w) →
  (w = true ↔ length nb = 5%nat).
Proof.
  intros Hval.
  apply validate_move_Valid in Hval as [[error [=]] | (maze & v & Hm & Hd & Harr)].
  symmetry in Harr. apply arrival_position in Harr as (_ & _ & _ & ->).
  rewrite bool_decide_eq_true. unfold len. lia.
Qed.

Lemma won_iff_five_books_witness :
  true = true ↔ length ["a"; "b"; "c"; "d"; "blue"] = 5%nat.
Proof.
  apply (won_iff_five_books FIXTURES 8 (1, 1) "right" 1 ["blue"]
           (Some ["a"; "b"; "c"; "d"]) (1, 4) ["blue"]).
  vm_compute. reflexivity.
Defined.

(** ** The beginner-maze walkthrough *)

Lemma walkthrough_run :
  play MAZES initial_server (Some 1) walkthrough
    = ({| game_states :=
            <[game_key 1 1 := {| position := (1, 3);
                                 gs_collected_keys := ["red"];
                                 gs_collected_books := [] |}]> ∅;
          attempts :=
            [ {| att_user_id := 1; att_maze_id := 1; att_moves := ("right", 3);
                 att_success := false; att_collected_books := [] |};
              {| att_user_id := 1; att_maze_id := 1; att_moves := ("left", 1);
                 att_success := false; att_collected_books := [] |} ] |},
       [ Return (Valid (1, 4) ["red"] [] false);
         Return (Invalid "Hit wall or boundary");
         Return (Valid (1, 3) ["red"] [] false) ]).
Proof. vm_compute. reflexivity. Qed.

(** C6, as the code has it. From a fresh session in maze 1, "right 3" is
    accepted and picks up the red key on (1,4); "down 4" is rejected with
    "Hit wall or boundary" because (2,4) is a wall; "left 1" is accepted, and
    the session ends on (1,3) holding the red key and no book. *)
Theorem walkthrough_outcome :
  (play MAZES initial_server (Some 1) walkthrough).2
    = [ Return (Valid (1, 4) ["red"] [] false);
        Return (Invalid "Hit wall or boundary");
        Return (Valid (1, 3) ["red"] [] false) ] ∧
  game_states (play MAZES initial_server (Some 1) walkthrough).1 !! game_key 1 1
    = Some {| position := (1, 3);
              gs_collected_keys := ["red"];
              gs_collected_books := [] |} ∧
  cell_at (grid MAZE_1) (2, 4) = Some "#" ∧
  validate_move MAZES 1 (1, 4) "down" 4 ["red"] (Some [])
    = Return (Invalid "Hit wall or boundary").
Proof.
  rewrite walkthrough_run. cbn [fst snd game_states].
  split; [done|]. split; [by rewrite lookup_insert_eq|].
  split; vm_compute; reflexivity.
Qed.

(** C6 as written fails: the three requests are not all accepted and the
    session does not end on (6,5). *)
Lemma walkthrough_not_as_claimed :
  ¬ (Forall accepted (play MAZES initial_server (Some 1) walkthrough).2 ∧
     ∃ st, game_states (play MAZES initial_server (Some 1) walkthrough).1
             !! game_key 1 1 = Some st ∧
           "red" ∈ gs_collected_keys st ∧
           position st = (6, 5)).
Proof.
  rewrite walkthrough_run. cbn [fst snd].
  intros [Hall _].
  apply Forall_cons in Hall as [_ Hall]. apply Forall_cons in Hall as [Hbad _].
  exact Hbad.
Qed.

(** ** Moves of no step *)

(** C9, as the code has it. With [steps <= 0] the loop body never runs:
    for every maze of the catalogue, every recognised direction and every
    state, the move is accepted. The portal is applied to the cell the player
    stands on, so that on a portal source the player is teleported; key
    pickup and then book pickup are applied to the resulting position, which
    is the current cell unless that cell is a portal source: the outgoing
    keys are the incoming ones followed by exactly the colours whose key lies
    there and is not held, and the outgoing books are the incoming ones
    followed by exactly the colours whose book lies there, whose key is among
    the outgoing keys, and that are not held. *)
Theorem nonpositive_steps_accepted
    (catalog : gmap Z MazeConfig) (id : Z) (maze : MazeConfig)
    (current_pos v : pos) (d : string) (n : Z) (ks : list string)
    (bs : option (list string)) :
  catalog !! id = Some maze →
  direction_map d = Some v →
  n <= 0 →
  validate_move catalog id current_pos d n ks bs
    = Return (arrival maze current_pos ks (default [] bs)) ∧
  (∀ dest, portals maze !! current_pos = Some dest →
           ∃ nk nb w,
             validate_move catalog id current_pos d n ks bs
               = Return (Valid dest nk nb w)) ∧
  (∀ (srv : Server) (user_id : Z) (books_held : list string),
     game_states srv !! game_key user_id id
       = Some {| position := current_pos;
                 gs_collected_keys := ks;
                 gs_collected_books := books_held |} →
     (submit_move catalog srv (Some user_id)
        {| direction := d; steps := n; move_maze_id := id |}).2
       = Return (arrival maze current_pos ks books_held)) ∧
  (∃ p added_keys added_books,
     validate_move catalog id current_pos d n ks bs
       = Return (Valid p (ks ++ added_keys) (default [] bs ++ added_books)
                   (bool_decide (len (default [] bs ++ added_books) = 5))) ∧
     p = default current_pos (portals maze !! current_pos) ∧
     (∀ c, c ∈ added_keys ↔ (c, p) ∈ keys maze ∧ c ∉ ks) ∧
     (∀ c, c ∈ added_books ↔
           (c, p) ∈ books maze ∧ c ∈ ks ++ added_keys ∧ c ∉ default [] bs)).
Proof.
  intros Hmaze Hdir Hn.
  assert (∀ bs', validate_move catalog id current_pos d n ks bs'
                 = Return (arrival maze current_pos ks (default [] bs'))) as Hval.
  { intros bs'. unfold validate_move, get_maze. rewrite Hmaze.
    destruct current_pos as [row col]. rewrite Hdir. destruct v as [dr dc].
    replace (Z.to_nat n) with O by lia. reflexivity. }
  split; [done|]. split; [|split].
  - intros dest Hportal. rewrite Hval.
    unfold arrival, teleport. rewrite Hportal. eauto.
  - intros srv user_id books_held Hstate.
    unfold submit_move. cbn [move_maze_id direction steps].
    rewrite init_game_state_existing by eauto. rewrite Hstate.
    cbn [position gs_collected_keys gs_collected_books].
    rewrite Hval. reflexivity.
  - set (p := default current_pos (portals maze !! current_pos)).
    assert (teleport (portals maze) current_pos = p) as Hp.
    { unfold teleport, p. by destruct (portals maze !! current_pos). }
    destruct (collect_keys_spec (keys maze) p ks) as (added_keys & Ek & Hk).
    destruct (collect_books_spec (books maze) p (ks ++ added_keys) (default [] bs))
      as (added_books & Eb & Hb).
    exists p, added_keys, added_books. split; [|done].
    rewrite Hval. unfold arrival. by rewrite Hp, Ek, Eb.
Qed.

Lemma nonpositive_steps_accepted_witness :
  ∃ added_keys added_books,
    validate_move FIXTURES 7 (1, 2) "up" (-3) [] None
      = Return (Valid (1, 2) ([] ++ added_keys) ([] ++ added_books)
                  (bool_decide (len ([] ++ added_books) = 5))) ∧
    "red" ∈ added_keys ∧ "red" ∈ added_books.
Proof.
  destruct (nonpositive_steps_accepted FIXTURES 7 KEY_ON_BOOK (1, 2) (-1, 0) "up" (-3)
              [] None)
    as (_ & _ & _ & p & added_keys & added_books & Hval & Hp & Hk & Hb).
  - reflexivity.
  - reflexivity.
  - lia.
  - vm_compute in Hp. subst p. exists added_keys, added_books.
    split; [exact Hval|].
    assert ("red" ∈ added_keys) as Hred.
    { apply Hk. split; apply (bool_decide_unpack _); vm_compute; exact I. }
    split; [exact Hred|].
    apply Hb. split; [apply (bool_decide_unpack _); vm_compute; exact I|].
    split; [apply elem_of_app; by right|].
    apply (bool_decide_unpack _). vm_compute. exact I.
Defined.

(** C9 as written fails on a portal source: pickup is not made on the
    cell the player stands on but on the cell the portal leads to. In
    [KEY_ON_PORTAL] a move of no step made on (1,2), where the red key lies,
    ends on (1,4) without the red key. *)
Lemma zero_step_pickup_follows_portal :
  ¬ (∀ (catalog : gmap Z MazeConfig) id maze current_pos d v n ks bs color,
       catalog !! id = Some maze →
       direction_map d = Some v →
       n <= 0 →
       (color, current_pos) ∈ keys maze →
       color ∉ ks →
       ∃ p nk nb w,
         validate_move catalog id current_pos d n ks bs = Return (Valid p nk nb w) ∧
         color ∈ nk).
Proof.
  intros H.
  destruct (H (<[10 := KEY_ON_PORTAL]> ∅) 10 KEY_ON_PORTAL (1, 2) "up" (-1, 0) 0
              [] None "red") as (p & nk & nb & w & Hval & Hred).
  - reflexivity.
  - reflexivity.
  - lia.
  - apply (bool_decide_unpack _). vm_compute. exact I.
  - apply (bool_decide_unpack _). vm_compute. exact I.
  - assert (validate_move (<[10 := KEY_ON_PORTAL]> ∅) 10 (1, 2) "up" 0 [] None
            = Return (Valid (1, 4) [] [] false)) as E by (vm_compute; reflexivity).
    rewrite E in Hval. injection Hval as <- <- <- <-.
    by apply elem_of_nil in Hred.
Qed.

(** ** Portals onto doors *)

(** C10. Doors are only looked for on the stepped cells: when these all
    pass and the landing cell is a portal source whose destination carries a
    door of a colour missing from the keys, the move is accepted and the
    player stands on that door's cell, a cell the step loop itself would
    refuse. *)
Theorem portal_lands_on_locked_door
    (catalog : gmap Z MazeConfig) (id : Z) (maze : MazeConfig)
    (current_pos v : pos) (d : string) (n : Z) (ks : list string)
    (bs : option (list string)) (dest : pos) (color : string) :
  catalog !! id = Some maze →
  rectangular (grid maze) →
  direction_map d = Some v →
  (∀ j, 1 <= j <= n → passes maze ks (cell_after current_pos v j)) →
  portals maze !! cell_after current_pos v (Z.max 0 n) = Some dest →
  (color, dest) ∈ doors maze →
  color ∉ ks →
  (∃ nk nb w,
     validate_move catalog id current_pos d n ks bs = Return (Valid dest nk nb w)) ∧
  ¬ passes maze ks dest ∧
  (∃ error, check_cell maze ks dest.1 dest.2 = Return (Some error)).
Proof.
  intros Hmaze Hrect Hdir Hpass Hportal Hdoor Hnot.
  assert (¬ passes maze ks dest) as Hbad.
  { apply not_passes. right. apply door_locked_alt. by exists color. }
  split; [|split; [done|]].
  - rewrite (validate_move_accepts catalog id maze current_pos d v n ks bs) by done.
    unfold arrival, teleport. rewrite Hportal. eauto.
  - destruct dest as [r c]. simpl.
    destruct (check_cell maze ks r c) as [[error|]|e] eqn:E.
    + by exists error.
    + exfalso. by apply Hbad, check_cell_passes.
    + by rewrite check_cell_spec in E.
Qed.

Lemma portal_lands_on_locked_door_witness :
  (∃ nk nb w,
     validate_move FIXTURES 8 (1, 1) "right" 1 [] None
       = Return (Valid (1, 4) nk nb w)) ∧
  ¬ passes PORTAL_TO_DOOR [] (1, 4) ∧
  (∃ error, check_cell PORTAL_TO_DOOR [] 1 4 = Return (Some error)).
Proof.
  apply (portal_lands_on_locked_door FIXTURES 8 PORTAL_TO_DOOR (1, 1) (0, 1)
           "right" 1 [] None (1, 4) "blue").
  - reflexivity.
  - apply (bool_decide_unpack _). vm_compute. exact I.
  - reflexivity.
  - intros j Hj. assert (j = 1) as -> by lia.
    apply (bool_decide_unpack _). vm_compute. exact I.
  - vm_compute. reflexivity.
  - apply (bool_decide_unpack _). vm_compute. exact I.
  - apply (bool_decide_unpack _). vm_compute. exact I.
Defined.

(** * Properties of the maze generator *)

(** ** Trees grown leaf by leaf *)

Section leaves.
Context {A : Type} `{EqDecision A}.
Variable R : A → A → Prop.
Hypothesis R_sym : ∀ x y, R x y → R y x.

Lemma chain_cons_inv x l : chain R (x :: l) → chain R l.
Proof. destruct l as [|y l]; simpl; [done|]. by intros [_ ?]. Qed.

Lemma chain_app_r l1 l2 : chain R (l1 ++ l2) → chain R l2.
Proof.
  induction l1 as [|x l1 IH]; [done|]. intros H. apply IH.
  by apply chain_cons_inv in H.
Qed.

Lemma chain_link l1 x y l2 : chain R (l1 ++ x :: y :: l2) → R x y.
Proof. intros H. apply chain_app_r in H. by destruct H. Qed.

Lemma chain_snoc l x y : chain R (l ++ [x]) → R x y → chain R (l ++ [x; y]).
Proof.
  induction l as [|z l IH]; simpl.
  - done.
  - intros H Hxy. destruct l as [|z' l]; simpl in *.
    + split; [apply H | done].
    + split; [apply H|]. apply IH; [apply H | done].
Qed.

Lemma chain_reverse l : chain R l → chain R (reverse l).
Proof.
  induction l as [|x l IH]; [done|]. intros H. rewrite reverse_cons.
  destruct l as [|y l]; [done|]. destruct H as [Hxy H].
  specialize (IH H). rewrite reverse_cons in *.
  rewrite <- app_assoc. simpl. apply chain_snoc; [done|]. by apply R_sym.
Qed.

Lemma simple_path_reverse V a b l :
  simple_path V R a b l → simple_path V R b a (reverse l).
Proof.
  intros (Hh & Hl & Hnd & HV & Hch). repeat split.
  - by rewrite head_reverse.
  - by rewrite last_reverse.
  - by rewrite reverse_Permutation.
  - by apply Forall_reverse.
  - by apply chain_reverse.
Qed.

Lemma simple_path_mono (V V' : A → Prop) a b l :
  (∀ x, V x → V' x) → simple_path V R a b l → simple_path V' R a b l.
Proof.
  intros Hsub (Hh & Hl & Hnd & HV & Hch). repeat split; try done.
  eapply Forall_impl; [done|]. done.
Qed.

Lemma tree_ext (V V' : A → Prop) :
  (∀ x, V x ↔ V' x) → tree V R → tree V' R.
Proof.
  intros Heq Ht a b Ha Hb.
  destruct (Ht a b) as (l & Hl & Huniq); [by apply Heq | by apply Heq |].
  exists l. split.
  - eapply simple_path_mono; [|done]. intros x. apply Heq.
  - intros l' Hl'. apply Huniq. eapply simple_path_mono; [|done].
    intros x. apply Heq.
Qed.

Lemma tree_singleton (s : A) : tree (λ x, x = s) R.
Proof.
  intros a b -> ->. exists [s]. split.
  - repeat split; try done; [apply NoDup_singleton | by apply Forall_singleton].
  - intros l' (Hh & _ & Hnd & HV & _).
    destruct l' as [|x [|y l']]; simplify_eq/=; [done|].
    apply Forall_cons in HV as [_ HV]. apply Forall_cons in HV as [-> _].
    apply NoDup_cons in Hnd as [Hnd _]. exfalso. apply Hnd. left.
Qed.

(** A leaf [v], hanging from [u], is added to the vertices [V]. *)
Section add_leaf.
Variable V : A → Prop.
Variables u v : A.
Hypothesis Hu : V u.
Hypothesis Hv : ¬ V v.
Hypothesis Huv : R u v.
Hypothesis Hleaf : ∀ x, V x → R x v → x = u.

(** The leaf is an inner vertex of no simple path. *)
Lemma leaf_avoided a b l :
  simple_path (add_vertex V v) R a b l → a ≠ v → b ≠ v → simple_path V R a b l.
Proof.
  intros (Hh & Hl & Hnd & HV & Hch) Ha Hb.
  assert (v ∉ l) as Hnot.
  { intros Hin. apply list_elem_of_split in Hin as (l1 & l2 & ->).
    destruct (decide (l1 = [])) as [-> | Hl1].
    { simpl in Hh. congruence. }
    destruct (decide (l2 = [])) as [-> | Hl2].
    { rewrite last_snoc in Hl. congruence. }
    destruct (exists_last Hl1) as (l1' & x & ->).
    destruct l2 as [|y l2]; [done|].
    rewrite <- app_assoc in Hch, Hnd, HV. simpl in Hch, Hnd, HV.
    assert (R x v) as Hxv by (by eapply chain_link).
    assert (R v y) as Hvy.
    { eapply (chain_link (l1' ++ [x])). rewrite <- app_assoc. exact Hch. }
    apply NoDup_app in Hnd as (_ & _ & Hnd).
    apply NoDup_cons in Hnd as [Hx Hnd].
    apply NoDup_cons in Hnd as [Hvn Hnd].
    apply Forall_app in HV as [_ HV].
    apply Forall_cons in HV as [HVx HV].
    apply Forall_cons in HV as [_ HV].
    apply Forall_cons in HV as [HVy _].
    assert (x = u) as ->.
    { apply Hleaf; [|done]. destruct HVx as [-> | ?]; [|done].
      exfalso. apply Hx. left. }
    assert (y = u) as ->.
    { apply Hleaf; [|by apply R_sym]. destruct HVy as [-> | ?]; [|done].
      exfalso. apply Hvn. left. }
    apply Hx. right. left. }
  repeat split; try done.
  apply Forall_forall. intros x Hx.
  rewrite Forall_forall in HV. destruct (HV x Hx) as [-> | ?]; done.
Qed.

(** A simple path that starts on the leaf goes on from [u]. *)
Lemma leaf_first b l :
  simple_path (add_vertex V v) R v b l → b ≠ v →
  ∃ l', l = v :: l' ∧ simple_path V R u b l'.
Proof.
  intros (Hh & Hl & Hnd & HV & Hch) Hb.
  destruct l as [|x l]; [done|]. simpl in Hh. injection Hh as ->.
  exists l. split; [done|].
  destruct l as [|y l].
  { simpl in Hl. congruence. }
  apply NoDup_cons in Hnd as [Hvn Hnd].
  apply Forall_cons in HV as [_ HV].
  assert (Forall V (y :: l)) as HV'.
  { apply Forall_forall. intros x Hx. rewrite Forall_forall in HV.
    destruct (HV x Hx) as [-> | ?]; done. }
  destruct Hch as [Hvy Hch].
  assert (y = u) as ->.
  { apply Hleaf; [|by apply R_sym]. by apply Forall_cons in HV' as [? _]. }
  repeat split; try done.
Qed.

Lemma leaf_path b l :
  simple_path V R u b l → simple_path (add_vertex V v) R v b (v :: l).
Proof.
  intros (Hh & Hl & Hnd & HV & Hch).
  destruct l as [|y l]; [done|]. simpl in Hh. injection Hh as ->.
  repeat split.
  - done.
  - apply NoDup_cons. split; [|done]. intros Hin.
    rewrite Forall_forall in HV. by apply Hv, HV.
  - apply Forall_cons. split; [by left|].
    eapply Forall_impl; [done|]. intros x ?. by right.
  - by apply R_sym.
  - done.
Qed.

Lemma tree_add_leaf : tree V R → tree (add_vertex V v) R.
Proof.
  intros Ht a b Ha Hb.
  destruct (decide (a = v)) as [-> | Hav]; destruct (decide (b = v)) as [-> | Hbv].
  - exists [v]. split.
    + repeat split; try done; [apply NoDup_singleton|].
      apply Forall_singleton. by left.
    + intros l' (Hh & Hl & Hnd & _).
      destruct l' as [|x l']; [done|]. simpl in Hh. injection Hh as ->.
      destruct l' as [|y l']; [done|]. exfalso.
      apply NoDup_cons in Hnd as [Hnd _]. apply Hnd.
      change (v :: y :: l') with ([v] ++ y :: l') in Hl.
      rewrite last_app_cons in Hl. by apply last_Some_elem_of.
  - assert (V b) as HVb by (by destruct Hb).
    destruct (Ht u b Hu HVb) as (l & Hl & Huniq).
    exists (v :: l). split; [by apply leaf_path|].
    intros l' Hl'. apply leaf_first in Hl' as (l'' & -> & Hl''); [|done].
    f_equal. by apply Huniq.
  - assert (V a) as HVa by (by destruct Ha).
    destruct (Ht u a Hu HVa) as (l & Hl & Huniq).
    exists (reverse (v :: l)). split.
    + apply simple_path_reverse. by apply leaf_path.
    + intros l' Hl'. apply simple_path_reverse in Hl'.
      apply leaf_first in Hl' as (l'' & Hrev & Hl''); [|done].
      rewrite <- (reverse_involutive l'), Hrev. f_equal. f_equal.
      by apply Huniq.
  - assert (V a) as HVa by (by destruct Ha).
    assert (V b) as HVb by (by destruct Hb).
    destruct (Ht a b HVa HVb) as (l & Hl & Huniq).
    exists l. split.
    + eapply simple_path_mono; [|done]. intros x ?. by right.
    + intros l' Hl'. apply Huniq. by apply leaf_avoided.
Qed.
End add_leaf.
End leaves.

(** ** Reading and writing grid cells *)

Lemma grid_shape_width g w h :
  grid_shape g w h → 0 < h → grid_width g = w.
Proof.
  intros [Hh Hrows] Hpos. destruct g as [|row0 g]; simpl.
  - unfold len in Hh. simpl in Hh. lia.
  - by apply Forall_cons in Hrows as [? _].
Qed.

Lemma grid_shape_rectangular g w h : grid_shape g w h → rectangular g.
Proof.
  intros [Hh Hrows]. unfold rectangular. destruct g as [|row0 g]; [constructor|].
  assert (grid_width (row0 :: g) = w) as ->; [|done].
  simpl. by apply Forall_cons in Hrows as [? _].
Qed.

Lemma in_bounds_inside g w h p :
  grid_shape g w h → in_bounds g p ↔ inside w h p.
Proof.
  intros Hshape. unfold in_bounds, inside. destruct (Hshape) as [Hh _].
  rewrite Hh. split; intros [Hr Hc].
  - rewrite (grid_shape_width g w h) in Hc by (done || lia). done.
  - rewrite (grid_shape_width g w h) by (done || lia). done.
Qed.

Lemma cell_at_lookup g p x :
  cell_at g p = Some x ↔
  0 <= p.1 ∧ 0 <= p.2 ∧
  ∃ row, g !! Z.to_nat p.1 = Some row ∧ row !! Z.to_nat p.2 = Some x.
Proof.
  unfold cell_at. case_bool_decide as Hp.
  - destruct (g !! Z.to_nat p.1) as [row|]; simpl.
    + split.
      * intros Hx. destruct Hp. split; [done|]. split; [done|]. by exists row.
      * by intros (_ & _ & row' & [= <-] & ?).
    + split; [done | by intros (_ & _ & row' & ? & _)].
  - split; [done | intros (? & ? & _); tauto].
Qed.

Lemma cell_at_inside g w h p x :
  grid_shape g w h → cell_at g p = Some x → inside w h p.
Proof.
  intros [Hh Hrows] (Hr & Hc & row & Hrow & Hx)%cell_at_lookup.
  pose proof (lookup_lt_Some _ _ _ Hrow) as Hlt.
  pose proof (lookup_lt_Some _ _ _ Hx) as Hlt'.
  pose proof (Forall_lookup_1 _ _ _ _ Hrows Hrow) as Hlen. simpl in Hlen.
  unfold inside, len in *. lia.
Qed.

Lemma inside_cell_at g w h p :
  grid_shape g w h → inside w h p → is_Some (cell_at g p).
Proof.
  intros [Hh Hrows] [Hr Hc].
  destruct (lookup_lt_is_Some_2 g (Z.to_nat p.1)) as [row Hrow].
  { unfold len in Hh. lia. }
  pose proof (Forall_lookup_1 _ _ _ _ Hrows Hrow) as Hlen. simpl in Hlen.
  destruct (lookup_lt_is_Some_2 row (Z.to_nat p.2)) as [x Hx].
  { unfold len in Hlen. lia. }
  exists x. apply cell_at_lookup. eauto 6 with lia.
Qed.

Lemma setitem_in_range {A} (l : list A) (i : Z) (x : A) :
  0 <= i < len l → setitem l i x = Return (<[Z.to_nat i := x]> l).
Proof.
  intros Hi. unfold setitem, py_index. by rewrite bool_decide_eq_true_2.
Qed.

Lemma grid_set_spec g w h r c x :
  grid_shape g w h → inside w h (r, c) →
  ∃ g', grid_set g r c x = Return g' ∧ grid_shape g' w h ∧
        ∀ q, cell_at g' q = if decide (q = (r, c)) then Some x else cell_at g q.
Proof.
  intros [Hh Hrows] [Hr Hc]. simpl in Hr, Hc. unfold grid_set.
  destruct (getitem_in_range g r) as (row & Hrow & ->); [lia|]. simpl.
  pose proof (Forall_lookup_1 _ _ _ _ Hrows Hrow) as Hlen. simpl in Hlen.
  rewrite setitem_in_range by lia. simpl.
  rewrite setitem_in_range by lia.
  eexists. split; [done|]. split.
  - split.
    + unfold len. rewrite length_insert. done.
    + apply Forall_insert; [done|]. unfold len. rewrite length_insert. done.
  - intros [qr qc]. unfold cell_at. simpl. case_bool_decide as Hq.
    + destruct (decide (qr = r)) as [-> | Hne].
      * rewrite list_lookup_insert_eq by (unfold len in Hh; lia).
        rewrite Hrow. simpl.
        destruct (decide (qc = c)) as [-> | Hnc].
        { rewrite decide_True by done.
          apply list_lookup_insert_eq. unfold len in Hlen. lia. }
        rewrite decide_False by congruence.
        apply list_lookup_insert_ne. lia.
      * rewrite decide_False by congruence.
        rewrite list_lookup_insert_ne by lia. done.
    + rewrite decide_False; [done|]. intros [= -> ->]. lia.
Qed.

(** ** The frontier list *)

Lemma pop_spec {A} (l : list A) (i : Z) :
  0 <= i < len l →
  ∃ x l', pop l i = Return (x, l') ∧
          (length l' + 1 = length l)%nat ∧
          ∀ y, y ∈ l ↔ y = x ∨ y ∈ l'.
Proof.
  intros Hi. unfold pop, py_index. rewrite bool_decide_eq_true_2 by done. simpl.
  destruct (lookup_lt_is_Some_2 l (Z.to_nat i)) as [x Hx].
  { unfold len in Hi. lia. }
  rewrite Hx. exists x, (delete (Z.to_nat i) l). split; [done|]. split.
  - rewrite length_delete by eauto. apply lookup_lt_Some in Hx. lia.
  - intros y. rewrite delete_take_drop.
    rewrite <- (take_drop_middle l (Z.to_nat i) x Hx) at 1.
    rewrite !elem_of_app, elem_of_cons. tauto.
Qed.

Lemma add_walls_fold (w h : Z) (visited : gset pos) (row col : Z)
    (ds : list pos) (walls : list wall_t) (e : wall_t) :
  e ∈ foldl (λ walls d,
               let wall_row := row + d.1 `div` 2 in
               let wall_col := col + d.2 `div` 2 in
               let neighbor_row := row + d.1 in
               let neighbor_col := col + d.2 in
               if bool_decide ((0 <= neighbor_row < h ∧ 0 <= neighbor_col < w) ∧
                               (0 <= wall_row < h ∧ 0 <= wall_col < w))
               then if bool_decide ((neighbor_row, neighbor_col) ∉ visited)
                    then walls ++ [(wall_row, wall_col, neighbor_row, neighbor_col)]
                    else walls
               else walls) walls ds
  ↔ e ∈ walls ∨
    ∃ d, d ∈ ds ∧
         inside w h (row + d.1, col + d.2) ∧
         inside w h (row + d.1 `div` 2, col + d.2 `div` 2) ∧
         ((row + d.1, col + d.2) ∉ visited) ∧
         e = (row + d.1 `div` 2, col + d.2 `div` 2, row + d.1, col + d.2).
Proof.
  revert walls. induction ds as [|d ds IH]; intros walls; simpl.
  - split; [by left|]. intros [? | (d & Hd & _)]; [done|]. by apply elem_of_nil in Hd.
  - rewrite IH. clear IH. unfold inside. simpl.
    case_bool_decide as Hin; [case_bool_decide as Hnot|].
    + rewrite elem_of_app, list_elem_of_singleton. split.
      * intros [[? | ->] | (d' & Hd' & ?)]; [by left | |].
        { right. exists d. split; [left|]. tauto. }
        right. exists d'. split; [by right | done].
      * intros [? | (d' & [-> | Hd']%elem_of_cons & ?)]; [by left; left | |].
        { left. right. tauto. }
        right. by exists d'.
    + split.
      * intros [? | (d' & Hd' & ?)]; [by left|].
        right. exists d'. split; [by right | done].
      * intros [? | (d' & [-> | Hd']%elem_of_cons & ?)]; [by left | tauto |].
        right. by exists d'.
    + split.
      * intros [? | (d' & Hd' & ?)]; [by left|].
        right. exists d'. split; [by right | done].
      * intros [? | (d' & [-> | Hd']%elem_of_cons & ?)]; [by left | tauto |].
        right. by exists d'.
Qed.

Lemma adjacent_cases (p q : pos) :
  adjacent p q ↔
  q = (p.1 - 1, p.2) ∨ q = (p.1, p.2 + 1) ∨ q = (p.1 + 1, p.2) ∨ q = (p.1, p.2 - 1).
Proof.
  destruct p as [pr pc], q as [qr qc]. unfold adjacent. simpl. split.
  - intros H.
    assert ((qr = pr - 1 ∧ qc = pc) ∨ (qr = pr ∧ qc = pc + 1) ∨
            (qr = pr + 1 ∧ qc = pc) ∨ (qr = pr ∧ qc = pc - 1)) as Hc by lia.
    destruct Hc as [[-> ->] | [[-> ->] | [[-> ->] | [-> ->]]]]; tauto.
  - intros [[= -> ->] | [[= -> ->] | [[= -> ->] | [= -> ->]]]]; lia.
Qed.

Lemma adjacent_sym (p q : pos) : adjacent p q → adjacent q p.
Proof. unfold adjacent. lia. Qed.

Lemma direction_half (row col : Z) (d : pos) :
  d ∈ directions →
  2 * (row + d.1 `div` 2) - row = row + d.1 ∧
  2 * (col + d.2 `div` 2) - col = col + d.2 ∧
  adjacent (row, col) (row + d.1 `div` 2, col + d.2 `div` 2).
Proof.
  unfold directions, adjacent. rewrite !elem_of_cons.
  intros [-> | [-> | [-> | [-> | Hd]]]]; [..|by apply elem_of_nil in Hd];
    cbn [fst snd]; (split; [|split]); Z.div_mod_to_equations; lia.
Qed.

Lemma half_direction (row col : Z) (q : pos) :
  adjacent (row, col) q →
  ∃ d, d ∈ directions ∧ q = (row + d.1 `div` 2, col + d.2 `div` 2).
Proof.
  intros Hadj. apply adjacent_cases in Hadj. cbn [fst snd] in Hadj.
  unfold directions.
  destruct Hadj as [-> | [-> | [-> | ->]]];
    [exists (-2, 0) | exists (0, 2) | exists (2, 0) | exists (0, -2)];
    (split; [rewrite !elem_of_cons; tauto|]); cbn [fst snd];
    f_equal; Z.div_mod_to_equations; lia.
Qed.

(** The entries appended for the cell [(row, col)] are those of its four
    neighbours two cells away that are inside the grid and not visited. *)
Lemma add_walls_spec (w h : Z) (visited : gset pos) (walls : list wall_t)
    (row col : Z) (e : wall_t) :
  inside w h (row, col) →
  e ∈ add_walls_to_list w h visited walls row col
  ↔ e ∈ walls ∨
    ∃ q, adjacent (row, col) q ∧
         inside w h (2 * q.1 - row, 2 * q.2 - col) ∧
         ((2 * q.1 - row, 2 * q.2 - col) ∉ visited) ∧
         e = (q.1, q.2, 2 * q.1 - row, 2 * q.2 - col).
Proof.
  intros Hin. unfold add_walls_to_list. rewrite add_walls_fold.
  split; (intros [? | H]; [by left | right]).
  - destruct H as (d & Hd & Hn & Hw & Hnot & ->).
    destruct (direction_half row col d Hd) as (E1 & E2 & Hadj).
    exists (row + d.1 `div` 2, col + d.2 `div` 2). cbn [fst snd].
    rewrite E1, E2. done.
  - destruct H as (q & Hadj & Hn & Hnot & ->).
    destruct (half_direction row col q Hadj) as (d & Hd & ->).
    destruct (direction_half row col d Hd) as (E1 & E2 & _).
    cbn [fst snd] in *. rewrite E1, E2 in *.
    exists d. split; [done|]. split; [done|]. split; [|done].
    unfold inside in *. cbn [fst snd] in *. lia.
Qed.

Lemma add_walls_length (w h : Z) (visited : gset pos) (walls : list wall_t)
    (row col : Z) :
  (length (add_walls_to_list w h visited walls row col) <= length walls + 4)%nat.
Proof.
  unfold add_walls_to_list, directions. simpl.
  repeat (case_bool_decide; rewrite ?length_app; simpl); lia.
Qed.

(** ** Counting the cells still to visit *)

Lemma elem_of_all_cells (w h : Z) (p : pos) : p ∈ all_cells w h ↔ inside w h p.
Proof.
  unfold all_cells, inside. rewrite list_elem_of_In. destruct p as [r c].
  rewrite in_prod_iff, <- !list_elem_of_In, !elem_of_seqZ. simpl. lia.
Qed.

Lemma length_all_cells (w h : Z) :
  length (all_cells w h) = (Z.to_nat h * Z.to_nat w)%nat.
Proof. unfold all_cells. by rewrite length_prod, !length_seqZ. Qed.

Lemma unvisited_le (V V' : gset pos) (l : list pos) :
  V ⊆ V' →
  (length (filter (λ p, p ∉ V') l) <= length (filter (λ p, p ∉ V) l))%nat.
Proof.
  intros Hsub. induction l as [|x l IH]; [done|].
  destruct (decide (x ∈ V)) as [Hx | Hx].
  - rewrite !filter_cons_False; [done | tauto | ]. intros Hn. apply Hn. by apply Hsub.
  - rewrite (filter_cons_True (λ p, p ∉ V)) by done.
    rewrite filter_cons. case_decide; simpl; lia.
Qed.

Lemma unvisited_lt (V : gset pos) (c : pos) (l : list pos) :
  c ∈ l → c ∉ V →
  (length (filter (λ p, p ∉ {[c]} ∪ V) l) < length (filter (λ p, p ∉ V) l))%nat.
Proof.
  intros Hin Hc. induction l as [|x l IH]; [by apply elem_of_nil in Hin|].
  apply elem_of_cons in Hin as [<- | Hin].
  - rewrite filter_cons_False.
    + rewrite filter_cons_True by done. simpl.
      pose proof (unvisited_le V ({[c]} ∪ V) l). apply Nat.lt_succ_r.
      apply H. apply union_subseteq_r.
    + intros Hn. apply Hn. apply elem_of_union. left. by apply elem_of_singleton.
  - specialize (IH Hin). rewrite !filter_cons.
    destruct (decide (x ∉ V)) as [Hx | Hx].
    + case_decide; simpl; lia.
    + rewrite decide_False; [done|]. intros Hn. apply Hx. intros HxV.
      apply Hn. apply elem_of_union. by right.
Qed.

(** ** One iteration of the carving loop *)

Ltac zlia :=
  unfold adjacent, inside in *; cbn [fst snd] in *; Z.div_mod_to_equations; lia.

Lemma elem_of_pos_eq (V : gset pos) (a b c d : Z) :
  (a, b) ∈ V → a = c → b = d → (c, d) ∈ V.
Proof. by intros H -> ->. Qed.

Lemma not_elem_of_pos_eq (V : gset pos) (a b c d : Z) :
  (a, b) ∉ V → a = c → b = d → (c, d) ∉ V.
Proof. by intros H -> ->. Qed.

Lemma visited_parity (w h sr sc : Z) (st : carving) (q : pos) :
  carve_inv w h (sr, sc) st →
  q ∈ c_visited st → (q.1 - sr) `mod` 2 = 0 ∧ (q.2 - sc) `mod` 2 = 0.
Proof. intros Hinv Hq. by destruct (inv_visited _ _ _ _ Hinv q Hq) as (_ & _ & ? & ?). Qed.

Lemma visited_inside (w h sr sc : Z) (st : carving) (q : pos) :
  carve_inv w h (sr, sc) st → q ∈ c_visited st → inside w h q.
Proof. intros Hinv Hq. by destruct (inv_visited _ _ _ _ Hinv q Hq) as (? & _). Qed.

Section carving_a_cell.
Variables (w h sr sc : Z) (st : carving).
Hypothesis Hinv : carve_inv w h (sr, sc) st.
Variables (pr pc wr wc nr nc : Z).
Hypothesis Hp : (pr, pc) ∈ c_visited st.
Hypothesis Hadj : adjacent (pr, pc) (wr, wc).
Hypothesis Enr : nr = 2 * wr - pr.
Hypothesis Enc : nc = 2 * wc - pc.
Hypothesis Hn : inside w h (nr, nc).
Hypothesis Hnvis : (nr, nc) ∉ c_visited st.

Lemma wall_inside : inside w h (wr, wc).
Proof using All. pose proof (visited_inside _ _ _ _ _ _ Hinv Hp). zlia. Qed.

Lemma wall_not_open : ¬ open_cell (c_grid st) (wr, wc).
Proof using All.
  intros Hopen. pose proof (visited_parity _ _ _ _ _ _ Hinv Hp) as [Hp1 Hp2].
  destruct (inv_open _ _ _ _ Hinv _ Hopen) as [Hv | [[Ha Hb] | [Ha Hb]]];
    cbn [fst snd] in *.
  - pose proof (visited_parity _ _ _ _ _ _ Hinv Hv). zlia.
  - pose proof (visited_parity _ _ _ _ _ _ Hinv Ha).
    assert (nr = wr - 1 ∧ nc = wc ∨ nr = wr + 1 ∧ nc = wc) as [[E1 E2] | [E1 E2]]
      by zlia; apply Hnvis.
    + eapply elem_of_pos_eq; [exact Ha | lia | lia].
    + eapply elem_of_pos_eq; [exact Hb | lia | lia].
  - pose proof (visited_parity _ _ _ _ _ _ Hinv Ha).
    assert (nr = wr ∧ nc = wc - 1 ∨ nr = wr ∧ nc = wc + 1) as [[E1 E2] | [E1 E2]]
      by zlia; apply Hnvis.
    + eapply elem_of_pos_eq; [exact Ha | lia | lia].
    + eapply elem_of_pos_eq; [exact Hb | lia | lia].
Qed.

Lemma cell_no_open_neighbour (x : pos) :
  open_cell (c_grid st) x → ¬ adjacent x (nr, nc).
Proof using All.
  intros Hopen Hx. destruct x as [xr xc].
  pose proof (visited_parity _ _ _ _ _ _ Hinv Hp) as [Hp1 Hp2].
  destruct (inv_open _ _ _ _ Hinv _ Hopen) as [Hv | [[Ha Hb] | [Ha Hb]]];
    cbn [fst snd] in *.
  - pose proof (visited_parity _ _ _ _ _ _ Hinv Hv). zlia.
  - pose proof (visited_parity _ _ _ _ _ _ Hinv Ha).
    assert (nr = xr - 1 ∧ nc = xc ∨ nr = xr + 1 ∧ nc = xc) as [[E1 E2] | [E1 E2]]
      by zlia; apply Hnvis.
    + eapply elem_of_pos_eq; [exact Ha | lia | lia].
    + eapply elem_of_pos_eq; [exact Hb | lia | lia].
  - pose proof (visited_parity _ _ _ _ _ _ Hinv Ha).
    assert (nr = xr ∧ nc = xc - 1 ∨ nr = xr ∧ nc = xc + 1) as [[E1 E2] | [E1 E2]]
      by zlia; apply Hnvis.
    + eapply elem_of_pos_eq; [exact Ha | lia | lia].
    + eapply elem_of_pos_eq; [exact Hb | lia | lia].
Qed.

Lemma cell_not_open : ¬ open_cell (c_grid st) (nr, nc).
Proof using All.
  intros Hopen. pose proof (visited_parity _ _ _ _ _ _ Hinv Hp) as [Hp1 Hp2].
  destruct (inv_open _ _ _ _ Hinv _ Hopen) as [Hv | [[Ha Hb] | [Ha Hb]]];
    cbn [fst snd] in *.
  - done.
  - pose proof (visited_parity _ _ _ _ _ _ Hinv Ha). zlia.
  - pose proof (visited_parity _ _ _ _ _ _ Hinv Ha). zlia.
Qed.

Lemma wall_only_neighbour (x : pos) :
  open_cell (c_grid st) x → adjacent x (wr, wc) → x = (pr, pc).
Proof using All.
  intros Hopen Hx. destruct x as [xr xc].
  pose proof (visited_parity _ _ _ _ _ _ Hinv Hp) as [Hp1 Hp2].
  destruct (inv_open _ _ _ _ Hinv _ Hopen) as [Hv | [[Ha Hb] | [Ha Hb]]];
    cbn [fst snd] in *.
  - pose proof (visited_parity _ _ _ _ _ _ Hinv Hv).
    assert (xr = pr ∧ xc = pc ∨ xr = nr ∧ xc = nc) as [[-> ->] | [E1 E2]]
      by zlia; [done|].
    exfalso. apply Hnvis. eapply elem_of_pos_eq; [exact Hv | lia | lia].
  - pose proof (visited_parity _ _ _ _ _ _ Hinv Ha). exfalso. zlia.
  - pose proof (visited_parity _ _ _ _ _ _ Hinv Ha). exfalso. zlia.
Qed.
End carving_a_cell.

Lemma carve_step_spec (randint : randint_t) (w h : Z) (s : pos) (k : nat)
    (st : carving) :
  randint_ok randint → carve_inv w h s st → c_walls st ≠ [] →
  ∃ st', carve_step randint w h k st = Return st' ∧
         carve_inv w h s st' ∧
         (potential w h st' < potential w h st)%nat.
Proof.
  intros Hrand Hinv Hne. destruct s as [sr sc]. unfold carve_step.
  destruct (pop_spec (c_walls st) (randint k 0 (len (c_walls st) - 1)))
    as (e & walls' & -> & Hlen & Hmem).
  { assert (0 <= len (c_walls st) - 1) as Hpos.
    { unfold len. destruct (c_walls st); [done | simpl; lia]. }
    pose proof (Hrand k 0 _ Hpos). lia. }
  simpl. destruct e as [[[wr wc] nr] nc].
  destruct (inv_walls _ _ _ _ Hinv wr wc nr nc)
    as [Hn ([pr pc] & Hp & Hadj & Enr & Enc)].
  { apply Hmem. by left. }
  cbn [fst snd] in Enr, Enc.
  destruct (decide ((nr, nc) ∈ c_visited st)) as [Hvis | Hnvis].
  - (* the cell behind the wall was reached in the meantime *)
    rewrite bool_decide_eq_false_2 by tauto. simpl.
    eexists. split; [done|]. split.
    + destruct Hinv. constructor; simpl; try done.
      * intros wr' wc' nr' nc' Hin. apply inv_walls0. apply Hmem. by right.
      * intros p q Hp' Hq Hin.
        destruct (inv_frontier0 p q Hp' Hq Hin) as [? | Hw]; [by left|].
        apply Hmem in Hw as [Heq | ?]; [|by right].
        left. injection Heq as _ _ -> ->. done.
    + unfold potential. simpl. lia.
  - (* the wall and the cell behind it are carved *)
    rewrite bool_decide_eq_true_2 by done.
    unfold is_valid_cell. rewrite bool_decide_eq_true_2 by exact Hn. simpl.
    pose proof (wall_inside w h sr sc st Hinv pr pc wr wc nr nc Hp Hadj Enr Enc Hn Hnvis)
      as Hw.
    destruct (grid_set_spec (c_grid st) w h wr wc " ")
      as (g1 & -> & Hshape1 & Hcell1); [apply Hinv | done |].
    simpl.
    destruct (grid_set_spec g1 w h nr nc " ")
      as (g2 & -> & Hshape2 & Hcell2); [done | done |].
    simpl. eexists. split; [done|].
    assert (∀ q, open_cell g2 q ↔
                 add_vertex (add_vertex (open_cell (c_grid st)) (wr, wc)) (nr, nc) q)
      as Hopen2.
    { intros q. unfold open_cell, add_vertex. rewrite Hcell2, Hcell1.
      repeat case_decide; split; tauto. }
    pose proof (visited_parity _ _ _ _ _ _ Hinv Hp) as [Hp1 Hp2].
    cbn [fst snd] in Hp1, Hp2.
    split.
    + constructor; simpl.
      * done.
      * intros q x. rewrite Hcell2, Hcell1.
        repeat case_decide; [by intros [= <-]; right.. | apply Hinv].
      * apply elem_of_union. right. apply Hinv.
      * intros q [Hq%elem_of_singleton | Hq]%elem_of_union.
        -- subst q. split; [done|]. split; [apply Hopen2; by left|]. zlia.
        -- destruct (inv_visited _ _ _ _ Hinv q Hq) as (? & ? & ? & ?).
           split; [done|]. split; [|done]. apply Hopen2. right. by right.
      * intros q [-> | [-> | Hq]]%Hopen2; cbn [fst snd].
        -- left. apply elem_of_union. left. by apply elem_of_singleton.
        -- right.
           assert ((pr = wr - 1 ∧ pc = wc) ∨ (pr = wr + 1 ∧ pc = wc) ∨
                   (pr = wr ∧ pc = wc - 1) ∨ (pr = wr ∧ pc = wc + 1))
             as [[E1 E2] | [[E1 E2] | [[E1 E2] | [E1 E2]]]] by zlia.
           ++ left. split; apply elem_of_union.
              ** right. eapply elem_of_pos_eq; [exact Hp | lia | lia].
              ** left. apply elem_of_singleton. f_equal; lia.
           ++ left. split; apply elem_of_union.
              ** left. apply elem_of_singleton. f_equal; lia.
              ** right. eapply elem_of_pos_eq; [exact Hp | lia | lia].
           ++ right. split; apply elem_of_union.
              ** right. eapply elem_of_pos_eq; [exact Hp | lia | lia].
              ** left. apply elem_of_singleton. f_equal; lia.
           ++ right. split; apply elem_of_union.
              ** left. apply elem_of_singleton. f_equal; lia.
              ** right. eapply elem_of_pos_eq; [exact Hp | lia | lia].
        -- destruct (inv_open _ _ _ _ Hinv q Hq) as [? | [[? ?] | [? ?]]];
             [left | right; left; split | right; right; split];
             apply elem_of_union; by right.
      * intros wr' wc' nr' nc' Hin. apply add_walls_spec in Hin; [|done].
        destruct Hin as [Hin | (q & Hq & Hqin & Hqn & Heq)].
        -- destruct (inv_walls _ _ _ _ Hinv wr' wc' nr' nc')
             as [? (p' & ? & ? & ? & ?)]; [apply Hmem; by right|].
           split; [done|]. exists p'. split; [|done]. apply elem_of_union. by right.
        -- injection Heq as -> -> -> ->. split; [done|]. exists (nr, nc).
           split; [apply elem_of_union; left; by apply elem_of_singleton|].
           split; [done|]. cbn [fst snd]. lia.
      * intros p' q [Hp'%elem_of_singleton | Hp']%elem_of_union Hq Hin.
        -- subst p'. cbn [fst snd] in *.
           destruct (decide ((2 * q.1 - nr, 2 * q.2 - nc)
                             ∈ ({[ (nr, nc) ]} ∪ c_visited st : gset pos)));
             [by left|].
           right. apply add_walls_spec; [done|]. right. by exists q.
        -- destruct (inv_frontier _ _ _ _ Hinv p' q Hp' Hq Hin) as [? | Hw'].
           { left. apply elem_of_union. by right. }
           apply Hmem in Hw' as [Heq | Hw'].
           { left. apply elem_of_union. left. apply elem_of_singleton.
             by injection Heq as _ _ -> ->. }
           right. apply add_walls_spec; [done|]. by left.
      * eapply tree_ext; [intros x; symmetry; apply Hopen2|].
        apply (tree_add_leaf adjacent adjacent_sym _ (wr, wc) (nr, nc)).
        -- by left.
        -- intros [Heq | Ho].
           ++ injection Heq as -> ->. zlia.
           ++ by eapply (cell_not_open w h sr sc st Hinv pr pc wr wc nr nc Hp Hadj Enr Enc Hn Hnvis).
        -- zlia.
        -- intros x [-> | Hx] Hax; [done|]. exfalso.
           by eapply (cell_no_open_neighbour w h sr sc st Hinv pr pc wr wc nr nc Hp Hadj Enr Enc Hn Hnvis).
        -- apply (tree_add_leaf adjacent adjacent_sym _ (pr, pc) (wr, wc)).
           ++ by destruct (inv_visited _ _ _ _ Hinv _ Hp) as (_ & ? & _).
           ++ by eapply (wall_not_open w h sr sc st Hinv pr pc wr wc nr nc Hp Hadj Enr Enc Hn Hnvis).
           ++ done.
           ++ by eapply (wall_only_neighbour w h sr sc st Hinv pr pc wr wc nr nc Hp Hadj Enr Enc Hn Hnvis).
           ++ apply Hinv.
    + unfold potential. simpl.
      pose proof (add_walls_length w h ({[ (nr, nc) ]} ∪ c_visited st) walls' nr nc).
      pose proof (unvisited_lt (c_visited st) (nr, nc) (all_cells w h)
                    (proj2 (elem_of_all_cells w h (nr, nc)) Hn) Hnvis).
      lia.
Qed.

(** ** The whole carving *)

Lemma carve_spec (randint : randint_t) (w h : Z) (s : pos) :
  randint_ok randint →
  ∀ (fuel k : nat) (st : carving),
    carve_inv w h s st →
    (potential w h st <= fuel)%nat →
    ∃ st', carve randint w h fuel k st = Return (Some st') ∧
           carve_inv w h s st' ∧ c_walls st' = [].
Proof.
  intros Hrand. induction fuel as [|fuel IH]; intros k st Hinv Hpot.
  - destruct (c_walls st) as [|e ws] eqn:E.
    + exists st. simpl. by rewrite E.
    + unfold potential in Hpot. rewrite E in Hpot. simpl in Hpot. lia.
  - destruct (c_walls st) as [|e ws] eqn:E.
    + exists st. simpl. by rewrite E.
    + destruct (carve_step_spec randint w h s k st Hrand Hinv)
        as (st1 & Hstep & Hinv1 & Hlt); [by rewrite E|].
      destruct (IH (S k) st1 Hinv1) as (st' & Hrun & Hinv' & Hdone); [lia|].
      exists st'. simpl. rewrite E, Hstep. simpl. done.
Qed.

Lemma cell_at_walls (n m : nat) (p : pos) (x : string) :
  cell_at (replicate n (replicate m "#")) p = Some x → x = "#".
Proof.
  intros (_ & _ & row & Hrow & Hx)%cell_at_lookup.
  apply lookup_replicate in Hrow as [-> _].
  by apply lookup_replicate in Hx as [-> _].
Qed.

Lemma carve_init_spec (w h : Z) (s : pos) :
  inside w h s →
  ∃ st, carve_init w h s = Return st ∧ carve_inv w h s st ∧
        (potential w h st <= 4 * (Z.to_nat h * Z.to_nat w))%nat.
Proof.
  intros Hs. destruct s as [sr sc]. unfold carve_init.
  set (g0 := replicate (Z.to_nat h) (replicate (Z.to_nat w) "#")).
  assert (grid_shape g0 w h) as Hshape0.
  { split.
    - unfold len, g0. rewrite length_replicate. unfold inside in Hs. simpl in Hs. lia.
    - apply Forall_replicate. unfold len. rewrite length_replicate.
      unfold inside in Hs. simpl in Hs. lia. }
  destruct (grid_set_spec g0 w h sr sc " ") as (g1 & -> & Hshape1 & Hcell1);
    [done | done |].
  simpl. eexists. split; [done|].
  assert (∀ q, open_cell g1 q ↔ q = (sr, sc)) as Hopen.
  { intros q. unfold open_cell. rewrite Hcell1. case_decide; [done|].
    split; [|done]. by intros ?%cell_at_walls. }
  split.
  - constructor; simpl.
    + done.
    + intros q x. rewrite Hcell1. case_decide; [intros [= <-]; by right|].
      intros ?%cell_at_walls. by left.
    + by apply elem_of_singleton.
    + intros q ->%elem_of_singleton. split; [done|]. split; [by apply Hopen|].
      cbn [fst snd]. rewrite !Z.sub_diag. done.
    + intros q ->%Hopen. left. by apply elem_of_singleton.
    + intros wr wc nr nc Hin. apply add_walls_spec in Hin; [|done].
      destruct Hin as [Hin | (q & Hq & Hqin & Hqn & Heq)];
        [by apply elem_of_nil in Hin|].
      injection Heq as -> -> -> ->. split; [done|]. exists (sr, sc).
      split; [by apply elem_of_singleton|]. done.
    + intros p q ->%elem_of_singleton Hq Hin. cbn [fst snd] in *.
      right. apply add_walls_spec; [done|]. right. exists q.
      split; [done|]. split; [done|]. split; [|done].
      intros [= E1 E2]%elem_of_singleton. zlia.
    + eapply tree_ext; [intros x; symmetry; apply Hopen|].
      apply tree_singleton.
  - unfold potential. simpl.
    pose proof (add_walls_length w h {[ (sr, sc) ]} [] sr sc) as Hlen.
    simpl in Hlen.
    pose proof (length_filter_lt (λ p : pos, p ∉ ({[ (sr, sc) ]} : gset pos))
                  (all_cells w h) (sr, sc)) as Hlt.
    rewrite length_all_cells in Hlt.
    assert (length (filter (λ p : pos, p ∉ ({[ (sr, sc) ]} : gset pos)) (all_cells w h))
            < Z.to_nat h * Z.to_nat w)%nat.
    { apply Hlt; [by apply elem_of_all_cells|].
      intros Hn. apply Hn. by apply elem_of_singleton. }
    lia.
Qed.

(** With an empty frontier, the visited cells are closed under the moves
    of two cells that stay inside the grid. *)
Lemma visited_reach (w h sr sc : Z) (st : carving) (ur uc : Z) :
  carve_inv w h (sr, sc) st → c_walls st = [] →
  Z.abs ur + Z.abs uc = 1 →
  ∀ (n : nat) (r c : Z),
    (r, c) ∈ c_visited st →
    inside w h (r + 2 * Z.of_nat n * ur, c + 2 * Z.of_nat n * uc) →
    (r + 2 * Z.of_nat n * ur, c + 2 * Z.of_nat n * uc) ∈ c_visited st.
Proof.
  intros Hinv Hdone Hu.
  assert ((ur = 1 ∧ uc = 0) ∨ (ur = -1 ∧ uc = 0) ∨
          (ur = 0 ∧ uc = 1) ∨ (ur = 0 ∧ uc = -1)) as Hcases by lia.
  induction n as [|n IH]; intros r c Hrc Hin.
  - eapply elem_of_pos_eq; [exact Hrc | lia | lia].
  - pose proof (visited_inside _ _ _ _ _ _ Hinv Hrc) as Hrc_in.
    assert (inside w h (r + 2 * Z.of_nat n * ur, c + 2 * Z.of_nat n * uc)) as Hmid.
    { destruct Hcases as [[-> ->] | [[-> ->] | [[-> ->] | [-> ->]]]]; zlia. }
    specialize (IH r c Hrc Hmid).
    destruct (inv_frontier _ _ _ _ Hinv _
                (r + 2 * Z.of_nat n * ur + ur, c + 2 * Z.of_nat n * uc + uc) IH)
      as [Hv | Hw].
    + zlia.
    + cbn [fst snd].
      destruct Hcases as [[-> ->] | [[-> ->] | [[-> ->] | [-> ->]]]]; zlia.
    + cbn [fst snd] in Hv. eapply elem_of_pos_eq; [exact Hv | lia | lia].
    + rewrite Hdone in Hw. by apply elem_of_nil in Hw.
Qed.

Lemma lattice_visited (w h sr sc : Z) (st : carving) (i j : Z) :
  carve_inv w h (sr, sc) st → c_walls st = [] →
  inside w h (sr + 2 * i, sc + 2 * j) →
  (sr + 2 * i, sc + 2 * j) ∈ c_visited st.
Proof.
  intros Hinv Hdone Hin.
  pose proof (inv_start _ _ _ _ Hinv) as Hs.
  pose proof (visited_inside _ _ _ _ _ _ Hinv Hs) as Hs_in.
  assert ((sr + 2 * i, sc) ∈ c_visited st) as Hrow.
  { destruct (decide (0 <= i)).
    - pose proof (visited_reach w h sr sc st 1 0 Hinv Hdone eq_refl
                    (Z.to_nat i) sr sc Hs) as H.
      eapply elem_of_pos_eq; [apply H | lia | lia]. zlia.
    - pose proof (visited_reach w h sr sc st (-1) 0 Hinv Hdone eq_refl
                    (Z.to_nat (- i)) sr sc Hs) as H.
      eapply elem_of_pos_eq; [apply H | lia | lia]. zlia. }
  destruct (decide (0 <= j)).
  - pose proof (visited_reach w h sr sc st 0 1 Hinv Hdone eq_refl
                  (Z.to_nat j) (sr + 2 * i) sc Hrow) as H.
    eapply elem_of_pos_eq; [apply H | lia | lia]. zlia.
  - pose proof (visited_reach w h sr sc st 0 (-1) Hinv Hdone eq_refl
                  (Z.to_nat (- j)) (sr + 2 * i) sc Hrow) as H.
    eapply elem_of_pos_eq; [apply H | lia | lia]. zlia.
Qed.

(** The carving, from its first to its last state. *)
Lemma carve_run_spec (randint : randint_t) (fuel : nat) (w h : Z) (s : pos) :
  randint_ok randint →
  inside w h s →
  (4 * (Z.to_nat h * Z.to_nat w) <= fuel)%nat →
  ∃ st, carve_run randint fuel w h s = Return (Some st) ∧
        carve_inv w h s st ∧ c_walls st = [].
Proof.
  intros Hrand Hs Hfuel. unfold carve_run.
  destruct (carve_init_spec w h s Hs) as (st0 & -> & Hinv0 & Hpot).
  simpl. apply carve_spec; [done | done | lia].
Qed.

(** ** Item placement *)

Lemma scan_row_spec (g : grid_t) (w h : Z) (s : pos) (row : Z) (cols : list Z)
    (acc : list pos) :
  grid_shape g w h → 0 <= row < h → Forall (λ c, 0 <= c < w) cols →
  ∃ found, scan_row g s row cols acc = Return (acc ++ found) ∧
           (∀ p, p ∈ found ↔
                 p.1 = row ∧ p.2 ∈ cols ∧ cell_at g p = Some " " ∧ p ≠ s) ∧
           (NoDup cols → NoDup found).
Proof.
  intros Hshape Hrow. revert acc.
  induction cols as [|col cols IH]; intros acc Hcols; simpl.
  - exists []. rewrite app_nil_r. split; [done|]. split; [|constructor].
    intros p. split; [by intros ?%elem_of_nil|].
    by intros (_ & ?%elem_of_nil & _).
  - apply Forall_cons in Hcols as [Hcol Hcols].
    destruct Hshape as [Hh Hrows].
    destruct (getitem_in_range g row) as (r & Hr & ->); [lia|]. simpl.
    pose proof (Forall_lookup_1 _ _ _ _ Hrows Hr) as Hlen. simpl in Hlen.
    destruct (getitem_in_range r col) as (x & Hx & ->); [lia|]. simpl.
    assert (cell_at g (row, col) = Some x) as Hcell.
    { apply cell_at_lookup. cbn [fst snd]. split; [lia|]. split; [lia|]. eauto. }
    case_bool_decide as Hd.
    + destruct (IH (acc ++ [(row, col)]) Hcols) as (found & -> & Hfound & Hnd).
      exists ((row, col) :: found). rewrite <- app_assoc. split; [done|]. split.
      * intros p. rewrite elem_of_cons, Hfound, elem_of_cons. split.
        -- intros [-> | (? & ? & ? & ?)]; [|tauto]. cbn [fst snd].
           destruct Hd as [-> ?]. tauto.
        -- intros (? & [? | ?] & ? & ?); [|tauto]. left.
           destruct p; simpl in *; congruence.
      * intros [Hnot Hnd']%NoDup_cons. apply NoDup_cons. split; [|by apply Hnd].
        intros (_ & Hin & _)%Hfound. done.
    + destruct (IH acc Hcols) as (found & -> & Hfound & Hnd).
      exists found. split; [done|]. split.
      * intros p. rewrite Hfound, elem_of_cons. split; [tauto|].
        intros (? & [? | ?] & ? & ?); [|tauto]. exfalso. apply Hd.
        destruct p as [pr pcol]; simpl in *; subst. split; [congruence | done].
      * intros [_ ?]%NoDup_cons. by apply Hnd.
Qed.

Lemma scan_rows_spec (g : grid_t) (w h : Z) (s : pos) (rows cols : list Z)
    (acc : list pos) :
  grid_shape g w h →
  Forall (λ r, 0 <= r < h) rows → Forall (λ c, 0 <= c < w) cols →
  ∃ found, scan_rows g s rows cols acc = Return (acc ++ found) ∧
           (∀ p, p ∈ found ↔
                 p.1 ∈ rows ∧ p.2 ∈ cols ∧ cell_at g p = Some " " ∧ p ≠ s) ∧
           (NoDup rows → NoDup cols → NoDup found).
Proof.
  intros Hshape Hrows Hcols. revert acc.
  induction rows as [|row rows IH]; intros acc; simpl.
  - exists []. rewrite app_nil_r. split; [done|]. split; [|constructor].
    intros p. split; [by intros ?%elem_of_nil|].
    by intros (?%elem_of_nil & _).
  - apply Forall_cons in Hrows as [Hrow Hrows].
    destruct (scan_row_spec g w h s row cols acc Hshape Hrow Hcols)
      as (found1 & -> & Hfound1 & Hnd1).
    simpl. destruct (IH Hrows (acc ++ found1)) as (found2 & -> & Hfound2 & Hnd2).
    exists (found1 ++ found2). rewrite <- app_assoc. split; [done|]. split.
    + intros p. rewrite elem_of_app, Hfound1, Hfound2, elem_of_cons. split.
      * intros [(? & ? & ? & ?) | (? & ? & ? & ?)]; tauto.
      * intros ([? | ?] & ? & ? & ?); tauto.
    + intros [Hnot Hndr]%NoDup_cons Hndc. apply NoDup_app.
      split; [by apply Hnd1|]. split; [|by apply Hnd2].
      intros p (E & _)%Hfound1 (Hin & _)%Hfound2. by rewrite E in Hin.
Qed.

Lemma pop_last_Some {A} (l : list A) (x : A) (rest : list A) :
  pop_last l = Some (x, rest) → l = rest ++ [x].
Proof.
  unfold pop_last. destruct (reverse l) as [|y r] eqn:E; [done|].
  intros [= -> <-]. rewrite <- (reverse_involutive l), E.
  by rewrite reverse_cons.
Qed.

Lemma dict_set_elem {V} (d : dict string V) (k k' : string) (v v' : V) :
  (k', v') ∈ dict_set d k v → (k', v') ∈ d ∨ (k', v') = (k, v).
Proof.
  induction d as [|[k0 v0] d IH]; simpl.
  - intros ?%list_elem_of_singleton. by right.
  - case_decide.
    + intros [? | ?]%elem_of_cons; [by right | left; apply elem_of_cons; by right].
    + intros [? | ?]%elem_of_cons; [left; apply elem_of_cons; by left|].
      destruct IH as [? | ?]; [done | left; apply elem_of_cons; by right | by right].
Qed.

Lemma dict_set_keys {V} (d : dict string V) (k : string) (v : V) (k' : string) :
  k' ∈ (dict_set d k v).*1 → k' ∈ d.*1 ∨ k' = k.
Proof.
  induction d as [|[k0 v0] d IH]; simpl.
  - intros ?%list_elem_of_singleton. by right.
  - case_decide; simpl.
    + intros [? | ?]%elem_of_cons; [by right | left; apply elem_of_cons; by right].
    + intros [? | ?]%elem_of_cons; [left; apply elem_of_cons; by left|].
      destruct IH as [? | ?]; [done | left; apply elem_of_cons; by right | by right].
Qed.

Lemma dict_set_NoDup {V} (d : dict string V) (k : string) (v : V) :
  NoDup d.*1 → NoDup (dict_set d k v).*1.
Proof.
  induction d as [|[k0 v0] d IH]; simpl.
  - intros _. apply NoDup_singleton.
  - intros [Hnot Hnd]%NoDup_cons. case_decide as Hk; simpl.
    + subst k0. by apply NoDup_cons.
    + apply NoDup_cons. split; [|by apply IH].
      intros [? | ?]%dict_set_keys; [done | congruence].
Qed.

Lemma dict_get_elem {V} (d : dict string V) (k : string) (v : V) :
  NoDup d.*1 → (k, v) ∈ d → dict_get d k = Some v.
Proof.
  induction d as [|[k0 v0] d IH]; simpl.
  - by intros _ ?%elem_of_nil.
  - intros [Hnot Hnd]%NoDup_cons [Heq | Hin]%elem_of_cons.
    + injection Heq as -> ->. by rewrite decide_True.
    + rewrite decide_False; [by apply IH|]. intros ->. apply Hnot.
      apply list_elem_of_fmap. by exists (k, v).
Qed.

(** What the colour loop keeps true: the cells still available are a
    front part of the shuffled list, every placed item lies on a cell of that
    list, and the books repeat the doors. *)
Lemma place_colors_spec (cells : list pos) (cs : list string) (pl : placing) :
  (∃ used, cells = p_empty_cells pl ++ used) →
  Forall (λ kv, kv.2 ∈ cells) (p_keys pl) →
  Forall (λ kv, kv.2 ∈ cells) (p_doors pl) →
  p_books pl = p_doors pl →
  NoDup (p_doors pl).*1 →
  let pl' := foldl place_color pl cs in
  (∃ used, cells = p_empty_cells pl' ++ used) ∧
  Forall (λ kv, kv.2 ∈ cells) (p_keys pl') ∧
  Forall (λ kv, kv.2 ∈ cells) (p_doors pl') ∧
  p_books pl' = p_doors pl' ∧
  NoDup (p_doors pl').*1.
Proof.
  revert pl. induction cs as [|color cs IH]; intros pl Hpre Hk Hd Hb Hnd; simpl.
  - done.
  - apply IH; clear IH; unfold place_color.
    + destruct Hpre as [used ->].
      destruct (pop_last (p_empty_cells pl)) as [[kp rest]|] eqn:E1; simpl.
      * apply pop_last_Some in E1. rewrite E1.
        destruct (pop_last rest) as [[dp rest']|] eqn:E2; simpl.
        -- apply pop_last_Some in E2. rewrite E2.
           exists ([dp; kp] ++ used). by rewrite <- !app_assoc.
        -- exists ([kp] ++ used). by rewrite <- !app_assoc.
      * rewrite E1. simpl. by exists used.
    + destruct Hpre as [used Hpre].
      destruct (pop_last (p_empty_cells pl)) as [[kp rest]|] eqn:E1; simpl.
      * assert (Forall (λ kv : string * pos, kv.2 ∈ cells)
                       (dict_set (p_keys pl) color kp)) as Hk'.
        { apply Forall_forall. intros [c q] [Hin | Heq]%dict_set_elem.
          - rewrite Forall_forall in Hk. by apply (Hk (c, q)).
          - injection Heq as -> ->. simpl. rewrite Hpre.
            apply pop_last_Some in E1. rewrite E1.
            rewrite !elem_of_app, list_elem_of_singleton. tauto. }
        by destruct (pop_last rest) as [[dp rest']|].
      * by rewrite E1.
    + destruct Hpre as [used Hpre].
      assert (∀ l : list pos, (∃ back, p_empty_cells pl = l ++ back) →
                match pop_last l with
                | Some (dp, _) => dp ∈ cells
                | None => True
                end) as Hlast.
      { intros l [back Hl]. destruct (pop_last l) as [[dp rest']|] eqn:E; [|done].
        apply pop_last_Some in E. rewrite Hpre, Hl, E.
        rewrite !elem_of_app, list_elem_of_singleton. tauto. }
      destruct (pop_last (p_empty_cells pl)) as [[kp rest]|] eqn:E1; simpl.
      * pose proof (Hlast rest) as H.
        destruct (pop_last rest) as [[dp rest']|] eqn:E2; simpl; [|done].
        apply Forall_forall. intros [c q] [Hin | Heq]%dict_set_elem.
        -- rewrite Forall_forall in Hd. by apply (Hd (c, q)).
        -- injection Heq as -> ->. simpl. apply H.
           apply pop_last_Some in E1. by exists [kp].
      * by rewrite E1.
    + destruct (pop_last (p_empty_cells pl)) as [[kp rest]|] eqn:E1; simpl.
      * destruct (pop_last rest) as [[dp rest']|]; simpl; [|done]. by rewrite Hb.
      * by rewrite E1.
    + destruct (pop_last (p_empty_cells pl)) as [[kp rest]|] eqn:E1; simpl.
      * destruct (pop_last rest) as [[dp rest']|]; simpl; [|done].
        by apply dict_set_NoDup.
      * by rewrite E1.
Qed.

Lemma seqZ_snoc (n : nat) :
  seqZ 0 (Z.of_nat (S n)) = seqZ 0 (Z.of_nat n) ++ [Z.of_nat n].
Proof.
  unfold seqZ. rewrite !Nat2Z.id, seq_S, fmap_app. simpl.
  by rewrite Z.add_0_r.
Qed.

Lemma seqZ_to_nat (x : Z) : seqZ 0 x = seqZ 0 (Z.of_nat (Z.to_nat x)).
Proof. unfold seqZ. by rewrite Nat2Z.id. Qed.

(** The portal loop never fails, and over a duplicate-free list it builds
    a symmetric map between cells of the list. *)
Lemma place_portals_spec (cells : list pos) (n : nat) :
  ∃ P : gmap pos pos,
    foldl (place_portal cells) (Return ∅) ((λ j, 2 * j) <$> seqZ 0 (Z.of_nat n))
      = Return P ∧
    (NoDup cells →
     ∀ a b, P !! a = Some b →
       P !! b = Some a ∧
       ∃ ta tb : nat, (ta < 2 * n)%nat ∧ (tb < 2 * n)%nat ∧
                      cells !! ta = Some a ∧ cells !! tb = Some b).
Proof.
  induction n as [|n (P & HP & Hinv)].
  - exists ∅. split; [done|]. intros _ a b Hab. by rewrite lookup_empty in Hab.
  - rewrite seqZ_snoc, fmap_app, foldl_app, HP. simpl. unfold place_portal. simpl.
    case_bool_decide as Hlen.
    + destruct (getitem_in_range cells (2 * Z.of_nat n)) as (pos1 & H1 & ->); [lia|].
      simpl.
      destruct (getitem_in_range cells (2 * Z.of_nat n + 1)) as (pos2 & H2 & ->);
        [lia|].
      simpl. eexists. split; [done|]. intros Hnd a b Hab.
      replace (Z.to_nat (2 * Z.of_nat n)) with (2 * n)%nat in H1 by lia.
      replace (Z.to_nat (2 * Z.of_nat n + 1)) with (2 * n + 1)%nat in H2 by lia.
      assert (pos1 ≠ pos2) as Hne.
      { intros ->. pose proof (NoDup_lookup _ _ _ _ Hnd H1 H2). lia. }
      assert (∀ x (t : nat), (t < 2 * n)%nat → cells !! t = Some x →
                x ≠ pos1 ∧ x ≠ pos2) as Hfresh.
      { intros x t Ht Hx. split; intros ->.
        - pose proof (NoDup_lookup _ _ _ _ Hnd H1 Hx). lia.
        - pose proof (NoDup_lookup _ _ _ _ Hnd H2 Hx). lia. }
      destruct (decide (a = pos2)) as [-> | Ha2].
      { rewrite lookup_insert_eq in Hab. injection Hab as <-.
        rewrite lookup_insert_ne by done. rewrite lookup_insert_eq.
        split; [done|]. exists (2 * n + 1)%nat, (2 * n)%nat.
        split; [lia|]. split; [lia|]. done. }
      rewrite lookup_insert_ne in Hab by done.
      destruct (decide (a = pos1)) as [-> | Ha1].
      { rewrite lookup_insert_eq in Hab. injection Hab as <-.
        rewrite lookup_insert_eq.
        split; [done|]. exists (2 * n)%nat, (2 * n + 1)%nat.
        split; [lia|]. split; [lia|]. done. }
      rewrite lookup_insert_ne in Hab by done.
      destruct (Hinv Hnd a b Hab) as (Hba & ta & tb & Hta & Htb & Ea & Eb).
      destruct (Hfresh b tb Htb Eb) as [Hb1 Hb2].
      rewrite !lookup_insert_ne by done.
      split; [done|]. exists ta, tb. split; [lia|]. split; [lia|]. done.
    + exists P. split; [done|]. intros Hnd a b Hab.
      destruct (Hinv Hnd a b Hab) as (Hba & ta & tb & Hta & Htb & Ea & Eb).
      split; [done|]. exists ta, tb. split; [lia|]. split; [lia|]. done.
Qed.

(** Placement returns on every grid of at least one row, and what it
    places obeys the invariant of maze definitions. *)
Lemma place_special_items_spec (shuffle : shuffle_t) (g : grid_t) (w h : Z)
    (s : pos) (num_keys num_doors num_portals : Z) :
  grid_shape g w h → 0 < h →
  ∃ ks ds bs ps,
    place_special_items shuffle g s num_keys num_doors num_portals
      = Return (ks, ds, bs, ps) ∧
    (shuffle_ok shuffle → items_ok g s ks ds bs ps).
Proof.
  intros Hshape Hh. unfold place_special_items.
  destruct (Hshape) as [Hlen Hrows].
  destruct (getitem_in_range g 0) as (row0 & Hrow0 & ->); [lia|]. simpl.
  pose proof (Forall_lookup_1 _ _ _ _ Hrows Hrow0) as Hw. simpl in Hw.
  destruct (scan_rows_spec g w h s (seqZ 0 (len g)) (seqZ 0 (len row0)) [] Hshape)
    as (found & -> & Hfound & Hnd).
  { apply Forall_forall. intros r Hr%elem_of_seqZ. lia. }
  { apply Forall_forall. intros c Hc%elem_of_seqZ. lia. }
  simpl.
  set (cells := shuffle found).
  set (count := Z.min (Z.min num_keys (len colors)) (len cells `div` 2)).
  set (pl0 := {| p_empty_cells := cells; p_keys := []; p_doors := []; p_books := [] |}).
  destruct (place_colors_spec cells (take (Z.to_nat count) colors) pl0)
    as ([used Hused] & Hk & Hd & Hb & Hndd).
  { by exists []; rewrite app_nil_r. }
  { constructor. }
  { constructor. }
  { done. }
  { constructor. }
  set (pl := foldl place_color pl0 (take (Z.to_nat count) colors)) in *.
  unfold range_by_2. rewrite seqZ_to_nat.
  destruct (place_portals_spec (p_empty_cells pl)
              (Z.to_nat ((Z.min (num_portals * 2) (len (p_empty_cells pl)) + 1) `div` 2)))
    as (P & -> & HP).
  simpl. eexists _, _, _, _. split; [done|].
  intros Hshuffle.
  assert (found ≡ₚ cells) as Hperm by (symmetry; apply Hshuffle).
  assert (∀ p, p ∈ cells → item_cell g s p) as Hcells.
  { intros p Hp. rewrite <- Hperm in Hp. apply Hfound in Hp as (_ & _ & Hc & Hne).
    split; [|done]. eapply in_bounds_inside; [done|]. by eapply cell_at_inside. }
  assert (NoDup cells) as Hndc.
  { rewrite <- Hperm. apply Hnd; apply NoDup_seqZ. }
  unfold items_ok. split; [|split; [|split; [|split]]].
  - eapply Forall_impl; [exact Hk|]. intros kv. apply Hcells.
  - eapply Forall_impl; [exact Hd|]. intros kv. apply Hcells.
  - rewrite Hb. eapply Forall_impl; [exact Hd|]. intros kv. apply Hcells.
  - intros a b Hab.
    assert (NoDup (p_empty_cells pl)) as Hndp.
    { rewrite Hused in Hndc. by apply NoDup_app in Hndc as [? _]. }
    destruct (HP Hndp a b Hab) as (Hba & ta & tb & _ & _ & Ea & Eb).
    assert (∀ x (t : nat), p_empty_cells pl !! t = Some x → x ∈ cells) as Hsub.
    { intros x t Hx. rewrite Hused. apply elem_of_app. left.
      by eapply list_elem_of_lookup_2. }
    split; [eapply Hcells, Hsub, Ea|]. split; [eapply Hcells, Hsub, Eb | done].
  - rewrite Hb. apply Forall_forall. intros [c q] Hin. by apply dict_get_elem.
Qed.

(** ** Generated mazes *)

Example carve_5x5_pick_first :
  generate_maze pick_first 100 5 5 (1, 1)
    = Return (Some [["#"; "#"; "#"; "#"; "#"];
                    ["#"; " "; " "; " "; "#"];
                    ["#"; " "; "#"; " "; "#"];
                    ["#"; " "; "#"; " "; "#"];
                    ["#"; "#"; "#"; "#"; "#"]]).
Proof. vm_compute. reflexivity. Qed.

Example carve_out_of_fuel :
  generate_maze pick_first 3 5 5 (1, 1) = Return None.
Proof. vm_compute. reflexivity. Qed.

Example carve_start_outside :
  generate_maze pick_first 100 5 5 (5, 1) = Raise IndexError.
Proof. vm_compute. reflexivity. Qed.

Example place_on_5x5 :
  place_special_items reverse
    [["#"; "#"; "#"; "#"; "#"];
     ["#"; " "; " "; " "; "#"];
     ["#"; "#"; "#"; " "; "#"];
     ["#"; " "; " "; " "; "#"];
     ["#"; "#"; "#"; "#"; "#"]] (1, 1) 1 5 2
  = Return ([("blue", (1, 2))], [("blue", (1, 3))], [("blue", (1, 3))],
            list_to_map [((2, 3), (3, 1)); ((3, 1), (2, 3));
                         ((3, 2), (3, 3)); ((3, 3), (3, 2))]).
Proof. vm_compute. reflexivity. Qed.

Lemma ensure_odd_spec (n : Z) :
  Z.odd (ensure_odd n) = true ∧
  (Z.even n = true → ensure_odd n = n + 1) ∧
  (Z.odd n = true → ensure_odd n = n).
Proof.
  unfold ensure_odd. case_bool_decide as Hn.
  - split; [|split].
    + apply Z.odd_spec. exists (n `div` 2). Z.div_mod_to_equations. lia.
    + done.
    + intros [m Hm]%Z.odd_spec. exfalso. Z.div_mod_to_equations. lia.
  - split; [|split].
    + apply Z.odd_spec. exists (n `div` 2). Z.div_mod_to_equations. lia.
    + intros [m Hm]%Z.even_spec. exfalso. Z.div_mod_to_equations. lia.
    + done.
Qed.

Lemma generate_maze_run (randint : randint_t) (fuel : nat) (w h : Z) (s : pos)
    (st : carving) :
  carve_run randint fuel w h s = Return (Some st) →
  generate_maze randint fuel w h s = Return (Some (c_grid st)).
Proof. intros H. unfold generate_maze. by rewrite H. Qed.

(** C7. Whatever the random draws, and for every requested size once
    made odd and every start inside the grid, [4 * width * height]
    iterations are enough for the carving loop to stop with an empty
    frontier. In the grid it returns every cell is ["#"] or [" "], every
    lattice cell (an even number of rows and columns away from the start)
    inside the grid is open, every non-wall cell is joined to the start by
    exactly one simple path, and more generally any two open cells are joined
    by exactly one simple path: the open cells form a tree.
    [generate_complete_maze] carves with even sizes incremented. *)
Theorem carving_builds_spanning_tree
    (randint : randint_t) (fuel : nat) (width height w h : Z) (start_pos : pos) :
  randint_ok randint →
  w = ensure_odd width →
  h = ensure_odd height →
  inside w h start_pos →
  (4 * (Z.to_nat h * Z.to_nat w) <= fuel)%nat →
  (Z.odd w = true ∧ Z.odd h = true ∧
   (Z.even width = true → w = width + 1) ∧ (Z.odd width = true → w = width) ∧
   (Z.even height = true → h = height + 1) ∧ (Z.odd height = true → h = height)) ∧
  ∃ st,
    carve_run randint fuel w h start_pos = Return (Some st) ∧
    c_walls st = [] ∧
    generate_maze randint fuel w h start_pos = Return (Some (c_grid st)) ∧
    (∀ (shuffle : shuffle_t) (id : Z) (nm : string),
       ∃ m, generate_complete_maze randint shuffle fuel width height start_pos id nm
              = Return (Some m) ∧
            grid m = c_grid st) ∧
    grid_shape (c_grid st) w h ∧
    (∀ p x, cell_at (c_grid st) p = Some x → x = "#" ∨ x = " ") ∧
    (∀ p, lattice_cell start_pos p → in_bounds (c_grid st) p →
          open_cell (c_grid st) p) ∧
    (∀ p x, cell_at (c_grid st) p = Some x → x ≠ "#" →
            ∃ l, maze_path (c_grid st) start_pos p l ∧
                 ∀ l', maze_path (c_grid st) start_pos p l' → l' = l) ∧
    tree (open_cell (c_grid st)) adjacent.
Proof.
  intros Hrand -> -> Hs Hfuel. split.
  { destruct (ensure_odd_spec width) as (? & ? & ?).
    destruct (ensure_odd_spec height) as (? & ? & ?). tauto. }
  destruct (carve_run_spec randint fuel _ _ start_pos Hrand Hs Hfuel)
    as (st & Hrun & Hinv & Hdone).
  exists st. split; [done|]. split; [done|].
  pose proof (generate_maze_run _ _ _ _ _ _ Hrun) as Hgen.
  split; [done|].
  pose proof (inv_shape _ _ _ _ Hinv) as Hshape.
  assert (0 < ensure_odd height) as Hh by (unfold inside in Hs; lia).
  assert (open_cell (c_grid st) start_pos) as Hstart.
  { by destruct (inv_visited _ _ _ _ Hinv _ (inv_start _ _ _ _ Hinv)) as (_ & ? & _). }
  split; [|split; [done|split; [apply Hinv|split; [|split; [|apply Hinv]]]]].
  - intros shuffle id nm. unfold generate_complete_maze. rewrite Hgen.
    destruct (place_special_items_spec shuffle (c_grid st) _ _ start_pos 5 5 2
                Hshape Hh) as (ks & ds & bs & ps & -> & _).
    simpl. eexists. split; [done|]. done.
  - intros p (i & j & ->) Hin. destruct start_pos as [sr sc]. cbn [fst snd] in *.
    apply (in_bounds_inside _ _ _ _ Hshape) in Hin.
    pose proof (lattice_visited _ _ _ _ _ i j Hinv Hdone Hin) as Hv.
    by destruct (inv_visited _ _ _ _ Hinv _ Hv) as (_ & ? & _).
  - intros p x Hx Hne.
    assert (open_cell (c_grid st) p) as Hp.
    { unfold open_cell. rewrite Hx. f_equal.
      by destruct (inv_cells _ _ _ _ Hinv p x Hx). }
    apply (inv_tree _ _ _ _ Hinv); done.
Qed.

Lemma carving_builds_spanning_tree_witness :
  ∃ st,
    carve_run pick_first 100 5 5 (1, 1) = Return (Some st) ∧
    c_walls st = [] ∧
    generate_maze pick_first 100 5 5 (1, 1) = Return (Some (c_grid st)) ∧
    tree (open_cell (c_grid st)) adjacent.
Proof.
  destruct (carving_builds_spanning_tree pick_first 100 4 5 5 5 (1, 1))
    as [_ (st & Hrun & Hdone & Hgen & _ & _ & _ & _ & _ & Htree)].
  - intros k a b Hab. unfold pick_first. lia.
  - reflexivity.
  - reflexivity.
  - unfold inside. simpl. lia.
  - simpl. lia.
  - exists st. split; [exact Hrun|]. split; [exact Hdone|]. split; [exact Hgen|].
    exact Htree.
Defined.

(** C8. The three shipped mazes obey the invariant of maze definitions:
    every key, door, book and portal end lies inside the grid on a [" "]
    cell other than the start, the portal map is symmetric, and the book of
    each door colour is recorded on the door's cell. So does what
    [place_special_items] returns on any grid of equal-length rows, for every
    shuffle, and hence every maze built by [generate_complete_maze]. *)
Theorem maze_definitions_well_formed (shuffle : shuffle_t) :
  shuffle_ok shuffle →
  (maze_ok MAZE_1 ∧ maze_ok MAZE_2 ∧ maze_ok MAZE_3) ∧
  (∀ (g : grid_t) (w h : Z) (start_pos : pos) (num_keys num_doors num_portals : Z),
     grid_shape g w h → 0 < h →
     ∃ ks ds bs ps,
       place_special_items shuffle g start_pos num_keys num_doors num_portals
         = Return (ks, ds, bs, ps) ∧
       items_ok g start_pos ks ds bs ps) ∧
  (∀ (randint : randint_t) (fuel : nat) (width height : Z) (start : pos)
     (id : Z) (nm : string),
     randint_ok randint →
     inside (ensure_odd width) (ensure_odd height) start →
     (4 * (Z.to_nat (ensure_odd height) * Z.to_nat (ensure_odd width)) <= fuel)%nat →
     ∃ m, generate_complete_maze randint shuffle fuel width height start id nm
            = Return (Some m) ∧
          start_pos m = start ∧
          maze_ok m).
Proof.
  intros Hshuffle. split; [|split].
  - split; [|split]; apply (bool_decide_unpack _); vm_compute; exact I.
  - intros g w h s nk nd np Hshape Hh.
    destruct (place_special_items_spec shuffle g w h s nk nd np Hshape Hh)
      as (ks & ds & bs & ps & Hrun & Hok).
    exists ks, ds, bs, ps. split; [done|]. by apply Hok.
  - intros randint fuel width height s id nm Hrand Hs Hfuel.
    destruct (carve_run_spec randint fuel _ _ s Hrand Hs Hfuel)
      as (st & Hrun & Hinv & Hdone).
    pose proof (inv_shape _ _ _ _ Hinv) as Hshape.
    assert (0 < ensure_odd height) as Hh by (unfold inside in Hs; lia).
    unfold generate_complete_maze.
    rewrite (generate_maze_run _ _ _ _ _ _ Hrun).
    destruct (place_special_items_spec shuffle (c_grid st) _ _ s 5 5 2 Hshape Hh)
      as (ks & ds & bs & ps & -> & Hok).
    simpl. eexists. split; [done|]. split; [done|].
    unfold maze_ok. simpl. by apply Hok.
Qed.

Lemma maze_definitions_well_formed_witness :
  maze_ok MAZE_1 ∧
  ∃ ks ds bs ps,
    place_special_items reverse (grid MAZE_1) (1, 1) 5 5 2 = Return (ks, ds, bs, ps) ∧
    items_ok (grid MAZE_1) (1, 1) ks ds bs ps.
Proof.
  destruct (maze_definitions_well_formed reverse) as [[H1 _] [Hplace _]].
  - intros l. apply reverse_Permutation.
  - split; [exact H1|].
    apply (Hplace (grid MAZE_1) 11 11 (1, 1) 5 5 2).
    + apply (bool_decide_unpack _). vm_compute. exact I.
    + lia.
Defined.

(** * Further properties *)

(** ** Session keys and transport keys *)

Lemma pretty_N_go_has_char (c : ascii) (x : N) (s : string) :
  (∀ d, pretty_N_char d ≠ c) →
  has_char c (pretty_N_go x s) = has_char c s.
Proof.
  intros Hc. revert s. induction (N.lt_wf_0 x) as [x _ IH]; intros s.
  assert (x = 0 ∨ 0 < x)%N as [-> | Hx] by lia.
  - by rewrite pretty_N_go_0.
  - rewrite pretty_N_go_step by done. rewrite IH by (by apply N.div_lt).
    simpl. by rewrite decide_False by apply Hc.
Qed.

Lemma pretty_Z_has_char (c : ascii) (z : Z) :
  (∀ d, pretty_N_char d ≠ c) → c ≠ "-"%char →
  has_char c (pretty z) = false.
Proof.
  intros Hc Hdash.
  assert (∀ x : N, has_char c (pretty x) = false) as HN.
  { intros x. unfold pretty, pretty_N. case_decide.
    - simpl. rewrite decide_False; [done|]. apply (Hc 0%N).
    - by rewrite pretty_N_go_has_char. }
  destruct z as [|p|p]; unfold pretty, pretty_Z.
  - simpl. rewrite decide_False; [done|]. apply (Hc 0%N).
  - apply HN.
  - simpl. rewrite decide_False by done. apply HN.
Qed.

Lemma append_separator_inj (c : ascii) (a a' b b' : string) :
  has_char c a = false → has_char c a' = false →
  a +:+ String c b = a' +:+ String c b' → a = a' ∧ b = b'.
Proof.
  revert a'. induction a as [|x a IH]; intros [|x' a']; simpl.
  - by intros _ _ [= ->].
  - case_decide as Hx; [done|]. intros _ _ [= E _]. congruence.
  - case_decide as Hx; [done|]. intros _ _ [= E _]. congruence.
  - case_decide; [done|]. case_decide; [done|].
    intros Ha Ha' [= -> E]. destruct (IH a' Ha Ha' E) as [-> ->]. done.
Qed.

Lemma separated_pair_inj (c : ascii) (x y x' y' : Z) :
  (∀ d, pretty_N_char d ≠ c) → c ≠ "-"%char →
  pretty x +:+ String c (pretty y) = pretty x' +:+ String c (pretty y') →
  x = x' ∧ y = y'.
Proof.
  intros Hc Hdash E.
  apply append_separator_inj in E as [Ex Ey];
    [| by apply pretty_Z_has_char..].
  split; by apply (inj pretty).
Qed.

Lemma not_a_digit (c : ascii) :
  Forall (λ d, pretty_N_char d ≠ c) [0; 1; 2; 3; 4; 5; 6; 7; 8; 9]%N →
  ∀ d, pretty_N_char d ≠ c.
Proof.
  intros H d. rewrite Forall_forall in H.
  destruct (decide (d < 10)%N) as [Hd | Hd].
  - apply H.
    assert (d = 0 ∨ d = 1 ∨ d = 2 ∨ d = 3 ∨ d = 4 ∨ d = 5 ∨ d = 6 ∨ d = 7
            ∨ d = 8 ∨ d = 9)%N as Hcases by lia.
    rewrite !elem_of_cons. tauto.
  - assert (pretty_N_char d = pretty_N_char 9) as ->.
    { unfold pretty_N_char.
      destruct d as [|[[[[|[]|]|[[]|[]|]|]|[[[]|[]|]|[[]|[]|]|]|]|[[[[]|[]|]|[[]|[]|]|]|[[[]|[]|]|[[]|[]|]|]|]|]]; try done; lia. }
    apply H. rewrite !elem_of_cons. tauto.
Qed.

Lemma underscore_not_digit : ∀ d, pretty_N_char d ≠ "_"%char.
Proof. apply not_a_digit. repeat constructor; discriminate. Qed.

Lemma comma_not_digit : ∀ d, pretty_N_char d ≠ ","%char.
Proof. apply not_a_digit. repeat constructor; discriminate. Qed.

Lemma game_key_inj (u m u' m' : Z) :
  game_key u m = game_key u' m' → u = u' ∧ m = m'.
Proof.
  unfold game_key. intros E.
  by apply (separated_pair_inj "_"%char) in E; [|apply underscore_not_digit|].
Qed.

Lemma portal_key_inj (k k' : pos) : portal_key k = portal_key k' → k = k'.
Proof.
  unfold portal_key. intros E. destruct k, k'. simpl in E.
  apply (separated_pair_inj ","%char) in E as [-> ->];
    [done | apply comma_not_digit | done].
Qed.

(** X1. Two different (user, maze) pairs never share a session key. *)
Theorem game_key_injective (user_id maze_id user_id' maze_id' : Z) :
  game_key user_id maze_id = game_key user_id' maze_id' ↔
  user_id = user_id' ∧ maze_id = maze_id'.
Proof.
  split; [apply game_key_inj|]. by intros [-> ->].
Qed.

Lemma fold_portal_key_miss (l : list (pos * pos)) (acc : gmap string pos) (s : string) :
  (∀ kv, kv ∈ l → portal_key kv.1 ≠ s) →
  foldl (λ acc kv, <[portal_key kv.1 := kv.2]> acc) acc l !! s = acc !! s.
Proof.
  revert acc. induction l as [|kv l IH]; intros acc Hmiss; simpl; [done|].
  rewrite IH.
  - apply lookup_insert_ne. apply Hmiss. left.
  - intros kv' Hin. apply Hmiss. by right.
Qed.

Lemma fold_portal_key_hit (l : list (pos * pos)) (acc : gmap string pos) (k v : pos) :
  NoDup l.*1 → (k, v) ∈ l →
  foldl (λ acc kv, <[portal_key kv.1 := kv.2]> acc) acc l !! portal_key k = Some v.
Proof.
  revert acc. induction l as [|[k0 v0] l IH]; intros acc Hnd Hin; simpl.
  - by apply elem_of_nil in Hin.
  - apply NoDup_cons in Hnd as [Hfresh Hnd].
    apply elem_of_cons in Hin as [Heq | Hin]; [|by apply IH].
    injection Heq as -> ->.
    rewrite fold_portal_key_miss; [apply lookup_insert_eq|].
    intros [k' v'] Hin E%portal_key_inj. simpl in E. subst k'.
    apply Hfresh. apply list_elem_of_fmap. by exists (k0, v').
Qed.

(** X2. The string-keyed portal map sent by the listing endpoint loses
    nothing: ["r,c"] determines the entrance [(r, c)], reading the listing at
    the key of an entrance gives that portal's exit, and the listing has no
    other key. *)
Theorem portal_listing_round_trip (maze : MazeConfig) :
  (∀ k k', portal_key k = portal_key k' → k = k') ∧
  (∀ k, l_portals (maze_listing maze) !! portal_key k = portals maze !! k) ∧
  (∀ s v, l_portals (maze_listing maze) !! s = Some v →
          ∃ k, s = portal_key k ∧ portals maze !! k = Some v).
Proof.
  split; [apply portal_key_inj|]. unfold maze_listing, portals_by_string. simpl.
  assert (∀ k, foldl (λ acc kv, <[portal_key kv.1 := kv.2]> acc)
                 (∅ : gmap string pos)
                 (map_to_list (portals maze)) !! portal_key k
               = portals maze !! k) as Hget.
  { intros k. destruct (portals maze !! k) as [v|] eqn:E.
    - apply fold_portal_key_hit; [apply NoDup_fst_map_to_list|].
      by apply elem_of_map_to_list.
    - rewrite fold_portal_key_miss; [apply lookup_empty|].
      intros [k' v'] Hin%elem_of_map_to_list E'%portal_key_inj. simpl in E'.
      congruence. }
  split; [done|]. intros s v Hs.
  destruct (decide (Exists (λ kv : pos * pos, portal_key kv.1 = s)
                           (map_to_list (portals maze))))
    as [([k v'] & Hin & <-)%Exists_exists | Hnone].
  - exists k. split; [done|]. simpl in Hs. by rewrite Hget in Hs.
  - rewrite fold_portal_key_miss in Hs; [by rewrite lookup_empty in Hs|].
    intros kv Hin E. apply Hnone. apply Exists_exists. by exists kv.
Qed.

(** The list that [get_mazes] goes through holds the mazes of the
    catalogue, each under its own id, and the listing keeps its order. *)
Lemma MAZES_values_catalog (id : Z) (maze : MazeConfig) :
  MAZES !! id = Some maze ↔ maze ∈ MAZES_values ∧ maze_id maze = id.
Proof.
  unfold MAZES, MAZES_values. rewrite !lookup_insert_Some, lookup_empty.
  rewrite !elem_of_cons, elem_of_nil. split.
  - intros [[<- <-] | [_ [[<- <-] | [_ [[<- <-] | [_ [=]]]]]]]; split; auto.
  - intros [[-> | [-> | [-> | []]]] <-]; simpl.
    + right. split; [done|]. right. split; [done|]. by left.
    + right. split; [done|]. by left.
    + by left.
Qed.

Lemma get_mazes_in_order (mazes : list MazeConfig) (i : nat) :
  get_mazes mazes !! i = maze_listing <$> mazes !! i.
Proof. unfold get_mazes. apply list_lookup_fmap. Qed.

(** ** The validator never fails on a well-formed catalogue *)

Lemma getitem_raise {A} (l : list A) (i : Z) (e : exn) :
  getitem l i = Raise e → e = IndexError.
Proof.
  unfold getitem, py_index. repeat case_bool_decide; simpl;
    try (destruct (l !! _)); congruence.
Qed.

Lemma hits_wall_raise (g : grid_t) (r c : Z) (e : exn) :
  hits_wall g r c = Raise e → e = IndexError.
Proof.
  unfold hits_wall.
  case_bool_decide; [done|]. case_bool_decide; [done|]. case_bool_decide; [done|].
  destruct (getitem g 0) as [row0|e0] eqn:E0; simpl;
    [|intros [= <-]; by eapply getitem_raise].
  case_bool_decide; [done|].
  destruct (getitem g r) as [row|e1] eqn:E1; simpl;
    [|intros [= <-]; by eapply getitem_raise].
  destruct (getitem row c) as [x|e2] eqn:E2; simpl; [done|].
  intros [= <-]. by eapply getitem_raise.
Qed.

Lemma step_loop_raise maze ks dr dc (n : nat) (r c : Z) (e : exn) :
  step_loop maze ks dr dc n r c = Raise e → e = IndexError.
Proof.
  revert r c. induction n as [|n IH]; intros r c; cbn [step_loop]; [done|].
  unfold check_cell.
  destruct (hits_wall (grid maze) (r + dr) (c + dc)) as [[]|e0] eqn:E; simpl.
  - done.
  - destruct (locked_door _ _ _); simpl; [done|]. apply IH.
  - intros [= <-]. by eapply hits_wall_raise.
Qed.

Lemma validate_move_raise catalog id cur d n ks bs (e : exn) :
  validate_move catalog id cur d n ks bs = Raise e →
  e = IndexError ∧
  ∃ maze, catalog !! id = Some maze ∧ ¬ rectangular (grid maze).
Proof.
  unfold validate_move, get_maze.
  destruct (catalog !! id) as [maze|] eqn:Em; [|done].
  destruct cur as [row col].
  destruct (direction_map d) as [[dr dc]|] eqn:Ed; [|done].
  destruct (step_loop maze ks dr dc (Z.to_nat n) row col) as [[err|p]|e0] eqn:E;
    simpl; [done | done |].
  intros [= <-]. split; [by eapply step_loop_raise|].
  exists maze. split; [done|]. intros Hrect.
  destruct (step_loop_spec maze ks dr dc (Z.to_nat n) row col Hrect)
    as [[H _] | (k & err & _ & _ & _ & _ & H)]; congruence.
Qed.

(** ** The move endpoint *)

Lemma init_game_state_Return catalog srv key id srv1 :
  init_game_state catalog srv key id = Return srv1 →
  attempts srv1 = attempts srv ∧
  (∀ key', key' ≠ key → game_states srv1 !! key' = game_states srv !! key') ∧
  is_Some (game_states srv1 !! key) ∧
  (is_Some (game_states srv !! key) → srv1 = srv) ∧
  (game_states srv !! key = None →
   ∃ maze, catalog !! id = Some maze ∧
           game_states srv1 !! key
             = Some {| position := start_pos maze;
                       gs_collected_keys := [];
                       gs_collected_books := [] |}).
Proof.
  unfold init_game_state.
  destruct (game_states srv !! key) as [st|] eqn:Est.
  - intros [= <-]. rewrite Est. repeat split; eauto. done.
  - destruct (catalog !! id) as [maze|] eqn:Em; [|done].
    intros [= <-]. simpl. split; [done|]. split.
    { intros key' Hne. by rewrite lookup_insert_ne. }
    rewrite lookup_insert_eq. split; [eauto|]. split.
    { by intros [? ?]. }
    intros _. by exists maze.
Qed.

Lemma init_game_state_Raise catalog srv key id e :
  init_game_state catalog srv key id = Raise e →
  e = HTTPException 404 "Maze not found" ∧
  game_states srv !! key = None ∧ catalog !! id = None.
Proof.
  unfold init_game_state.
  destruct (game_states srv !! key) as [st|]; [done|].
  destruct (catalog !! id) as [maze|]; [done|]. by intros [= <-].
Qed.

(** The endpoint, case by case. *)
Lemma submit_move_spec catalog srv user_id move :
  let key := game_key user_id (move_maze_id move) in
  (∃ e, init_game_state catalog srv key (move_maze_id move) = Raise e ∧
        submit_move catalog srv (Some user_id) move = (srv, Raise e)) ∨
  (∃ srv1 st,
     init_game_state catalog srv key (move_maze_id move) = Return srv1 ∧
     game_states srv1 !! key = Some st ∧
     let result :=
       validate_move catalog (move_maze_id move) (position st) (direction move)
         (steps move) (gs_collected_keys st) (Some (gs_collected_books st)) in
     match result with
     | Raise e => submit_move catalog srv (Some user_id) move = (srv1, Raise e)
     | Return (Invalid error) =>
         submit_move catalog srv (Some user_id) move = (srv1, Return (Invalid error))
     | Return (Valid p nk nb w) =>
         submit_move catalog srv (Some user_id) move
           = ({| game_states :=
                   if w then delete key (game_states srv1)
                   else <[key := {| position := p;
                                    gs_collected_keys := nk;
                                    gs_collected_books := nb |}]>
                          (game_states srv1);
                 attempts :=
                   attempts srv ++
                     [{| att_user_id := user_id;
                         att_maze_id := move_maze_id move;
                         att_moves := (direction move, steps move);
                         att_success := w;
                         att_collected_books := nb |}] |},
              Return (Valid p nk nb w))
     end).
Proof.
  intros key. unfold submit_move. fold key.
  destruct (init_game_state catalog srv key (move_maze_id move)) as [srv1|e] eqn:Ei.
  - right. destruct (init_game_state_Return _ _ _ _ _ Ei) as (Hatt & _ & [st Hst] & _).
    exists srv1, st. split; [done|]. split; [done|]. rewrite Hst.
    destruct (validate_move _ _ _ _ _ _ _) as [[error | p nk nb w]|e]; try done.
    rewrite Hatt. destruct w; [|done]. by rewrite delete_insert_eq.
  - left. by exists e.
Qed.

(** X3. A request only touches the session of its own (user, maze) pair:
    the entry of every other pair is what it was. *)
Theorem submit_move_isolated (catalog : gmap Z MazeConfig) (srv : Server)
    (user : option Z) (move : MoveSubmission) (user_id' maze_id' : Z) :
  (∀ user_id, user = Some user_id →
              (user_id', maze_id') ≠ (user_id, move_maze_id move)) →
  game_states (submit_move catalog srv user move).1 !! game_key user_id' maze_id'
    = game_states srv !! game_key user_id' maze_id'.
Proof.
  intros Hother. destruct user as [user_id|]; [|done].
  assert (game_key user_id' maze_id' ≠ game_key user_id (move_maze_id move)) as Hne.
  { intros [-> ->]%game_key_inj. by apply (Hother user_id). }
  destruct (submit_move_spec catalog srv user_id move)
    as [(e & _ & ->) | (srv1 & st & Hi & Hst & Hres)]; [done|].
  destruct (init_game_state_Return _ _ _ _ _ Hi) as (_ & Hsame & _).
  cbv zeta in Hres.
  destruct (validate_move _ _ _ _ _ _ _) as [[error | p nk nb w]|e];
    rewrite Hres; cbn [fst game_states]; try by apply Hsame.
  destruct w.
  - rewrite lookup_delete_ne by done. by apply Hsame.
  - rewrite lookup_insert_ne by done. by apply Hsame.
Qed.

Lemma submit_move_isolated_witness :
  game_states
    (submit_move MAZES initial_server (Some 1)
       {| direction := "right"; steps := 3; move_maze_id := 1 |}).1
    !! game_key 1 2
  = game_states initial_server !! game_key 1 2.
Proof.
  apply (submit_move_isolated MAZES initial_server (Some 1)
           {| direction := "right"; steps := 3; move_maze_id := 1 |} 1 2).
  intros user_id [= <-]. simpl. discriminate.
Defined.

(** X4. The attempts table receives exactly one row for an accepted move,
    carrying the user, the maze, the move, the win flag and the books of the
    response, and nothing for any other request; rows already there are
    kept. *)
Theorem submit_move_logs_accepted (catalog : gmap Z MazeConfig) (srv : Server)
    (user : option Z) (move : MoveSubmission) :
  match (submit_move catalog srv user move).2 with
  | Return (Valid p nk nb w) =>
      ∃ user_id, user = Some user_id ∧
        attempts (submit_move catalog srv user move).1
          = attempts srv ++
              [{| att_user_id := user_id;
                  att_maze_id := move_maze_id move;
                  att_moves := (direction move, steps move);
                  att_success := w;
                  att_collected_books := nb |}]
  | _ => attempts (submit_move catalog srv user move).1 = attempts srv
  end.
Proof.
  destruct user as [user_id|]; [|done].
  destruct (submit_move_spec catalog srv user_id move)
    as [(e & _ & ->) | (srv1 & st & Hi & Hst & Hres)]; [done|].
  destruct (init_game_state_Return _ _ _ _ _ Hi) as (Hatt & _).
  cbv zeta in Hres.
  destruct (validate_move _ _ _ _ _ _ _) as [[error | p nk nb w]|e];
    rewrite Hres; cbn [fst snd attempts]; try done.
  by exists user_id.
Qed.

(** X5. After an accepted move the session holds exactly the position,
    keys and books of the response, unless the response reports a win, in
    which case the session is gone. *)
Theorem submit_move_session_mirror (catalog : gmap Z MazeConfig) (srv : Server)
    (user_id : Z) (move : MoveSubmission) (p : pos) (nk nb : list string)
    (w : bool) :
  (submit_move catalog srv (Some user_id) move).2 = Return (Valid p nk nb w) →
  game_states (submit_move catalog srv (Some user_id) move).1
    !! game_key user_id (move_maze_id move)
  = if w then None
    else Some {| position := p; gs_collected_keys := nk; gs_collected_books := nb |}.
Proof.
  destruct (submit_move_spec catalog srv user_id move)
    as [(e & _ & ->) | (srv1 & st & Hi & Hst & Hres)]; [done|].
  cbv zeta in Hres.
  destruct (validate_move _ _ _ _ _ _ _) as [[error | p' nk' nb' w']|e];
    rewrite Hres; cbn [fst snd game_states]; try done.
  intros [= -> -> -> ->]. destruct w.
  - apply lookup_delete_eq.
  - apply lookup_insert_eq.
Qed.

Lemma submit_move_session_mirror_witness :
  game_states
    (submit_move MAZES initial_server (Some 1)
       {| direction := "right"; steps := 3; move_maze_id := 1 |}).1
    !! game_key 1 1
  = Some {| position := (1, 4); gs_collected_keys := ["red"];
            gs_collected_books := [] |}.
Proof.
  apply (submit_move_session_mirror MAZES initial_server 1
           {| direction := "right"; steps := 3; move_maze_id := 1 |}
           (1, 4) ["red"] [] false).
  vm_compute. reflexivity.
Defined.

(** From the user row on, and when the insert goes through, the endpoint
    is [submit_move]. *)
Lemma post_moves_submit_move sv catalog srv credentials move email user :
  jwt_decode sv credentials = Some (Some email) →
  users_by_email sv email = inr user →
  (∀ row, insert_attempt sv row = None) →
  post_moves sv catalog srv credentials move
    = ((submit_move catalog srv user move).1,
       outcome (submit_move catalog srv user move).2).
Proof.
  intros Hdec Huser Hins. unfold post_moves, verify_token, submit_move.
  rewrite Hdec, Huser. destruct user as [user_id|]; [|done].
  destruct (init_game_state _ _ _ _) as [srv1|e]; [|done].
  destruct (game_states srv1 !! _) as [st|]; [|done].
  destruct (validate_move _ _ _ _ _ _ _) as [[error | p nk nb w]|e]; try done.
  by rewrite Hins.
Qed.

(** X6. The move endpoint raises in six ways only. Four leave the server
    as it was: 401 "Could not validate credentials" when [verify_token]
    rejects the token, the exception of the user query, 401 "User not found"
    when no row is found, and 404 "Maze not found" for an unknown maze.
    [IndexError] needs a maze whose rows differ in length. The sixth is the
    exception of [save_attempt]: the move was accepted, the session already
    holds the new position, keys and books, it is kept even when the move
    won, and no row is added. The endpoint never raises [KeyError]. *)
Theorem post_moves_raises (sv : Services) (catalog : gmap Z MazeConfig)
    (srv : Server) (credentials : string) (move : MoveSubmission) (f : failure) :
  (post_moves sv catalog srv credentials move).2 = inl f →
  (f = Raised (HTTPException 401 "Could not validate credentials") ∧
   (∀ email, jwt_decode sv credentials ≠ Some (Some email)) ∧
   (post_moves sv catalog srv credentials move).1 = srv) ∨
  (∃ email what,
     f = DatabaseError what ∧
     jwt_decode sv credentials = Some (Some email) ∧
     users_by_email sv email = inl what ∧
     (post_moves sv catalog srv credentials move).1 = srv) ∨
  (∃ email,
     f = Raised (HTTPException 401 "User not found") ∧
     jwt_decode sv credentials = Some (Some email) ∧
     users_by_email sv email = inr None ∧
     (post_moves sv catalog srv credentials move).1 = srv) ∨
  (f = Raised (HTTPException 404 "Maze not found") ∧
   catalog !! move_maze_id move = None ∧
   (post_moves sv catalog srv credentials move).1 = srv) ∨
  (f = Raised IndexError ∧
   ∃ maze, catalog !! move_maze_id move = Some maze ∧ ¬ rectangular (grid maze)) ∨
  (∃ email user_id what p nk nb w,
     f = DatabaseError what ∧
     jwt_decode sv credentials = Some (Some email) ∧
     users_by_email sv email = inr (Some user_id) ∧
     (submit_move catalog srv (Some user_id) move).2 = Return (Valid p nk nb w) ∧
     insert_attempt sv {| att_user_id := user_id;
                          att_maze_id := move_maze_id move;
                          att_moves := (direction move, steps move);
                          att_success := w;
                          att_collected_books := nb |} = Some what ∧
     game_states (post_moves sv catalog srv credentials move).1
       !! game_key user_id (move_maze_id move)
       = Some {| position := p; gs_collected_keys := nk; gs_collected_books := nb |} ∧
     attempts (post_moves sv catalog srv credentials move).1 = attempts srv).
Proof.
  unfold post_moves, verify_token, credentials_exception.
  destruct (jwt_decode sv credentials) as [[email|]|] eqn:Hdec;
    [|intros [= <-]; by left..].
  destruct (users_by_email sv email) as [what|[user_id|]] eqn:Huser.
  { intros [= <-]. right. left. by exists email, what. }
  2:{ intros [= <-]. right. right. left. by exists email. }
  destruct (init_game_state catalog srv _ _) as [srv1|e] eqn:Hi.
  2:{ intros [= <-]. right. right. right. left.
      by destruct (init_game_state_Raise _ _ _ _ _ Hi) as (-> & _ & ?). }
  destruct (init_game_state_Return _ _ _ _ _ Hi) as (Hatt & _ & [st Hst] & _).
  rewrite Hst.
  destruct (validate_move _ _ _ _ _ _ _) as [[error | p nk nb w]|e] eqn:Ev.
  - done.
  - destruct (insert_attempt sv _) as [what|] eqn:Hins; [|done].
    intros [= <-]. do 5 right. exists email, user_id, what, p, nk, nb, w.
    cbn [fst snd game_states attempts].
    split; [done|]. split; [done|]. split; [done|]. split.
    { unfold submit_move. cbv zeta. by rewrite Hi, Hst, Ev. }
    split; [done|]. split; [apply lookup_insert_eq | exact Hatt].
  - intros [= <-]. do 4 right. left.
    apply validate_move_raise in Ev as [-> Hragged]. done.
Qed.

Lemma post_moves_raises_witness :
  ∃ what nk nb w,
    insert_attempt (services_insert_down 1)
      {| att_user_id := 1; att_maze_id := 1; att_moves := ("right", 3);
         att_success := w; att_collected_books := nb |} = Some what ∧
    game_states
      (post_moves (services_insert_down 1) MAZES initial_server "a@b.c"
         {| direction := "right"; steps := 3; move_maze_id := 1 |}).1
      !! game_key 1 1
      = Some {| position := (1, 4); gs_collected_keys := nk;
                gs_collected_books := nb |} ∧
    attempts
      (post_moves (services_insert_down 1) MAZES initial_server "a@b.c"
         {| direction := "right"; steps := 3; move_maze_id := 1 |}).1 = [].
Proof.
  destruct (post_moves_raises (services_insert_down 1) MAZES initial_server "a@b.c"
              {| direction := "right"; steps := 3; move_maze_id := 1 |}
              (DatabaseError "attempts"))
    as [(Hf & _) | [(email & what & _ & _ & Hu & _) | [(email & Hf & _)
       | [(Hf & _) | [(Hf & _)
       | (email & user_id & what & p & nk & nb & w & _ & _ & Hu & Hval & Hins
          & Hstate & Hatt)]]]]].
  - vm_compute. reflexivity.
  - discriminate Hf.
  - discriminate Hu.
  - discriminate Hf.
  - discriminate Hf.
  - discriminate Hf.
  - injection Hu as <-. vm_compute in Hval. injection Hval as <- <- <- <-.
    exists what, ["red"], [], false. split; [exact Hins|].
    split; [exact Hstate | exact Hatt].
Defined.

(** ** More on the validator *)

Lemma step_loop_error maze ks dr dc (n : nat) (r c : Z) (e : string) :
  step_loop maze ks dr dc n r c = Return (inl e) →
  e = "Hit wall or boundary" ∨
  ∃ color p, (color, p) ∈ doors maze ∧ (color ∉ ks) ∧ e = need_key color.
Proof.
  revert r c. induction n as [|n IH]; intros r c; cbn [step_loop]; [done|].
  unfold check_cell.
  destruct (hits_wall (grid maze) (r + dr) (c + dc)) as [[]|e0]; simpl.
  - intros [= <-]. by left.
  - destruct (locked_door _ _ _) as [color|] eqn:E; simpl; [|apply IH].
    intros [= <-]. right. apply locked_door_Some in E as [? ?]. eauto.
  - done.
Qed.

(** X7. A rejection carries one of four messages: unknown maze, unknown
    direction, wall or boundary, or the missing key of a door of the maze
    whose colour is not among the keys handed in. *)
Theorem validate_move_errors (catalog : gmap Z MazeConfig) (id : Z)
    (current_pos : pos) (d : string) (n : Z) (ks : list string)
    (bs : option (list string)) (error : string) :
  validate_move catalog id current_pos d n ks bs = Return (Invalid error) →
  (error = "Invalid maze ID" ∧ catalog !! id = None) ∨
  (error = "Invalid direction" ∧ direction_map d = None) ∨
  error = "Hit wall or boundary" ∨
  ∃ maze color p,
    catalog !! id = Some maze ∧ (color, p) ∈ doors maze ∧ (color ∉ ks) ∧
    error = "Need " +:+ color +:+ " key to pass".
Proof.
  unfold validate_move, get_maze.
  destruct (catalog !! id) as [maze|] eqn:Em; [|intros [= <-]; by left].
  destruct current_pos as [row col].
  destruct (direction_map d) as [[dr dc]|] eqn:Ed; [|intros [= <-]; right; by left].
  destruct (step_loop maze ks dr dc (Z.to_nat n) row col) as [[err|p]|e0] eqn:E;
    simpl; [|done|done].
  intros [= <-]. right. right.
  apply step_loop_error in E as [-> | (color & p & ? & ? & ->)]; [by left|].
  right. by exists maze, color, p.
Qed.

Lemma validate_move_errors_witness :
  ("Need blue key to pass" = "Invalid maze ID" ∧ MAZES !! 1 = None) ∨
  ("Need blue key to pass" = "Invalid direction" ∧ direction_map "right" = None) ∨
  "Need blue key to pass" = "Hit wall or boundary" ∨
  ∃ maze color p,
    MAZES !! 1 = Some maze ∧ (color, p) ∈ doors maze ∧ (color ∉ ([] : list string)) ∧
    "Need blue key to pass" = "Need " +:+ color +:+ " key to pass".
Proof.
  apply (validate_move_errors MAZES 1 (1, 1) "right" 6 [] None).
  vm_compute. reflexivity.
Defined.

Lemma validate_move_Invalid_inv catalog id maze cur d v n ks bs error :
  catalog !! id = Some maze →
  rectangular (grid maze) →
  direction_map d = Some v →
  validate_move catalog id cur d n ks bs = Return (Invalid error) →
  ∃ k, 1 <= k <= n ∧
       (∀ j, 1 <= j < k → passes maze ks (cell_after cur v j)) ∧
       ¬ passes maze ks (cell_after cur v k) ∧
       check_cell maze ks (cell_after cur v k).1 (cell_after cur v k).2
         = Return (Some error).
Proof.
  intros Hmaze Hrect Hdir. unfold validate_move, get_maze. rewrite Hmaze.
  destruct cur as [row col]. rewrite Hdir. destruct v as [dr dc].
  destruct (step_loop_spec maze ks dr dc (Z.to_nat n) row col Hrect)
    as [[-> _] | (k & err & Hk & Hbefore & Hfail & Hchk & ->)]; simpl; [done|].
  intros [= <-]. exists k. split; [lia|]. done.
Qed.

(** X8. On a maze with rows of equal length the validator always returns,
    and it accepts exactly when every stepped cell is inside the grid, is not
    a wall and carries no door whose key is missing. *)
Theorem accepted_iff_all_cells_pass (catalog : gmap Z MazeConfig) (id : Z)
    (maze : MazeConfig) (current_pos v : pos) (d : string) (n : Z)
    (ks : list string) (bs : option (list string)) :
  catalog !! id = Some maze →
  rectangular (grid maze) →
  direction_map d = Some v →
  (∃ result, validate_move catalog id current_pos d n ks bs = Return result) ∧
  ((∃ p nk nb w,
      validate_move catalog id current_pos d n ks bs = Return (Valid p nk nb w)) ↔
   ∀ j, 1 <= j <= n →
        in_bounds (grid maze) (cell_after current_pos v j) ∧
        cell_at (grid maze) (cell_after current_pos v j) ≠ Some "#" ∧
        ∀ color, (color, cell_after current_pos v j) ∈ doors maze → color ∈ ks).
Proof.
  intros Hmaze Hrect Hdir.
  assert (∀ p, passes maze ks p ↔
               in_bounds (grid maze) p ∧ cell_at (grid maze) p ≠ Some "#" ∧
               ∀ color, (color, p) ∈ doors maze → color ∈ ks) as Hpass.
  { intros p. unfold passes, blocked. rewrite door_locked_alt. split.
    - intros [Hb Hd]. split; [|split].
      + destruct (decide (in_bounds (grid maze) p)); tauto.
      + tauto.
      + intros color Hin. destruct (decide (color ∈ ks)); [done|].
        exfalso. apply Hd. by exists color.
    - intros (Hin & Hw & Hd). split; [tauto|].
      intros (color & Hc & Hnot). by apply Hnot, Hd. }
  split.
  - destruct (validate_move catalog id current_pos d n ks bs) as [r|e] eqn:E;
      [by exists r|].
    apply validate_move_raise in E as (_ & maze' & Hm & Hnr).
    exfalso. apply Hnr. congruence.
  - split.
    + intros (p & nk & nb & w & Hval) j Hj. apply Hpass.
      destruct (decide (passes maze ks (cell_after current_pos v j))) as [|Hbad];
        [done|].
      destruct (first_failing_step maze ks current_pos v j) as (k & Hk & Hb & Hf);
        [lia | done |].
      destruct (validate_move_rejects catalog id maze current_pos d v n k ks bs)
        as (err & _ & Hrej); [done | done | done | lia | done | done |].
      congruence.
    + intros Hall.
      rewrite (validate_move_accepts catalog id maze current_pos d v n ks bs);
        [unfold arrival; eauto | done | done | done |].
      intros j Hj. by apply Hpass, Hall.
Qed.

Lemma accepted_iff_all_cells_pass_witness :
  (∃ result, validate_move MAZES 1 (1, 1) "right" 3 [] None = Return result) ∧
  ((∃ p nk nb w,
      validate_move MAZES 1 (1, 1) "right" 3 [] None = Return (Valid p nk nb w)) ↔
   ∀ j, 1 <= j <= 3 →
        in_bounds (grid MAZE_1) (cell_after (1, 1) (0, 1) j) ∧
        cell_at (grid MAZE_1) (cell_after (1, 1) (0, 1) j) ≠ Some "#" ∧
        ∀ color, (color, cell_after (1, 1) (0, 1) j) ∈ doors MAZE_1 →
                 color ∈ ([] : list string)).
Proof.
  apply (accepted_iff_all_cells_pass MAZES 1 MAZE_1 (1, 1) (0, 1) "right" 3 [] None).
  - reflexivity.
  - apply (bool_decide_unpack _). vm_compute. exact I.
  - reflexivity.
Defined.

(** X9. Fewer steps never turn an accepted move into a rejected one, and
    more steps never rescue a rejected move: it is rejected with the same
    message. *)
Theorem steps_monotone (catalog : gmap Z MazeConfig) (id : Z)
    (maze : MazeConfig) (current_pos v : pos) (d : string) (n m : Z)
    (ks : list string) (bs : option (list string)) :
  catalog !! id = Some maze →
  rectangular (grid maze) →
  direction_map d = Some v →
  m <= n →
  ((∃ p nk nb w,
      validate_move catalog id current_pos d n ks bs = Return (Valid p nk nb w)) →
   ∃ p nk nb w,
     validate_move catalog id current_pos d m ks bs = Return (Valid p nk nb w)) ∧
  (∀ error,
     validate_move catalog id current_pos d m ks bs = Return (Invalid error) →
     validate_move catalog id current_pos d n ks bs = Return (Invalid error)).
Proof.
  intros Hmaze Hrect Hdir Hmn. split.
  - intros (p & nk & nb & w & Hval).
    rewrite (validate_move_accepts catalog id maze current_pos d v m ks bs);
      [unfold arrival; eauto | done | done | done |].
    intros j Hj.
    destruct (decide (passes maze ks (cell_after current_pos v j))) as [|Hbad];
      [done|].
    destruct (first_failing_step maze ks current_pos v j) as (k & Hk & Hb & Hf);
      [lia | done |].
    destruct (validate_move_rejects catalog id maze current_pos d v n k ks bs)
      as (err & _ & Hrej); [done | done | done | lia | done | done |].
    congruence.
  - intros error Hval.
    destruct (validate_move_Invalid_inv catalog id maze current_pos d v m ks bs error)
      as (k & Hk & Hb & Hf & Hchk); [done..|].
    destruct (validate_move_rejects catalog id maze current_pos d v n k ks bs)
      as (err & Hchk' & Hrej); [done | done | done | lia | done | done |].
    congruence.
Qed.

Lemma steps_monotone_witness :
  ((∃ p nk nb w,
      validate_move MAZES 1 (1, 1) "right" 8 [] None = Return (Valid p nk nb w)) →
   ∃ p nk nb w,
     validate_move MAZES 1 (1, 1) "right" 6 [] None = Return (Valid p nk nb w)) ∧
  (∀ error,
     validate_move MAZES 1 (1, 1) "right" 6 [] None = Return (Invalid error) →
     validate_move MAZES 1 (1, 1) "right" 8 [] None = Return (Invalid error)).
Proof.
  apply (steps_monotone MAZES 1 MAZE_1 (1, 1) (0, 1) "right" 8 6 [] None).
  - reflexivity.
  - apply (bool_decide_unpack _). vm_compute. exact I.
  - reflexivity.
  - lia.
Defined.

Lemma passes_more_keys maze (ks ks' : list string) (p : pos) :
  (∀ c, c ∈ ks → c ∈ ks') → passes maze ks p → passes maze ks' p.
Proof.
  intros Hsub [Hb Hd]. split; [done|]. rewrite door_locked_alt in *.
  intros (color & Hin & Hnot). apply Hd. exists color. split; [done|].
  intros Hc. by apply Hnot, Hsub.
Qed.

(** X10. Keys never hurt: a move accepted with some keys is accepted with
    any larger set of keys, ends on the same cell, and leaves the player with
    at least the keys the smaller set would have given. *)
Theorem more_keys_still_accepted (catalog : gmap Z MazeConfig) (id : Z)
    (maze : MazeConfig) (current_pos : pos) (d : string) (n : Z)
    (ks ks' : list string) (bs : option (list string))
    (p : pos) (nk nb : list string) (w : bool) :
  catalog !! id = Some maze →
  rectangular (grid maze) →
  (∀ c, c ∈ ks → c ∈ ks') →
  validate_move catalog id current_pos d n ks bs = Return (Valid p nk nb w) →
  ∃ nk' nb' w',
    validate_move catalog id current_pos d n ks' bs = Return (Valid p nk' nb' w') ∧
    (∀ c, c ∈ nk → c ∈ nk') ∧
    (∀ c, c ∈ nb → c ∈ nb').
Proof.
  intros Hmaze Hrect Hsub Hval.
  destruct (validate_move_Valid _ _ _ _ _ _ _ _ Hval)
    as [[err [=]] | (maze' & v & Hm & Hdir & Harr)].
  assert (maze' = maze) as -> by congruence.
  symmetry in Harr. apply arrival_position in Harr as (Hp & Hnk & Hnb & _).
  assert (∀ j, 1 <= j <= n → passes maze ks (cell_after current_pos v j)) as Hall.
  { intros j Hj.
    destruct (decide (passes maze ks (cell_after current_pos v j))) as [|Hbad];
      [done|].
    destruct (first_failing_step maze ks current_pos v j) as (k & Hk & Hb & Hf);
      [lia | done |].
    destruct (validate_move_rejects catalog id maze current_pos d v n k ks bs)
      as (err & _ & Hrej); [done | done | done | lia | done | done |].
    congruence. }
  rewrite (validate_move_accepts catalog id maze current_pos d v n ks' bs);
    [| done | done | done |].
  2:{ intros j Hj. eapply passes_more_keys; [done|]. by apply Hall. }
  unfold arrival. rewrite <- Hp.
  eexists _, _, _. split; [done|].
  destruct (collect_keys_spec (keys maze) p ks) as (a1 & E1 & H1).
  destruct (collect_keys_spec (keys maze) p ks') as (a2 & E2 & H2).
  assert (∀ c, c ∈ nk → c ∈ collect_keys (keys maze) p ks') as Hkeys.
  { intros c. rewrite Hnk, E1, E2, !elem_of_app, H1, H2.
    intros [Hc | [Hc Hnot]]; [left; by apply Hsub|].
    destruct (decide (c ∈ ks')); tauto. }
  split; [done|].
  destruct (collect_books_spec (books maze) p nk (default [] bs)) as (b1 & F1 & G1).
  destruct (collect_books_spec (books maze) p (collect_keys (keys maze) p ks')
              (default [] bs)) as (b2 & F2 & G2).
  intros c. rewrite Hnb, F1, F2, !elem_of_app, G1, G2.
  intros [Hc | (Hc & Hk & Hnot)]; [by left|]. right. split; [done|]. split; [|done].
  by apply Hkeys.
Qed.

Lemma more_keys_still_accepted_witness :
  ∃ nk' nb' w',
    validate_move MAZES 1 (1, 1) "right" 3 ["blue"] None
      = Return (Valid (1, 4) nk' nb' w') ∧
    (∀ c, c ∈ ["red"] → c ∈ nk') ∧
    (∀ c, c ∈ ([] : list string) → c ∈ nb').
Proof.
  apply (more_keys_still_accepted MAZES 1 MAZE_1 (1, 1) "right" 3 [] ["blue"] None
           (1, 4) ["red"] [] false).
  - reflexivity.
  - apply (bool_decide_unpack _). vm_compute. exact I.
  - intros c Hc. by apply elem_of_nil in Hc.
  - vm_compute. reflexivity.
Defined.

(** ** What accepted moves keep true *)

Lemma all_cells_pass catalog id maze cur d v n ks bs p nk nb w :
  catalog !! id = Some maze →
  rectangular (grid maze) →
  direction_map d = Some v →
  validate_move catalog id cur d n ks bs = Return (Valid p nk nb w) →
  ∀ j, 1 <= j <= n → passes maze ks (cell_after cur v j).
Proof.
  intros Hmaze Hrect Hdir Hval j Hj.
  destruct (decide (passes maze ks (cell_after cur v j))) as [|Hbad]; [done|].
  destruct (first_failing_step maze ks cur v j) as (k & Hk & Hb & Hf);
    [lia | done |].
  destruct (validate_move_rejects catalog id maze cur d v n k ks bs)
    as (err & _ & Hrej); [done | done | done | lia | done | done |].
  congruence.
Qed.

(** X11. When the player stands on a cell that is not a wall and no portal
    of the maze leads onto a wall or out of the grid, an accepted move ends
    inside the grid on a cell that is not a wall. *)
Theorem accepted_move_ends_on_open_cell (catalog : gmap Z MazeConfig) (id : Z)
    (maze : MazeConfig) (current_pos : pos) (d : string) (n : Z)
    (ks : list string) (bs : option (list string))
    (p : pos) (nk nb : list string) (w : bool) :
  catalog !! id = Some maze →
  rectangular (grid maze) →
  ¬ blocked (grid maze) current_pos →
  map_Forall (λ _ b, ¬ blocked (grid maze) b) (portals maze) →
  validate_move catalog id current_pos d n ks bs = Return (Valid p nk nb w) →
  in_bounds (grid maze) p ∧ cell_at (grid maze) p ≠ Some "#".
Proof.
  intros Hmaze Hrect Hcur Hportals Hval.
  assert (¬ blocked (grid maze) p) as Hp; [|unfold blocked in Hp;
    destruct (decide (in_bounds (grid maze) p)); tauto].
  destruct (validate_move_Valid _ _ _ _ _ _ _ _ Hval)
    as [[err [=]] | (maze' & v & Hm & Hdir & Harr)].
  assert (maze' = maze) as -> by congruence.
  symmetry in Harr. apply arrival_position in Harr as (-> & _).
  unfold teleport.
  destruct (portals maze !! cell_after current_pos v (Z.max 0 n)) as [dest|] eqn:E.
  { by apply (Hportals _ _ E). }
  destruct (decide (n <= 0)) as [Hn | Hn].
  - replace (Z.max 0 n) with 0 by lia. unfold cell_after.
    destruct current_pos as [r c]. simpl.
    by replace (r + 0 * v.1) with r by lia; replace (c + 0 * v.2) with c by lia.
  - replace (Z.max 0 n) with n by lia.
    apply (all_cells_pass catalog id maze current_pos d v n ks bs _ _ _ _
             Hmaze Hrect Hdir Hval n). lia.
Qed.

Lemma accepted_move_ends_on_open_cell_witness :
  in_bounds (grid MAZE_1) (9, 6) ∧ cell_at (grid MAZE_1) (9, 6) ≠ Some "#".
Proof.
  apply (accepted_move_ends_on_open_cell MAZES 1 MAZE_1 (1, 1) "right" 1 [] None
           (9, 6) [] [] false).
  - reflexivity.
  - apply (bool_decide_unpack _). vm_compute. exact I.
  - apply (bool_decide_unpack _). vm_compute. exact I.
  - apply (bool_decide_unpack _). vm_compute. exact I.
  - vm_compute. reflexivity.
Defined.

Lemma collect_keys_NoDup (kd : dict string pos) (p : pos) (ks : list string) :
  NoDup ks → NoDup (collect_keys kd p ks).
Proof.
  unfold collect_keys. revert ks.
  induction kd as [|[c q] kd IH]; intros ks Hnd; simpl; [done|].
  apply IH. case_decide as Hd; [|done]. destruct Hd as [_ Hc].
  apply NoDup_app. split; [done|]. split; [|apply NoDup_singleton].
  intros x Hx ->%list_elem_of_singleton. done.
Qed.

Lemma collect_books_NoDup (bd : dict string pos) (p : pos) (nk bs : list string) :
  NoDup bs → NoDup (collect_books bd p nk bs).
Proof.
  unfold collect_books. revert bs.
  induction bd as [|[c q] bd IH]; intros bs Hnd; simpl; [done|].
  apply IH. case_decide as Hd; [|done]. destruct Hd as (_ & _ & Hc).
  apply NoDup_app. split; [done|]. split; [|apply NoDup_singleton].
  intros x Hx ->%list_elem_of_singleton. done.
Qed.

Lemma tidy_move catalog id cur d n ks bs p nk nb w :
  validate_move catalog id cur d n ks (Some bs) = Return (Valid p nk nb w) →
  NoDup ks → NoDup bs → (∀ c, c ∈ bs → c ∈ ks) →
  NoDup nk ∧ NoDup nb ∧ ∀ c, c ∈ nb → c ∈ nk.
Proof.
  intros Hval Hk Hb Hsub.
  destruct (validate_move_Valid _ _ _ _ _ _ _ _ Hval)
    as [[err [=]] | (maze & v & Hm & Hdir & Harr)].
  symmetry in Harr. apply arrival_position in Harr as (_ & Hnk & Hnb & _).
  simpl in Hnb. subst nk nb.
  split; [by apply collect_keys_NoDup|]. split; [by apply collect_books_NoDup|].
  destruct (collect_keys_spec (keys maze) p ks) as (a1 & E1 & H1).
  destruct (collect_books_spec (books maze) p (collect_keys (keys maze) p ks) bs)
    as (b1 & F1 & G1).
  intros c. rewrite F1, elem_of_app, G1. intros [Hc | (_ & Hc & _)]; [|done].
  rewrite E1, elem_of_app. left. by apply Hsub.
Qed.

Lemma submit_move_tidy catalog srv user move :
  sessions_tidy srv → sessions_tidy (submit_move catalog srv user move).1.
Proof.
  intros Htidy. destruct user as [user_id|]; [|done].
  destruct (submit_move_spec catalog srv user_id move)
    as [(e & _ & ->) | (srv1 & st & Hi & Hst & Hres)]; [done|].
  assert (sessions_tidy srv1) as Htidy1.
  { destruct (init_game_state_Return _ _ _ _ _ Hi) as (_ & Hsame & _ & Hold & Hnew).
    destruct (game_states srv !! game_key user_id (move_maze_id move)) as [st0|] eqn:E.
    - rewrite Hold by eauto. done.
    - destruct (Hnew eq_refl) as (maze & _ & Hstart).
      intros key st' Hlook.
      destruct (decide (key = game_key user_id (move_maze_id move))) as [-> | Hne].
      + rewrite Hstart in Hlook. injection Hlook as <-.
        split; [constructor|]. split; [constructor|].
        intros c Hc. by apply elem_of_nil in Hc.
      + rewrite Hsame in Hlook by done. by apply (Htidy key). }
  cbv zeta in Hres.
  destruct (validate_move _ _ _ _ _ _ _) as [[error | p nk nb w]|e] eqn:Ev;
    rewrite Hres; cbn [fst]; try done.
  destruct (Htidy1 _ _ Hst) as (Hk & Hb & Hsub).
  pose proof (tidy_move _ _ _ _ _ _ _ _ _ _ _ Ev Hk Hb Hsub) as Hnew.
  unfold sessions_tidy. cbn [game_states]. destruct w.
  - by apply map_Forall_delete.
  - by apply map_Forall_insert_2.
Qed.

(** X12. Whatever requests are served, and for whichever users, no
    session ever lists a key or a book twice, and no session ever holds a book
    without holding the key of the same colour. *)
Theorem sessions_stay_tidy (catalog : gmap Z MazeConfig) (srv : Server)
    (requests : list (option Z * MoveSubmission)) :
  sessions_tidy srv →
  sessions_tidy (serve catalog srv requests).1.
Proof.
  revert srv. induction requests as [|[user move] requests IH]; intros srv Htidy;
    [done|].
  cbn [serve].
  pose proof (submit_move_tidy catalog srv user move Htidy) as H1.
  destruct (submit_move catalog srv user move) as [srv1 response].
  specialize (IH srv1 H1).
  destruct (serve catalog srv1 requests) as [srv2 responses]. done.
Qed.

Lemma sessions_stay_tidy_witness :
  sessions_tidy
    (serve MAZES initial_server
       [(Some 1, {| direction := "right"; steps := 3; move_maze_id := 1 |});
        (Some 2, {| direction := "down"; steps := 1; move_maze_id := 2 |})]).1.
Proof.
  apply (sessions_stay_tidy MAZES initial_server).
  intros key st Hlook. vm_compute in Hlook. discriminate Hlook.
Defined.

(** ** Regions closed by doors *)

Lemma direction_unit (d : string) (v : pos) :
  direction_map d = Some v → Z.abs v.1 + Z.abs v.2 = 1.
Proof.
  unfold direction_map. repeat case_decide; intros [= <-]; simpl; lia.
Qed.

Lemma elem_of_neighbours (z q : pos) : q ∈ neighbours z ↔ adjacent q z.
Proof.
  unfold neighbours. rewrite !elem_of_cons, elem_of_nil.
  split.
  - intros H. apply adjacent_sym, adjacent_cases. tauto.
  - intros H%adjacent_sym%adjacent_cases. tauto.
Qed.

Lemma sealed_entry maze C R (z q : pos) :
  sealed maze C R → z ∈ R → adjacent q z →
  q ∈ R ∨ blocked (grid maze) q ∨
  ∃ color, color ∈ C ∧ (color, z) ∈ doors maze.
Proof.
  intros (Hent & _ & _) Hz Hq.
  rewrite Forall_forall in Hent. specialize (Hent z Hz).
  rewrite Forall_forall in Hent. apply elem_of_neighbours in Hq.
  destruct (Hent q Hq) as [? | [? | Hdoor]]; [tauto | tauto |].
  right. right. apply Exists_exists in Hdoor as ([color p] & Hin & Hc & Hp).
  simpl in *. subst p. by exists color.
Qed.

(** A walk that starts outside a sealed region, without the keys of its
    doors, stays outside. *)
Lemma sealed_walk maze C R (ks : list string) (cur v : pos) (n : Z) :
  sealed maze C R →
  Z.abs v.1 + Z.abs v.2 = 1 →
  (∀ c, c ∈ C → c ∉ ks) →
  (cur ∉ R) → ¬ blocked (grid maze) cur →
  (∀ j, 1 <= j <= n → passes maze ks (cell_after cur v j)) →
  ∀ j : nat, Z.of_nat j <= Z.max 0 n → cell_after cur v (Z.of_nat j) ∉ R.
Proof.
  intros Hsealed Hv Hkeys Hcur Hopen Hpass.
  assert (cell_after cur v 0 = cur) as H0.
  { unfold cell_after. destruct cur as [r c]. simpl. f_equal; lia. }
  induction j as [|j IH]; intros Hj.
  - change (Z.of_nat 0) with 0. by rewrite H0.
  - intros Hin.
    assert (adjacent (cell_after cur v (Z.of_nat j)) (cell_after cur v (Z.of_nat (S j))))
      as Hadj.
    { unfold adjacent, cell_after. simpl. lia. }
    destruct (sealed_entry maze C R _ _ Hsealed Hin Hadj)
      as [Hz | [Hb | (color & Hc & Hdoor)]].
    + apply IH; [lia | done].
    + destruct j as [|j].
      * change (Z.of_nat 0) with 0 in Hb. rewrite H0 in Hb. done.
      * destruct (Hpass (Z.of_nat (S j))) as [Hnb _]; [lia|]. done.
    + destruct (Hpass (Z.of_nat (S j))) as [_ Hnd]; [lia|].
      apply Hnd. apply door_locked_alt. exists color. split; [done|].
      by apply Hkeys.
Qed.

Lemma sealed_move catalog id maze C R cur d n ks bs p nk nb w :
  catalog !! id = Some maze →
  rectangular (grid maze) →
  sealed maze C R →
  safe maze C R cur ks bs →
  validate_move catalog id cur d n ks (Some bs) = Return (Valid p nk nb w) →
  safe maze C R p nk nb.
Proof.
  intros Hmaze Hrect Hsealed (Hcur & Hopen & Hkeys & Hnd & Hbooks) Hval.
  destruct (validate_move_Valid _ _ _ _ _ _ _ _ Hval)
    as [[err [=]] | (maze' & v & Hm & Hdir & Harr)].
  assert (maze' = maze) as -> by congruence.
  pose proof (all_cells_pass catalog id maze cur d v n ks (Some bs) _ _ _ _
                Hmaze Hrect Hdir Hval) as Hpass.
  symmetry in Harr. apply arrival_position in Harr as (Hp & Hnk & Hnb & _).
  simpl in Hnb.
  set (L := cell_after cur v (Z.max 0 n)) in *.
  assert ((L ∉ R) ∧ ¬ blocked (grid maze) L) as [HL HLopen].
  { split.
    - unfold L. replace (Z.max 0 n) with (Z.of_nat (Z.to_nat n)) by lia.
      eapply (sealed_walk maze C R ks cur v n); try done; [|lia].
      by eapply direction_unit.
    - destruct (decide (n <= 0)) as [Hn | Hn].
      + unfold L. replace (Z.max 0 n) with 0 by lia. unfold cell_after.
        destruct cur as [r c]. simpl.
        by replace (r + 0 * v.1) with r by lia; replace (c + 0 * v.2) with c by lia.
      + unfold L. replace (Z.max 0 n) with n by lia.
        destruct (Hpass n) as [? _]; [lia | done]. }
  assert ((p ∉ R) ∧ ¬ blocked (grid maze) p) as [Hp1 Hp2].
  { rewrite Hp. unfold teleport.
    destruct (portals maze !! L) as [dest|] eqn:E; [|done].
    destruct Hsealed as (_ & Hport & _). by apply (Hport L dest E). }
  destruct (collect_keys_spec (keys maze) p ks) as (a1 & E1 & H1).
  destruct (collect_books_spec (books maze) p nk bs) as (b1 & F1 & G1).
  assert (∀ c, c ∈ C → c ∉ nk) as Hkeys'.
  { intros c Hc. rewrite Hnk, E1, elem_of_app, H1.
    intros [Hin | [Hin _]]; [by apply (Hkeys c)|].
    destruct Hsealed as (_ & _ & Hk). rewrite Forall_forall in Hk.
    apply Hp1. by apply (Hk (c, p)). }
  split; [done|]. split; [done|]. split; [done|]. split.
  - rewrite Hnb. by apply collect_books_NoDup.
  - intros c. rewrite Hnb, F1, elem_of_app, G1.
    intros [Hin | (Hin & Hk & _)]; [by apply Hbooks|]. split.
    + apply list_elem_of_fmap. by exists (c, p).
    + intros Hc. by apply (Hkeys' c).
Qed.

Lemma safe_books_bound maze C R p ks bs :
  safe maze C R p ks bs → (length bs <= length (free_books maze C))%nat.
Proof.
  intros (_ & _ & _ & Hnd & Hbooks). apply submseteq_length.
  apply NoDup_submseteq; [done|]. intros c Hc.
  destruct (Hbooks c Hc) as [Hin Hnot]. unfold free_books.
  apply list_elem_of_filter. split; [done|]. by apply elem_of_remove_dups.
Qed.

(** X13. A region that can only be entered through doors whose keys lie
    inside it, and into which no portal leads, is never entered: a player
    outside it, on a cell that is not a wall and holding none of those keys,
    is still outside it, and still without those keys, after any accepted
    move. *)
Theorem sealed_region_never_entered (catalog : gmap Z MazeConfig) (id : Z)
    (maze : MazeConfig) (C : list string) (R : list pos)
    (current_pos : pos) (d : string) (n : Z) (ks bs : list string)
    (p : pos) (nk nb : list string) (w : bool) :
  catalog !! id = Some maze →
  rectangular (grid maze) →
  sealed maze C R →
  (current_pos ∉ R) →
  ¬ blocked (grid maze) current_pos →
  (∀ c, c ∈ C → c ∉ ks) →
  validate_move catalog id current_pos d n ks (Some bs) = Return (Valid p nk nb w) →
  (p ∉ R) ∧ (∀ c, c ∈ C → c ∉ nk) ∧ (∀ c, c ∈ C → c ∈ nb → c ∈ bs).
Proof.
  intros Hmaze Hrect Hsealed Hcur Hopen Hkeys Hval.
  destruct (validate_move_Valid _ _ _ _ _ _ _ _ Hval)
    as [[err [=]] | (maze' & v & Hm & Hdir & Harr)].
  assert (maze' = maze) as -> by congruence.
  pose proof (all_cells_pass catalog id maze current_pos d v n ks (Some bs) _ _ _ _
                Hmaze Hrect Hdir Hval) as Hpass.
  symmetry in Harr. apply arrival_position in Harr as (Hp & Hnk & Hnb & _).
  simpl in Hnb.
  assert (cell_after current_pos v (Z.max 0 n) ∉ R) as HL.
  { replace (Z.max 0 n) with (Z.of_nat (Z.to_nat n)) by lia.
    eapply (sealed_walk maze C R ks current_pos v n); try done; [|lia].
    by eapply direction_unit. }
  assert (p ∉ R) as Hp1.
  { rewrite Hp. unfold teleport.
    destruct (portals maze !! _) as [dest|] eqn:E; [|done].
    destruct Hsealed as (_ & Hport & _). by apply (Hport _ dest E). }
  destruct (collect_keys_spec (keys maze) p ks) as (a1 & E1 & H1).
  destruct (collect_books_spec (books maze) p nk bs) as (b1 & F1 & G1).
  assert (∀ c, c ∈ C → c ∉ nk) as Hkeys'.
  { intros c Hc. rewrite Hnk, E1, elem_of_app, H1.
    intros [Hin | [Hin _]]; [by apply (Hkeys c)|].
    destruct Hsealed as (_ & _ & Hk). rewrite Forall_forall in Hk.
    apply Hp1. by apply (Hk (c, p)). }
  split; [done|]. split; [done|].
  intros c Hc. rewrite Hnb, F1, elem_of_app, G1.
  intros [Hin | (_ & Hk & _)]; [done|]. exfalso. by apply (Hkeys' c).
Qed.

Lemma sealed_region_never_entered_witness :
  ((1, 6) ∉ [(1, 7); (1, 8); (1, 9)]) ∧
  (∀ c, c ∈ ["blue"] → c ∉ ([] : list string)) ∧
  (∀ c, c ∈ ["blue"] → c ∈ ([] : list string) → c ∈ ([] : list string)).
Proof.
  apply (sealed_region_never_entered MAZES 1 MAZE_1 ["blue"] [(1, 7); (1, 8); (1, 9)]
           (1, 1) "right" 5 [] [] (1, 6) [] [] false).
  - reflexivity.
  - apply (bool_decide_unpack _). vm_compute. exact I.
  - apply (bool_decide_unpack _). vm_compute. exact I.
  - apply (bool_decide_unpack _). vm_compute. exact I.
  - apply (bool_decide_unpack _). vm_compute. exact I.
  - intros c Hc. apply (bool_decide_unpack _). vm_compute. exact I.
  - vm_compute. reflexivity.
Defined.

Lemma safe_not_won maze C R p ks bs :
  (length (free_books maze C) < 5)%nat →
  safe maze C R p ks bs → bool_decide (len bs = 5) = false.
Proof.
  intros Hfew Hsafe. apply safe_books_bound in Hsafe.
  apply bool_decide_eq_false. unfold len. lia.
Qed.

Lemma submit_move_safe catalog id maze C R srv user move :
  catalog !! id = Some maze →
  rectangular (grid maze) →
  sealed maze C R →
  (start_pos maze ∉ R) →
  ¬ blocked (grid maze) (start_pos maze) →
  (length (free_books maze C) < 5)%nat →
  sessions_safe id maze C R srv →
  sessions_safe id maze C R (submit_move catalog srv user move).1 ∧
  (move_maze_id move = id → ¬ is_win (submit_move catalog srv user move).2).
Proof.
  intros Hmaze Hrect Hsealed Hstart Hopen Hfew Hsafe.
  destruct user as [user_id|]; [|by split; [|intros _ []]].
  destruct (submit_move_spec catalog srv user_id move)
    as [(e & _ & ->) | (srv1 & st & Hi & Hst & Hres)];
    [by split; [|intros _ []]|].
  destruct (init_game_state_Return _ _ _ _ _ Hi) as (_ & Hsame & _ & Hold & Hnew).
  assert (sessions_safe id maze C R srv1) as Hsafe1.
  { destruct (game_states srv !! game_key user_id (move_maze_id move)) as [st0|] eqn:E.
    - rewrite Hold by eauto. done.
    - destruct (Hnew eq_refl) as (maze' & Hm' & Hinit).
      intros user' st' Hlook.
      destruct (decide (game_key user' id = game_key user_id (move_maze_id move)))
        as [Heq | Hne].
      + destruct (game_key_inj _ _ _ _ Heq) as [_ Hid]. subst id.
        rewrite Heq, Hinit in Hlook. injection Hlook as <-.
        assert (maze' = maze) as -> by congruence. simpl.
        split; [done|]. split; [done|]. split.
        { intros c _ Hc. by apply elem_of_nil in Hc. }
        split; [constructor|]. intros c Hc. by apply elem_of_nil in Hc.
      + rewrite Hsame in Hlook by done. by apply (Hsafe user'). }
  cbv zeta in Hres.
  destruct (validate_move _ _ _ _ _ _ _) as [[error | p nk nb w]|e] eqn:Ev;
    rewrite Hres; cbn [fst snd]; [by split; [|intros _ []] | | by split; [|intros _ []]].
  destruct (decide (move_maze_id move = id)) as [Hid | Hid].
  - subst id.
    pose proof (sealed_move _ _ _ _ _ _ _ _ _ _ _ _ _ _ Hmaze Hrect Hsealed
                  (Hsafe1 _ _ Hst) Ev) as Hnew_safe.
    assert (w = false) as ->.
    { destruct (validate_move_Valid _ _ _ _ _ _ _ _ Ev)
        as [[err [=]] | (maze' & v & _ & _ & Harr)].
      symmetry in Harr. apply arrival_position in Harr as (_ & _ & _ & ->).
      by eapply safe_not_won. }
    split; [|by intros _ []].
    intros user' st' Hlook. cbn [game_states] in Hlook.
    destruct (decide (game_key user' (move_maze_id move)
                      = game_key user_id (move_maze_id move))) as [Heq | Hne].
    + rewrite Heq, lookup_insert_eq in Hlook. by injection Hlook as <-.
    + rewrite lookup_insert_ne in Hlook by done. by apply (Hsafe1 user').
  - split; [|done].
    intros user' st' Hlook. cbn [game_states] in Hlook.
    assert (game_key user_id (move_maze_id move) ≠ game_key user' id) as Hne.
    { intros Heq. by destruct (game_key_inj _ _ _ _ Heq). }
    apply (Hsafe1 user'). destruct w.
    + by rewrite lookup_delete_ne in Hlook.
    + by rewrite lookup_insert_ne in Hlook.
Qed.

Lemma serve_never_won catalog id maze C R srv requests :
  catalog !! id = Some maze →
  rectangular (grid maze) →
  sealed maze C R →
  (start_pos maze ∉ R) →
  ¬ blocked (grid maze) (start_pos maze) →
  (length (free_books maze C) < 5)%nat →
  sessions_safe id maze C R srv →
  never_won id requests (serve catalog srv requests).2.
Proof.
  intros Hmaze Hrect Hsealed Hstart Hopen Hfew. revert srv.
  induction requests as [|[user move] requests IH]; intros srv Hsafe.
  { intros i user move response Hreq. by rewrite lookup_nil in Hreq. }
  cbn [serve].
  destruct (submit_move_safe catalog id maze C R srv user move
              Hmaze Hrect Hsealed Hstart Hopen Hfew Hsafe) as [Hsafe1 Hwin].
  destruct (submit_move catalog srv user move) as [srv1 response1].
  specialize (IH srv1 Hsafe1).
  destruct (serve catalog srv1 requests) as [srv2 responses].
  intros [|i] user' move' response Hreq Hresp Hid; simpl in *.
  - injection Hreq as <- <-. injection Hresp as <-. by apply Hwin.
  - by apply (IH i user' move' response).
Qed.

(** X14. Take a maze of the catalogue with rows of equal length, in which
    a region [R] is closed off by doors of the colours [C] whose keys lie
    inside it ([sealed]), whose start lies outside [R] on a cell that is not a
    wall, and in which fewer than five book colours remain once the colours
    [C] are set aside. Take a server in which every session of that maze is
    safe: it stands outside [R] on a cell that is not a wall, holds no key of
    [C], and holds a duplicate-free list of books whose colours are book
    colours of the maze outside [C]. Then whatever requests are served, for
    whichever users and mazes, no response to a move in that maze reports a
    win. The condition on the books held cannot be dropped: a session that
    already lists five books wins with its next accepted move. *)
Theorem locked_out_maze_never_won (catalog : gmap Z MazeConfig) (id : Z)
    (maze : MazeConfig) (C : list string) (R : list pos) (srv : Server)
    (requests : list (option Z * MoveSubmission)) :
  catalog !! id = Some maze →
  rectangular (grid maze) →
  sealed maze C R →
  (start_pos maze ∉ R) →
  ¬ blocked (grid maze) (start_pos maze) →
  (length (free_books maze C) < 5)%nat →
  sessions_safe id maze C R srv →
  never_won id requests (serve catalog srv requests).2.
Proof. apply serve_never_won. Qed.

Lemma locked_out_maze_never_won_witness :
  never_won 1
    [(Some 1, {| direction := "right"; steps := 5; move_maze_id := 1 |});
     (Some 2, {| direction := "down"; steps := 2; move_maze_id := 1 |})]
    (serve MAZES
       {| game_states :=
            {[ game_key 1 1 := {| position := (1, 4);
                                  gs_collected_keys := ["red"];
                                  gs_collected_books := [] |} ]};
          attempts := [] |}
       [(Some 1, {| direction := "right"; steps := 5; move_maze_id := 1 |});
        (Some 2, {| direction := "down"; steps := 2; move_maze_id := 1 |})]).2.
Proof.
  apply (locked_out_maze_never_won MAZES 1 MAZE_1 ["blue"] [(1, 7); (1, 8); (1, 9)]).
  - reflexivity.
  - apply (bool_decide_unpack _). vm_compute. exact I.
  - apply (bool_decide_unpack _). vm_compute. exact I.
  - apply (bool_decide_unpack _). vm_compute. exact I.
  - apply (bool_decide_unpack _). vm_compute. exact I.
  - vm_compute. lia.
  - intros user_id st Hlook. cbn [game_states] in Hlook.
    apply lookup_singleton_Some in Hlook as [_ <-].
    split; [apply (bool_decide_unpack _); vm_compute; exact I|].
    split; [apply (bool_decide_unpack _); vm_compute; exact I|].
    split.
    { intros c Hc. apply list_elem_of_singleton in Hc as ->.
      apply (bool_decide_unpack _). vm_compute. exact I. }
    split; [constructor|]. intros c Hc. by apply elem_of_nil in Hc.
Defined.

(** A session that already lists five books is outside the invariant: in
    the beginner maze its next accepted move, here one of no step, reports a
    win. *)
Lemma five_books_held_wins :
  (submit_move MAZES
     {| game_states :=
          {[ game_key 1 1 :=
               {| position := (1, 1);
                  gs_collected_keys := [];
                  gs_collected_books := ["blue"; "orange"; "green"; "purple"; "red"] |} ]};
        attempts := [] |}
     (Some 1) {| direction := "up"; steps := 0; move_maze_id := 1 |}).2
  = Return (Valid (1, 1) [] ["blue"; "orange"; "green"; "purple"; "red"] true).
Proof. vm_compute. reflexivity. Qed.

Lemma initial_sessions_safe id maze C R : sessions_safe id maze C R initial_server.
Proof.
  intros user_id st Hlook. unfold initial_server in Hlook. simpl in Hlook.
  by rewrite lookup_empty in Hlook.
Qed.

(** X15. The first shipped maze cannot be won: its blue key lies behind its
    blue door, so whatever requests a fresh server is sent, no response to a
    move in maze 1 reports a win. *)
Theorem maze_1_never_won (requests : list (option Z * MoveSubmission)) :
  never_won 1 requests (serve MAZES initial_server requests).2.
Proof.
  apply (serve_never_won MAZES 1 MAZE_1 ["blue"] [(1, 7); (1, 8); (1, 9)]).
  - reflexivity.
  - apply (bool_decide_unpack _). vm_compute. exact I.
  - apply (bool_decide_unpack _). vm_compute. exact I.
  - apply (bool_decide_unpack _). vm_compute. exact I.
  - apply (bool_decide_unpack _). vm_compute. exact I.
  - vm_compute. lia.
  - apply initial_sessions_safe.
Qed.

(** X16. The third shipped maze cannot be won either: from its start only
    the cells of [MAZE_3_OPEN] are ever stood on, none of which holds a key,
    so whatever requests a fresh server is sent, no response to a move in
    maze 3 reports a win. *)
Theorem maze_3_never_won (requests : list (option Z * MoveSubmission)) :
  never_won 3 requests (serve MAZES initial_server requests).2.
Proof.
  apply (serve_never_won MAZES 3 MAZE_3
           ["blue"; "orange"; "green"; "purple"; "red"]
           (cells_outside (grid MAZE_3) MAZE_3_OPEN)).
  - reflexivity.
  - apply (bool_decide_unpack _). vm_compute. exact I.
  - apply (bool_decide_unpack _). vm_compute. exact I.
  - apply (bool_decide_unpack _). vm_compute. exact I.
  - apply (bool_decide_unpack _). vm_compute. exact I.
  - vm_compute. lia.
  - apply initial_sessions_safe.
Qed.

(** X17. The second shipped maze can be won: there are requests, the
    twenty-four moves of [MAZE_2_SOLUTION] sent by one user to a fresh server,
    whose last response reports a win. *)
Theorem maze_2_can_be_won :
  ∃ requests, ¬ never_won 2 requests (serve MAZES initial_server requests).2.
Proof.
  exists ((λ move, (Some 1, move)) <$> MAZE_2_SOLUTION). intros Hnever.
  pose proof (Hnever 23%nat) as Hlast. vm_compute in Hlast.
  apply (Hlast _ _ _ eq_refl eq_refl eq_refl). exact I.
Qed.

(** ** The carved grid *)

(** What kind of cell the carving opens. *)
Lemma open_cell_kind w h s st p :
  carve_inv w h s st → open_cell (c_grid st) p →
  ((p.1 - s.1) `mod` 2 = 0 ∧ (p.2 - s.2) `mod` 2 = 0)
  ∨ ((p.1 - s.1) `mod` 2 = 1 ∧ (p.2 - s.2) `mod` 2 = 0 ∧
     inside w h (p.1 - 1, p.2) ∧ inside w h (p.1 + 1, p.2))
  ∨ ((p.1 - s.1) `mod` 2 = 0 ∧ (p.2 - s.2) `mod` 2 = 1 ∧
     inside w h (p.1, p.2 - 1) ∧ inside w h (p.1, p.2 + 1)).
Proof.
  intros Hinv Hopen.
  destruct (inv_open _ _ _ _ Hinv p Hopen) as [Hv | [[Ha Hb] | [Ha Hb]]].
  - left. by destruct (inv_visited _ _ _ _ Hinv _ Hv) as (_ & _ & ? & ?).
  - right. left.
    destruct (inv_visited _ _ _ _ Hinv _ Ha) as (Hia & _ & Hra & Hca).
    destruct (inv_visited _ _ _ _ Hinv _ Hb) as (Hib & _ & _ & _).
    simpl in *. split; [zlia|]. done.
  - right. right.
    destruct (inv_visited _ _ _ _ Hinv _ Ha) as (Hia & _ & Hra & Hca).
    destruct (inv_visited _ _ _ _ Hinv _ Hb) as (Hib & _ & _ & _).
    simpl in *. split; [done|]. split; [zlia|]. done.
Qed.

Lemma not_open_is_wall w h s st p :
  carve_inv w h s st → inside w h p → ¬ open_cell (c_grid st) p →
  cell_at (c_grid st) p = Some "#".
Proof.
  intros Hinv Hin Hnot.
  pose proof (inv_shape _ _ _ _ Hinv) as Hshape.
  destruct (cell_at (c_grid st) p) as [x|] eqn:E.
  - destruct (inv_cells _ _ _ _ Hinv p x E) as [-> | ->]; [done|].
    by destruct Hnot.
  - exfalso. destruct Hshape as [Hh Hrows]. destruct Hin as [Hr Hc].
    destruct (lookup_lt_is_Some_2 (c_grid st) (Z.to_nat p.1)) as [row Hrow].
    { unfold len in Hh. lia. }
    pose proof (Forall_lookup_1 _ _ _ _ Hrows Hrow) as Hlen. simpl in Hlen.
    destruct (lookup_lt_is_Some_2 row (Z.to_nat p.2)) as [x Hx].
    { unfold len in Hlen. lia. }
    assert (cell_at (c_grid st) p = Some x) as E'.
    { apply cell_at_lookup. split; [lia|]. split; [lia|]. by exists row. }
    congruence.
Qed.

(** X18. In a generated grid a cell that is not a wall is either a lattice
    cell (an even number of rows and of columns away from the start) or the
    cell between two lattice cells that both lie inside the grid; a cell an
    odd number of rows and an odd number of columns away from the start is
    always a wall. *)
Theorem carved_cells_on_lattice
    (randint : randint_t) (fuel : nat) (width height : Z) (start : pos) :
  randint_ok randint →
  inside width height start →
  (4 * (Z.to_nat height * Z.to_nat width) <= fuel)%nat →
  ∃ g, generate_maze randint fuel width height start = Return (Some g) ∧
    (∀ p, open_cell g p →
       lattice_cell start p
       ∨ (lattice_cell start (p.1 - 1, p.2) ∧ lattice_cell start (p.1 + 1, p.2) ∧
          inside width height (p.1 - 1, p.2) ∧ inside width height (p.1 + 1, p.2))
       ∨ (lattice_cell start (p.1, p.2 - 1) ∧ lattice_cell start (p.1, p.2 + 1) ∧
          inside width height (p.1, p.2 - 1) ∧ inside width height (p.1, p.2 + 1))) ∧
    (∀ p, inside width height p →
       (p.1 - start.1) `mod` 2 = 1 → (p.2 - start.2) `mod` 2 = 1 →
       cell_at g p = Some "#").
Proof.
  intros Hrand Hs Hfuel.
  destruct (carve_run_spec randint fuel _ _ start Hrand Hs Hfuel)
    as (st & Hrun & Hinv & _).
  exists (c_grid st). split; [by apply generate_maze_run|]. split.
  - intros [r c] Hopen. destruct start as [sr sc].
    destruct (open_cell_kind _ _ _ _ _ Hinv Hopen)
      as [[Hr Hc] | [(Hr & Hc & Ha & Hb) | (Hr & Hc & Ha & Hb)]]; simpl in *.
    + left. exists ((r - sr) `div` 2), ((c - sc) `div` 2). simpl. f_equal; zlia.
    + right. left. split; [|split; [|done]].
      * exists ((r - 1 - sr) `div` 2), ((c - sc) `div` 2). simpl. f_equal; zlia.
      * exists ((r + 1 - sr) `div` 2), ((c - sc) `div` 2). simpl. f_equal; zlia.
    + right. right. split; [|split; [|done]].
      * exists ((r - sr) `div` 2), ((c - 1 - sc) `div` 2). simpl. f_equal; zlia.
      * exists ((r - sr) `div` 2), ((c + 1 - sc) `div` 2). simpl. f_equal; zlia.
  - intros p Hin Hr Hc. apply (not_open_is_wall _ _ _ _ _ Hinv Hin).
    intros Hopen.
    destruct (open_cell_kind _ _ _ _ _ Hinv Hopen)
      as [[Hr' Hc'] | [(Hr' & Hc' & _) | (Hr' & Hc' & _)]]; lia.
Qed.

Lemma carved_cells_on_lattice_witness :
  ∃ g, generate_maze pick_last 100 5 5 (1, 1) = Return (Some g) ∧
       cell_at g (2, 2) = Some "#".
Proof.
  destruct (carved_cells_on_lattice pick_last 100 5 5 (1, 1))
    as (g & Hgen & _ & Hwall).
  - intros k a b Hab. unfold pick_last. lia.
  - unfold inside. simpl. lia.
  - simpl. lia.
  - exists g. split; [exact Hgen|]. apply Hwall.
    + unfold inside. simpl. lia.
    + reflexivity.
    + reflexivity.
Defined.

(** X19. With odd sizes and a start on odd coordinates the generated grid
    is enclosed: every cell of its first and last row and of its first and
    last column is a wall. [generate_complete_maze] makes the sizes odd, so
    its grids are enclosed whenever the start has odd coordinates. *)
Theorem odd_start_keeps_outer_wall
    (randint : randint_t) (shuffle : shuffle_t) (fuel : nat)
    (width height : Z) (start : pos) (id : Z) (nm : string) :
  randint_ok randint →
  inside (ensure_odd width) (ensure_odd height) start →
  Z.odd start.1 = true → Z.odd start.2 = true →
  (4 * (Z.to_nat (ensure_odd height) * Z.to_nat (ensure_odd width)) <= fuel)%nat →
  ∃ m, generate_complete_maze randint shuffle fuel width height start id nm
         = Return (Some m) ∧
       grid_shape (grid m) (ensure_odd width) (ensure_odd height) ∧
       ∀ p, in_bounds (grid m) p →
         p.1 = 0 ∨ p.1 = ensure_odd height - 1 ∨
         p.2 = 0 ∨ p.2 = ensure_odd width - 1 →
         cell_at (grid m) p = Some "#".
Proof.
  intros Hrand Hs Hsr Hsc Hfuel.
  destruct (carve_run_spec randint fuel _ _ start Hrand Hs Hfuel)
    as (st & Hrun & Hinv & _).
  pose proof (inv_shape _ _ _ _ Hinv) as Hshape.
  assert (0 < ensure_odd height) as Hh by (unfold inside in Hs; lia).
  unfold generate_complete_maze.
  rewrite (generate_maze_run _ _ _ _ _ _ Hrun).
  destruct (place_special_items_spec shuffle (c_grid st) _ _ start 5 5 2 Hshape Hh)
    as (ks & ds & bs & ps & -> & _).
  simpl. eexists. split; [done|]. simpl. split; [done|].
  intros p Hin Hborder.
  apply (in_bounds_inside _ _ _ _ Hshape) in Hin.
  apply (not_open_is_wall _ _ _ _ _ Hinv Hin). intros Hopen.
  destruct (ensure_odd_spec width) as (Hw & _).
  destruct (ensure_odd_spec height) as (Hh' & _).
  apply Z.odd_spec in Hw as [a Ha]. apply Z.odd_spec in Hh' as [b Hb].
  apply Z.odd_spec in Hsr as [c Hc]. apply Z.odd_spec in Hsc as [d Hd].
  destruct (open_cell_kind _ _ _ _ _ Hinv Hopen)
    as [[Hr' Hc'] | [(Hr' & Hc' & Hx & Hy) | (Hr' & Hc' & Hx & Hy)]];
    unfold inside in *; simpl in *; zlia.
Qed.

Lemma odd_start_keeps_outer_wall_witness :
  ∃ m, generate_complete_maze pick_first reverse 100 4 4 (1, 1) 4 "generated"
         = Return (Some m) ∧
       cell_at (grid m) (0, 3) = Some "#".
Proof.
  destruct (odd_start_keeps_outer_wall pick_first reverse 100 4 4 (1, 1) 4 "generated")
    as (m & Hgen & Hshape & Hwall).
  - intros k a b Hab. unfold pick_first. lia.
  - change (ensure_odd 4) with 5. unfold inside. simpl. lia.
  - reflexivity.
  - reflexivity.
  - change (ensure_odd 4) with 5. simpl. lia.
  - exists m. split; [exact Hgen|]. apply Hwall.
    + apply (in_bounds_inside _ _ _ _ Hshape).
      change (ensure_odd 4) with 5. unfold inside. simpl. lia.
    + left. reflexivity.
Defined.

Lemma py_index_out_of_range {A} (l : list A) (i : Z) :
  ¬ (- len l <= i < len l) → py_index l i = Raise IndexError.
Proof.
  intros Hout. unfold py_index. rewrite !bool_decide_eq_false_2 by lia. done.
Qed.

Lemma getitem_any_index {A} (l : list A) (i : Z) :
  - len l <= i < len l → ∃ x, x ∈ l ∧ getitem l i = Return x.
Proof.
  intros Hi. unfold getitem, py_index. unfold len in *.
  case_bool_decide as H1; [|rewrite bool_decide_eq_true_2 by lia]; simpl.
  - destruct (lookup_lt_is_Some_2 l (Z.to_nat i)) as [x Hx]; [lia|].
    rewrite Hx. exists x. split; [by eapply list_elem_of_lookup_2 | done].
  - destruct (lookup_lt_is_Some_2 l (Z.to_nat (Z.of_nat (length l) + i)))
      as [x Hx]; [lia|].
    rewrite Hx. exists x. split; [by eapply list_elem_of_lookup_2 | done].
Qed.

(** X20. A start outside the index range of the grid, that is with a row
    outside [-height, height) or a column outside [-width, width), makes
    [generate_maze] raise [IndexError] before any cell is carved, for every
    size (non-positive sizes give an empty grid, which no index fits). *)
Theorem start_out_of_range_raises
    (randint : randint_t) (fuel : nat) (width height : Z) (start : pos) :
  ¬ (- height <= start.1 < height ∧ - width <= start.2 < width) →
  generate_maze randint fuel width height start = Raise IndexError.
Proof.
  intros Hout. destruct start as [r c]. simpl in Hout.
  unfold generate_maze, carve_run, carve_init, grid_set.
  set (row0 := replicate (Z.to_nat width) "#").
  set (g := replicate (Z.to_nat height) row0).
  assert (len g = Z.max 0 height) as Hlen.
  { unfold len, g. rewrite length_replicate. lia. }
  assert (len row0 = Z.max 0 width) as Hlen0.
  { unfold len, row0. rewrite length_replicate. lia. }
  destruct (decide (- height <= r < height)) as [Hr | Hr].
  - destruct (getitem_any_index g r) as (row & Hrow & ->); [lia|].
    apply elem_of_replicate in Hrow as [-> _].
    assert (setitem row0 c " " = Raise IndexError) as Hset.
    { unfold setitem. rewrite py_index_out_of_range by lia. done. }
    simpl. by rewrite Hset.
  - unfold getitem. rewrite py_index_out_of_range by lia. done.
Qed.

Lemma start_out_of_range_raises_witness :
  generate_maze pick_first 100 5 5 (5, 1) = Raise IndexError.
Proof.
  apply (start_out_of_range_raises pick_first 100 5 5 (5, 1)). simpl. lia.
Defined.

(** ** The placement of items *)

Lemma dict_set_fresh {V} (d : dict string V) (k : string) (v : V) :
  k ∉ d.*1 → dict_set d k v = d ++ [(k, v)].
Proof.
  induction d as [|[k0 v0] d IH]; simpl; [done|].
  intros Hk. case_decide as Hk0.
  - exfalso. apply Hk. subst k0. apply elem_of_cons. by left.
  - rewrite IH; [done|]. intros Hin. apply Hk. apply elem_of_cons. by right.
Qed.

Lemma pop_last_snoc {A} (l : list A) (x : A) : pop_last (l ++ [x]) = Some (x, l).
Proof.
  unfold pop_last. rewrite reverse_app. simpl. by rewrite reverse_involutive.
Qed.

Lemma pop_last_two {A} (l : list A) :
  (2 <= length l)%nat →
  ∃ rest door_pos key_pos, l = rest ++ [door_pos; key_pos].
Proof.
  intros Hl. exists (take (length l - 2) l).
  pose proof (take_drop (length l - 2) l) as E.
  destruct (drop (length l - 2) l) as [|d [|k [|? ?]]] eqn:Ed.
  - apply (f_equal length) in Ed. rewrite length_drop in Ed. simpl in Ed. lia.
  - apply (f_equal length) in Ed. rewrite length_drop in Ed. simpl in Ed. lia.
  - by exists d, k.
  - apply (f_equal length) in Ed. rewrite length_drop in Ed. simpl in Ed. lia.
Qed.

(** The colour loop over fresh colours, with two cells left for each: every
    colour gets a key cell and a door cell, taken off the list. *)
Lemma place_colors_layout (cells : list pos) (cs : list string) (pl : placing) :
  NoDup cs →
  (∀ c, c ∈ cs → c ∉ (p_keys pl).*1) →
  (p_doors pl).*1 = (p_keys pl).*1 →
  (2 * length cs <= length (p_empty_cells pl))%nat →
  cells ≡ₚ p_empty_cells pl ++ (p_keys pl).*2 ++ (p_doors pl).*2 →
  let pl' := foldl place_color pl cs in
  (p_keys pl').*1 = (p_keys pl).*1 ++ cs ∧
  (p_doors pl').*1 = (p_keys pl').*1 ∧
  cells ≡ₚ p_empty_cells pl' ++ (p_keys pl').*2 ++ (p_doors pl').*2.
Proof.
  revert pl. induction cs as [|color cs IH]; intros pl Hnd Hfresh Hsame Hlen Hperm.
  { simpl. by rewrite app_nil_r. }
  apply NoDup_cons in Hnd as [Hnot Hnd]. simpl in Hlen.
  destruct (pop_last_two (p_empty_cells pl)) as (rest & dp & kp & Hcells); [lia|].
  assert (color ∉ (p_keys pl).*1) as Hk.
  { apply Hfresh. apply elem_of_cons. by left. }
  assert (place_color pl color =
            {| p_empty_cells := rest;
               p_keys := p_keys pl ++ [(color, kp)];
               p_doors := p_doors pl ++ [(color, dp)];
               p_books := dict_set (p_books pl) color dp |}) as Hstep.
  { unfold place_color. rewrite Hcells.
    change (rest ++ [dp; kp]) with (rest ++ [dp] ++ [kp]).
    rewrite app_assoc, pop_last_snoc. simpl. rewrite pop_last_snoc. simpl.
    rewrite !dict_set_fresh by (by rewrite ?Hsame). done. }
  simpl. rewrite Hstep.
  edestruct (IH {| p_empty_cells := rest;
                   p_keys := p_keys pl ++ [(color, kp)];
                   p_doors := p_doors pl ++ [(color, dp)];
                   p_books := dict_set (p_books pl) color dp |})
    as (Hks & Hds & Hp); cbn [p_keys p_doors p_empty_cells] in *.
  - done.
  - intros c Hc. rewrite fmap_app, elem_of_app.
    change ([(color, kp)].*1) with [color]. rewrite list_elem_of_singleton. intros [Hin | ->]; [|done].
    apply (Hfresh c); [|done]. apply elem_of_cons. by right.
  - by rewrite !fmap_app, Hsame.
  - rewrite Hcells, length_app in Hlen. simpl in Hlen. lia.
  - rewrite Hperm, Hcells, !fmap_app.
    change (rest ++ [dp; kp]) with (rest ++ [dp] ++ [kp]).
    change ([(color, kp)].*2) with [kp]. change ([(color, dp)].*2) with [dp].
    solve_Permutation.
  - split; [|done]. rewrite Hks, fmap_app. by rewrite <- app_assoc.
Qed.

(** X21. On a grid of equal-length rows, with [n] path cells other than
    the start, and for every shuffle that permutes its list,
    [place_special_items] gives keys and doors to the same colours: the first
    [min(num_keys, 5, n // 2)] colours of the palette, in palette order,
    whatever [num_doors] is. The books repeat the doors. No cell receives two
    of the keys and doors, and no portal starts or ends on a cell that holds
    a key or a door. *)
Theorem placement_layout (shuffle : shuffle_t) (g : grid_t) (w h : Z) (s : pos)
    (num_keys num_doors num_portals : Z) :
  grid_shape g w h → 0 < h → shuffle_ok shuffle →
  ∃ found ks ds ps,
    place_special_items shuffle g s num_keys num_doors num_portals
      = Return (ks, ds, ds, ps) ∧
    NoDup found ∧ (∀ p, p ∈ found ↔ item_cell g s p) ∧
    ks.*1 = take (Z.to_nat (Z.min (Z.min num_keys (len colors)) (len found `div` 2)))
                 colors ∧
    ds.*1 = ks.*1 ∧
    NoDup (ks.*2 ++ ds.*2) ∧
    (∀ a b, ps !! a = Some b → (a ∉ ks.*2 ++ ds.*2) ∧ (b ∉ ks.*2 ++ ds.*2)).
Proof.
  intros Hshape Hh Hshuffle. unfold place_special_items.
  destruct (Hshape) as [Hlen Hrows].
  destruct (getitem_in_range g 0) as (row0 & Hrow0 & ->); [lia|]. simpl.
  pose proof (Forall_lookup_1 _ _ _ _ Hrows Hrow0) as Hw. simpl in Hw.
  destruct (scan_rows_spec g w h s (seqZ 0 (len g)) (seqZ 0 (len row0)) [] Hshape)
    as (found & -> & Hfound & Hnd).
  { apply Forall_forall. intros r Hr%elem_of_seqZ. lia. }
  { apply Forall_forall. intros c Hc%elem_of_seqZ. lia. }
  simpl.
  assert (NoDup found) as Hndf by (apply Hnd; apply NoDup_seqZ).
  pose proof (Hshuffle found) as Hperm.
  set (cells := shuffle found) in *.
  assert (len cells = len found) as Hlenc by (unfold len; by rewrite Hperm).
  set (count := Z.min (Z.min num_keys (len colors)) (len cells `div` 2)).
  set (cs := take (Z.to_nat count) colors).
  set (pl0 := {| p_empty_cells := cells; p_keys := []; p_doors := []; p_books := [] |}).
  destruct (place_colors_spec cells cs pl0) as (_ & _ & _ & Hb & _).
  { by exists []; rewrite app_nil_r. }
  { constructor. }
  { constructor. }
  { done. }
  { constructor. }
  destruct (place_colors_layout cells cs pl0) as (Hks & Hds & Hp).
  { eapply sublist_NoDup; [|apply sublist_take].
    apply (bool_decide_unpack _). vm_compute. exact I. }
  { intros c _ Hc. by apply elem_of_nil in Hc. }
  { done. }
  { simpl. pose proof (length_take_le colors (Z.to_nat count)) as Hle.
    assert (length cs <= Z.to_nat count)%nat as Hcs.
    { unfold cs. rewrite length_take. lia. }
    clear Hle. unfold count, len in *. zlia. }
  { simpl. by rewrite app_nil_r. }
  set (pl := foldl place_color pl0 cs) in *.
  unfold range_by_2. rewrite seqZ_to_nat.
  destruct (place_portals_spec (p_empty_cells pl)
              (Z.to_nat ((Z.min (num_portals * 2) (len (p_empty_cells pl)) + 1) `div` 2)))
    as (P & -> & HP).
  simpl. exists found, (p_keys pl), (p_doors pl), P. rewrite Hb.
  split; [done|]. split; [done|].
  assert (NoDup (p_empty_cells pl ++ (p_keys pl).*2 ++ (p_doors pl).*2)) as Hall.
  { rewrite <- Hp, Hperm. done. }
  apply NoDup_app in Hall as (Hrest & Hdisj & Hitems).
  split; [|split; [|split; [done|split; [done|]]]].
  - intros p. rewrite Hfound, !elem_of_seqZ. unfold item_cell.
    rewrite (in_bounds_inside g w h p Hshape). unfold inside. split.
    + intros (? & ? & ? & ?). split; [lia | done].
    + intros (? & ? & ?). split; [lia|]. split; [lia | done].
  - rewrite Hks. simpl. unfold cs, count. by rewrite Hlenc.
  - intros a b Hab.
    destruct (HP Hrest a b Hab) as (_ & ta & tb & _ & _ & Ea & Eb).
    split; apply Hdisj; by eapply list_elem_of_lookup_2.
Qed.

Lemma placement_layout_witness :
  ∃ (found : list pos) ks ds ps,
    place_special_items reverse (grid MAZE_1) (1, 1) 5 0 2 = Return (ks, ds, ds, ps) ∧
    ds.*1 = ks.*1 ∧ NoDup (ks.*2 ++ ds.*2) ∧
    (∀ p, p ∈ found ↔ item_cell (grid MAZE_1) (1, 1) p).
Proof.
  destruct (placement_layout reverse (grid MAZE_1) 11 11 (1, 1) 5 0 2)
    as (found & ks & ds & ps & Hrun & _ & Hfound & _ & Hds & Hnd & _).
  - apply (bool_decide_unpack _). vm_compute. exact I.
  - lia.
  - intros l. apply reverse_Permutation.
  - exists found, ks, ds, ps. split; [exact Hrun|]. split; [exact Hds|].
    split; [exact Hnd | exact Hfound].
Defined.

(** ** Splitting a move *)

Lemma step_loop_app maze ks dr dc (n m : nat) (r c : Z) :
  step_loop maze ks dr dc (n + m) r c =
    match step_loop maze ks dr dc n r c with
    | Return (inr p) => step_loop maze ks dr dc m p.1 p.2
    | other => other
    end.
Proof.
  revert r c. induction n as [|n IH]; intros r c; [done|].
  cbn [Nat.add step_loop].
  destruct (check_cell maze ks (r + dr) (c + dc)) as [[error|]|e]; simpl; [done| |done].
  apply IH.
Qed.

(** X22. A move of [n + m] steps answers as the move of [n] steps when
    that one is rejected or raises, and otherwise as the move of [m] steps
    made from the cell [n] steps away with the same keys and books: walking
    in two moves differs from walking in one only by what the first stop
    does (teleport and pickup at that cell). *)
Theorem move_splits (catalog : gmap Z MazeConfig) (id : Z) (current_pos : pos)
    (d : string) (v : pos) (n m : Z) (ks : list string) (bs : option (list string)) :
  direction_map d = Some v →
  0 <= n → 0 <= m →
  validate_move catalog id current_pos d (n + m) ks bs =
    match validate_move catalog id current_pos d n ks bs with
    | Return (Valid _ _ _ _) =>
        validate_move catalog id (cell_after current_pos v n) d m ks bs
    | other => other
    end.
Proof.
  intros Hdir Hn Hm. unfold validate_move.
  destruct (get_maze catalog id) as [maze|]; [|done].
  destruct current_pos as [row col]. rewrite Hdir. destruct v as [dr dc].
  replace (Z.to_nat (n + m)) with (Z.to_nat n + Z.to_nat m)%nat by lia.
  rewrite step_loop_app.
  destruct (step_loop maze ks dr dc (Z.to_nat n) row col) as [[error|p]|e] eqn:E;
    [done| |done].
  apply step_loop_landing in E. rewrite Z2Nat.id in E by done.
  rewrite <- E. by destruct p as [pr pc].
Qed.

Lemma move_splits_witness :
  validate_move MAZES 1 (1, 1) "right" (2 + 3) [] None =
    match validate_move MAZES 1 (1, 1) "right" 2 [] None with
    | Return (Valid _ _ _ _) =>
        validate_move MAZES 1 (cell_after (1, 1) (0, 1) 2) "right" 3 [] None
    | other => other
    end.
Proof.
  apply (move_splits MAZES 1 (1, 1) "right" (0, 1) 2 3 [] None).
  - reflexivity.
  - lia.
  - lia.
Defined.

(** X23. An accepted move never drops or reorders what the player holds:
    the incoming keys and books come first in the outgoing lists, unchanged,
    and whatever is added lies on the final position. A key or book on a cell
    that the move only passes over is not picked up. *)
Theorem pickups_at_final_position (catalog : gmap Z MazeConfig) (id : Z)
    (current_pos : pos) (d : string) (n : Z) (ks : list string)
    (bs : option (list string)) (p : pos) (nk nb : list string) (w : bool) :
  validate_move catalog id current_pos d n ks bs = Return (Valid p nk nb w) →
  ∃ maze added_keys added_books,
    catalog !! id = Some maze ∧
    nk = ks ++ added_keys ∧
    nb = default [] bs ++ added_books ∧
    (∀ c, c ∈ added_keys ↔ (c, p) ∈ keys maze ∧ c ∉ ks) ∧
    (∀ c, c ∈ added_books ↔ (c, p) ∈ books maze ∧ c ∈ nk ∧ c ∉ default [] bs).
Proof.
  intros Hval.
  destruct (validate_move_Valid _ _ _ _ _ _ _ _ Hval)
    as [[err [=]] | (maze & v & Hm & Hdir & Harr)].
  symmetry in Harr. apply arrival_position in Harr as (_ & Hnk & Hnb & _).
  destruct (collect_keys_spec (keys maze) p ks) as (a1 & E1 & H1).
  destruct (collect_books_spec (books maze) p nk (default [] bs)) as (b1 & F1 & G1).
  exists maze, a1, b1. split; [done|]. split; [congruence|]. split; [congruence|].
  done.
Qed.

Lemma pickups_at_final_position_witness :
  ∃ maze added_keys added_books,
    MAZES !! 1 = Some maze ∧
    ([] : list string) = [] ++ added_keys ∧
    ([] : list string) = default [] None ++ added_books ∧
    (∀ c, c ∈ added_keys ↔ (c, (1, 6)) ∈ keys maze ∧ c ∉ ([] : list string)) ∧
    (∀ c, c ∈ added_books ↔
          (c, (1, 6)) ∈ books maze ∧ c ∈ ([] : list string) ∧
          c ∉ default ([] : list string) None).
Proof.
  apply (pickups_at_final_position MAZES 1 (1, 1) "right" 5 [] None (1, 6) [] [] false).
  vm_compute. reflexivity.
Defined.
